(** * Page navigation and live refresh of the axe terminal dashboard

    A shallow embedding of the page controller ([AppView]: [SwitchPage],
    [CurrentPage], [LastPage], [watch], [menuDecor]) and of the table
    views ([tableView]: [init], [run], [refresh], [draw], [UpdateStatus],
    [Refresh], [ShowMenu], [Navigate]).

    Go pointers to table views are addresses into [heap]; goroutines are
    modelled by what they leave behind in the state (a buffered signal, a
    sender parked on a channel) and by a small scheduler, [step], for the
    [watch] goroutine and its callers. *)

From Stdlib Require Import ZArith Lia.
From stdpp Require Import base gmap list strings.

Set Warnings "-register-all".

Open Scope Z_scope.
Open Scope string_scope.
Open Scope nat_scope.

(** ** Data model *)

(** [tview.Primitive]: the drawable things the controller hands around.
    The widget toolkit is external; only the shapes built by this code are
    kept. *)
Inductive tview_Primitive : Type :=
| NilView                                        (* nil: no primitive, or a nil [*tableView] *)
| TableP (t : nat)                               (* a [*tableView], by address *)
| MenuP                                          (* [app.menuView] *)
| TextViewP (title text : string)                (* a status bar *)
| CenterP (p : tview_Primitive) (width height : Z)   (* [center(p, w, h)] *)
| PagesP (pages : list (string * tview_Primitive)).  (* [tview.NewPages()] + [AddPage] *)

Record position := { row : Z; column : Z }.

Record PageTrack := { PageName : string; Primitive : tview_Primitive }.

Record ResourceKind := { Kind : string; Title : string }.

(** [datafeeder.DataSource] is an interface of three methods, [Refresh],
    [Header] and [Data].  The backend is external: its future answers are
    a script, one entry per [Refresh] call, either an error message or the
    table it delivers. *)
Record DataSource := {
  script : list (string + (list string * list (list string)));
  Header : list string;
  Data : list (list string)
}.

Definition DataSource_Refresh (ds : DataSource) : option string * DataSource :=
  match script ds with
  | [] => (None, ds)
  | inl err :: rest =>
      (Some err, {| script := rest; Header := Header ds; Data := Data ds |})
  | inr (h, d) :: rest =>
      (None, {| script := rest; Header := h; Data := d |})
  end.

(** [tableView].  [sync] is an unbuffered channel, so its whole state is
    the number of sender goroutines parked on it.  [selection] and [cells]
    are the state of the embedded [tview.Table].  The view's own mutex is
    taken and released inside [refresh] and nowhere else, and no two
    goroutines refresh one view at a time; it is left out. *)
Record tableView := {
  resourceKind : ResourceKind;
  dataSource : DataSource;
  sync : nat;
  search : string;
  selection : position;
  cells : list (list string)
}.

(** [AppView].  [ctxs] is the store of contexts ever made by
    [context.WithCancel] ([true]: its [Done] channel is closed); [context]
    is the one the application holds, [None] before [Init].  [switchPage]
    is the number of signals buffered in the channel of capacity 1, [None]
    while the channel is nil.  [lock] is the mutex.  [content] lists the
    pages of the [tview.Pages] container, the visible one last; [focus] is
    the application's focus.  [draws] counts [Application.Draw] calls and
    [sleepers] the goroutines of [UpdateStatus] that sleep and then switch
    to the root page.  [currentPrimitive] is read by [UpdateStatus]; no
    function of the sources assigns it. *)
Record AppView := {
  context : option nat;
  ctxs : list bool;
  drawQueue : list PageTrack;
  tableViews : gmap string nat;
  heap : list tableView;
  pageRows : gmap string position;
  showMenu : bool;
  currentPage : string;
  switchPage : option nat;
  lock : bool;
  content : list (string * tview_Primitive);
  focus : tview_Primitive;
  currentPrimitive : tview_Primitive;
  draws : nat;
  sleepers : nat
}.

(** Field updates. *)
Definition set_ctxs (x : list bool) (app : AppView) : AppView :=
  {| context := context app; ctxs := x; drawQueue := drawQueue app;
     tableViews := tableViews app; heap := heap app;
     pageRows := pageRows app; showMenu := showMenu app;
     currentPage := currentPage app; switchPage := switchPage app;
     lock := lock app; content := content app; focus := focus app;
     currentPrimitive := currentPrimitive app; draws := draws app;
     sleepers := sleepers app |}.

Definition set_drawQueue (x : list PageTrack) (app : AppView) : AppView :=
  {| context := context app; ctxs := ctxs app; drawQueue := x;
     tableViews := tableViews app; heap := heap app;
     pageRows := pageRows app; showMenu := showMenu app;
     currentPage := currentPage app; switchPage := switchPage app;
     lock := lock app; content := content app; focus := focus app;
     currentPrimitive := currentPrimitive app; draws := draws app;
     sleepers := sleepers app |}.

Definition set_tableViews (x : gmap string nat) (app : AppView) : AppView :=
  {| context := context app; ctxs := ctxs app; drawQueue := drawQueue app;
     tableViews := x; heap := heap app; pageRows := pageRows app;
     showMenu := showMenu app; currentPage := currentPage app;
     switchPage := switchPage app; lock := lock app; content := content app;
     focus := focus app; currentPrimitive := currentPrimitive app;
     draws := draws app; sleepers := sleepers app |}.

Definition set_heap (x : list tableView) (app : AppView) : AppView :=
  {| context := context app; ctxs := ctxs app; drawQueue := drawQueue app;
     tableViews := tableViews app; heap := x; pageRows := pageRows app;
     showMenu := showMenu app; currentPage := currentPage app;
     switchPage := switchPage app; lock := lock app; content := content app;
     focus := focus app; currentPrimitive := currentPrimitive app;
     draws := draws app; sleepers := sleepers app |}.

Definition set_pageRows (x : gmap string position) (app : AppView) : AppView :=
  {| context := context app; ctxs := ctxs app; drawQueue := drawQueue app;
     tableViews := tableViews app; heap := heap app; pageRows := x;
     showMenu := showMenu app; currentPage := currentPage app;
     switchPage := switchPage app; lock := lock app; content := content app;
     focus := focus app; currentPrimitive := currentPrimitive app;
     draws := draws app; sleepers := sleepers app |}.

Definition set_showMenu (x : bool) (app : AppView) : AppView :=
  {| context := context app; ctxs := ctxs app; drawQueue := drawQueue app;
     tableViews := tableViews app; heap := heap app;
     pageRows := pageRows app; showMenu := x; currentPage := currentPage app;
     switchPage := switchPage app; lock := lock app; content := content app;
     focus := focus app; currentPrimitive := currentPrimitive app;
     draws := draws app; sleepers := sleepers app |}.

Definition set_currentPage (x : string) (app : AppView) : AppView :=
  {| context := context app; ctxs := ctxs app; drawQueue := drawQueue app;
     tableViews := tableViews app; heap := heap app;
     pageRows := pageRows app; showMenu := showMenu app; currentPage := x;
     switchPage := switchPage app; lock := lock app; content := content app;
     focus := focus app; currentPrimitive := currentPrimitive app;
     draws := draws app; sleepers := sleepers app |}.

Definition set_switchPage (x : option nat) (app : AppView) : AppView :=
  {| context := context app; ctxs := ctxs app; drawQueue := drawQueue app;
     tableViews := tableViews app; heap := heap app;
     pageRows := pageRows app; showMenu := showMenu app;
     currentPage := currentPage app; switchPage := x; lock := lock app;
     content := content app; focus := focus app;
     currentPrimitive := currentPrimitive app; draws := draws app;
     sleepers := sleepers app |}.

Definition set_lock (x : bool) (app : AppView) : AppView :=
  {| context := context app; ctxs := ctxs app; drawQueue := drawQueue app;
     tableViews := tableViews app; heap := heap app;
     pageRows := pageRows app; showMenu := showMenu app;
     currentPage := currentPage app; switchPage := switchPage app; lock := x;
     content := content app; focus := focus app;
     currentPrimitive := currentPrimitive app; draws := draws app;
     sleepers := sleepers app |}.

Definition set_content (x : list (string * tview_Primitive)) (app : AppView) : AppView :=
  {| context := context app; ctxs := ctxs app; drawQueue := drawQueue app;
     tableViews := tableViews app; heap := heap app;
     pageRows := pageRows app; showMenu := showMenu app;
     currentPage := currentPage app; switchPage := switchPage app;
     lock := lock app; content := x; focus := focus app;
     currentPrimitive := currentPrimitive app; draws := draws app;
     sleepers := sleepers app |}.

Definition set_focus (x : tview_Primitive) (app : AppView) : AppView :=
  {| context := context app; ctxs := ctxs app; drawQueue := drawQueue app;
     tableViews := tableViews app; heap := heap app;
     pageRows := pageRows app; showMenu := showMenu app;
     currentPage := currentPage app; switchPage := switchPage app;
     lock := lock app; content := content app; focus := x;
     currentPrimitive := currentPrimitive app; draws := draws app;
     sleepers := sleepers app |}.

Definition set_draws (x : nat) (app : AppView) : AppView :=
  {| context := context app; ctxs := ctxs app; drawQueue := drawQueue app;
     tableViews := tableViews app; heap := heap app;
     pageRows := pageRows app; showMenu := showMenu app;
     currentPage := currentPage app; switchPage := switchPage app;
     lock := lock app; content := content app; focus := focus app;
     currentPrimitive := currentPrimitive app; draws := x;
     sleepers := sleepers app |}.

Definition set_sleepers (x : nat) (app : AppView) : AppView :=
  {| context := context app; ctxs := ctxs app; drawQueue := drawQueue app;
     tableViews := tableViews app; heap := heap app;
     pageRows := pageRows app; showMenu := showMenu app;
     currentPage := currentPage app; switchPage := switchPage app;
     lock := lock app; content := content app; focus := focus app;
     currentPrimitive := currentPrimitive app; draws := draws app;
     sleepers := x |}.

(** ** Outcomes of a call

    A call made by a goroutine either returns with a new state, leaves the
    goroutine parked on a channel or on the mutex (the state is the one it
    parked in), or panics. *)
Inductive outcome (A : Type) : Type :=
| Done (a : A) (app : AppView)
| Parked (app : AppView)
| Crash (app : AppView).
Arguments Done {A} a app.
Arguments Parked {A} app.
Arguments Crash {A} app.

Definition M (A : Type) : Type := AppView -> outcome A.

Definition ret {A : Type} (a : A) : M A := fun app => Done a app.

Definition bind {A B : Type} (m : M A) (k : A -> M B) : M B :=
  fun app =>
    match m app with
    | Done a app' => k a app'
    | Parked app' => Parked app'
    | Crash app' => Crash app'
    end.

Notation "x <~ m ;; k" := (bind m (fun x => k))
  (at level 100, m at next level, right associativity).
Notation "m ;;; k" := (bind m (fun _ => k))
  (at level 100, right associativity).

(** A state change that cannot block or fail. *)
Definition modify (f : AppView -> AppView) : M unit := fun app => Done tt (f app).

Definition final {A : Type} (o : outcome A) : AppView :=
  match o with
  | Done _ app => app
  | Parked app => app
  | Crash app => app
  end.

(** ** Constants and package-level tables *)

(** Modelled from the spec: the constant [RootPage] is declared outside the
    available sources; the spec names the root page "root". *)
Definition RootPage : string := "root".

Definition errorDelayTime : nat := 1.

(** One entry of [ViewMap]: the arguments [NewTableView] passes to [init].
    [Feeder] is an interface value: [None] is nil. *)
Record View := { View_Kind : ResourceKind; Feeder : option DataSource }.

(** [ViewMap] and [PageNav] are tables declared outside the available
    sources; the functions that read them take them as arguments.  A Go
    map lookup of a missing key yields the zero value. *)
Record Tables := {
  ViewMap : gmap string View;
  PageNav : gmap nat string
}.

Definition zeroView : View :=
  {| View_Kind := {| Kind := ""; Title := "" |}; Feeder := None |}.

(** [app.tableViews[name]] as a primitive: a missing key gives the zero
    value of the map, a nil [*tableView]. *)
Definition registered (name : string) (app : AppView) : tview_Primitive :=
  match tableViews app !! name with
  | Some t => TableP t
  | None => NilView
  end.

(** ** The draw queue *)

Module PrimitiveQueue.

(** Modelled from the spec: the methods of [PrimitiveQueue] are declared
    outside the available sources.  Spec 4.2: [Enqueue] appends to the
    end, with no deduplication and no cap. *)
Definition Enqueue (t : PageTrack) (app : AppView) : AppView :=
  set_drawQueue (drawQueue app ++ [t]) app.

(** Modelled from the spec: [Dequeue] removes and discards the last
    element and is a no-op on the empty queue. *)
Definition Dequeue (app : AppView) : AppView :=
  set_drawQueue (removelast (drawQueue app)) app.

(** Modelled from the spec: [Last] returns the top without removing it, or
    the root-page sentinel if the queue is empty.  The queue embeds the
    [*AppView], which is where the root view is found. *)
Definition Last (app : AppView) : PageTrack :=
  match last (drawQueue app) with
  | Some t => t
  | None => {| PageName := RootPage; Primitive := registered RootPage app |}
  end.

(** Modelled from the spec: [Empty] is true if no elements remain. *)
Definition Empty (app : AppView) : bool :=
  match drawQueue app with
  | [] => true
  | _ :: _ => false
  end.

End PrimitiveQueue.

(** ** The toolkit calls the controller makes *)

(** [Pages.AddAndSwitchToPage(name, item, true)]: a page of that name is
    replaced, and the new page is the only visible one. *)
Definition AddAndSwitchToPage (name : string) (item : tview_Primitive)
    (app : AppView) : AppView :=
  set_content (filter (fun np => np.1 ≠ name) (content app) ++ [(name, item)]) app.

(** The page shown by [content]. *)
Definition frontPage (app : AppView) : option (string * tview_Primitive) :=
  last (content app).

(** Where [Application.SetFocus(p)] leaves the focus.  It calls [p.Focus]
    with itself as the delegate: a [Pages] hands the focus on to its top
    visible page, and so on down; a table, a text view, the menu and the
    flex made by [center], none of whose items takes the focus, keep
    it.  On nil nothing is called. *)
Fixpoint focusTarget (p : tview_Primitive) : tview_Primitive :=
  match p with
  | PagesP pages =>
      (fix top (l : list (string * tview_Primitive)) (r : tview_Primitive)
         : tview_Primitive :=
         match l with
         | [] => r
         | np :: l' => top l' (focusTarget np.2)
         end) pages p
  | _ => p
  end.

Definition SetFocus (p : tview_Primitive) (app : AppView) : AppView :=
  set_focus (focusTarget p) app.

(** The package-level [center] helper. *)
Definition center (p : tview_Primitive) (width height : Z) : tview_Primitive :=
  CenterP p width height.

(** The focus is on the table or the text view [p]. *)
Definition focusOn (f p : tview_Primitive) : bool :=
  match f, p with
  | TableP a, TableP b => Nat.eqb a b
  | TextViewP a b, TextViewP c d => String.eqb a c && String.eqb b d
  | _, _ => false
  end.

(** [HasFocus] of the toolkit, asked of [p] while the application's focus
    is on [f]; [None] where the call panics.  A table or a text view
    answers for itself.  A [Pages] asks its pages in order and stops at
    the first that has the focus; the flexes of [center] ask what they
    centre; the items of the menu never have the focus.  A nil primitive
    cannot be asked: the method call panics. *)
Fixpoint HasFocus (f p : tview_Primitive) : option bool :=
  match p with
  | NilView => None
  | TableP _ | TextViewP _ _ => Some (focusOn f p)
  | MenuP => Some false
  | CenterP q _ _ => HasFocus f q
  | PagesP pages =>
      (fix ask (l : list (string * tview_Primitive)) : option bool :=
         match l with
         | [] => Some false
         | np :: l' =>
             match HasFocus f np.2 with
             | Some false => ask l'
             | r => r
             end
         end) pages
  end.

(** [Pages.AddPage(name, item, true, true)] on a [Pages] that is being
    built, [pages] being what it holds.  The call first asks the [Pages]
    whether it has the focus, which panics on a nil page; then a page of
    the same name is replaced and the new page goes on top. *)
Definition AddPage (name : string) (item : tview_Primitive)
    (pages : list (string * tview_Primitive))
    : M (list (string * tview_Primitive)) :=
  fun app =>
    match HasFocus (focus app) (PagesP pages) with
    | Some _ =>
        Done (filter (fun np => np.1 ≠ name) pages ++ [(name, item)])%list app
    | None => Crash app
    end.

(** ** The page controller *)

Definition switchPage_cap : nat := 1.

(** [app.switchPage <- struct{}{}]: parks when the buffer is full, and for
    ever on the nil channel. *)
Definition send_switchPage : M unit :=
  fun app =>
    match switchPage app with
    | Some n =>
        if decide (n < switchPage_cap)
        then Done tt (set_switchPage (Some (S n)) app)
        else Parked app
    | None => Parked app
    end.

(** [app.lock.Lock()] and [app.lock.Unlock()]. *)
Definition Lock : M unit :=
  fun app => if lock app then Parked app else Done tt (set_lock true app).

Definition Unlock : M unit := modify (set_lock false).

(** What [SwitchPage] does once it has released the mutex. *)
Definition SwitchPage_show (page : string) (p : tview_Primitive) : M unit :=
  modify (AddAndSwitchToPage page p) ;;;
  modify (PrimitiveQueue.Enqueue {| PageName := page; Primitive := p |}) ;;;
  modify (SetFocus p).

Definition SwitchPage (page : string) (p : tview_Primitive) : M unit :=
  Lock ;;;
  (fun app =>
     if decide (currentPage app ≠ page)
     then (modify (set_currentPage page) ;;; send_switchPage) app
     else Done tt app) ;;;
  Unlock ;;;
  SwitchPage_show page p.

Definition CurrentPage : M tview_Primitive :=
  fun app => Done (registered (currentPage app) app) app.

Definition LastPage : M unit :=
  modify PrimitiveQueue.Dequeue ;;;
  page <~ (fun app => Done (PrimitiveQueue.Last app) app) ;;
  modify (AddAndSwitchToPage (PageName page) (Primitive page)) ;;;
  modify (SetFocus (Primitive page)).

Definition menuDecor (page : string) (p : tview_Primitive) : M unit :=
  pages <~ AddPage page p [] ;;
  pages <~ AddPage "menu" (center MenuP 30 20) pages ;;
  SwitchPage page (PagesP pages).

(** ** Table views *)

Definition set_dataSource (x : DataSource) (v : tableView) : tableView :=
  {| resourceKind := resourceKind v; dataSource := x; sync := sync v;
     search := search v; selection := selection v; cells := cells v |}.

Definition set_sync (x : nat) (v : tableView) : tableView :=
  {| resourceKind := resourceKind v; dataSource := dataSource v; sync := x;
     search := search v; selection := selection v; cells := cells v |}.

Definition set_search (x : string) (v : tableView) : tableView :=
  {| resourceKind := resourceKind v; dataSource := dataSource v;
     sync := sync v; search := x; selection := selection v;
     cells := cells v |}.

Definition set_selection (x : position) (v : tableView) : tableView :=
  {| resourceKind := resourceKind v; dataSource := dataSource v;
     sync := sync v; search := search v; selection := x; cells := cells v |}.

Definition set_cells (x : list (list string)) (v : tableView) : tableView :=
  {| resourceKind := resourceKind v; dataSource := dataSource v;
     sync := sync v; search := search v; selection := selection v;
     cells := x |}.

(** Reading and writing through a [*tableView].  Addresses come from
    [NewTableView] only; a dereference outside the heap is the nil
    dereference and panics. *)
Definition deref (t : nat) : M tableView :=
  fun app =>
    match heap app !! t with
    | Some v => Done v app
    | None => Crash app
    end.

Definition update (t : nat) (f : tableView -> tableView) : M unit :=
  v <~ deref t ;; modify (fun app => set_heap (<[t := f v]> (heap app)) app).

(** [tableView.init], the part that is state: the fields, the channel, and
    the cursor restored from [pageRows].  [app.syncs] is assigned neither
    by [NewAppView] nor by [Init], so line 67 reads a nil map and line 80
    always makes the channel; [sync] counts the signals waiting on it. *)
Definition init (resource : ResourceKind) (dataFeeder : DataSource)
    (app : AppView) : tableView :=
  {| resourceKind := resource;
     dataSource := dataFeeder;
     sync := 0;
     search := "";
     selection :=
       match pageRows app !! Kind resource with
       | Some p => {| row := row p; column := column p |}
       | None => {| row := 0; column := 0 |}
       end;
     cells := [] |}.

(** The function [init] installs with [SetSelectionChangedFunc]. *)
Definition selectionChanged (t : nat) (r c : Z) : M unit :=
  v <~ deref t ;;
  modify (fun app =>
    set_pageRows (<[Kind (resourceKind v) := {| row := r; column := c |}]> (pageRows app)) app).

(** The toolkit moving the cursor of table [t] on user input: the table's
    selection changes and the installed function is called with it. *)
Definition userSelect (t : nat) (r c : Z) : M unit :=
  update t (set_selection {| row := r; column := c |}) ;;;
  selectionChanged t r c.

(** [strings.Contains]. *)
Definition Contains (s substr : string) : bool :=
  match String.index 0 substr s with
  | Some _ => true
  | None => false
  end.

Definition skipped (srch : string) (r : list string) : bool :=
  match r with
  | first :: _ => if decide (first = "") then true else false
  | [] => false
  end
  || (negb (if decide (srch = "") then true else false)
      && negb (Contains (String.concat "" r) srch)).

(** [tableView.draw]: the header in row 0, below it the rows that are not
    skipped; the search is consumed and the application redrawn. *)
Definition draw (t : nat) : M unit :=
  v <~ deref t ;;
  let header := Header (dataSource v) in
  let data := Data (dataSource v) in
  let head := map (fun name => "[white]" ++ name) header in
  let body := List.filter (fun r => negb (skipped (search v) r)) data in
  update t (fun v => set_search "" (set_cells (head :: body) v)) ;;;
  modify (fun app => set_draws (S (draws app)) app).

(** [tableView.refresh]: [Some err] is the error returned. *)
Definition refresh (t : nat) : M (option string) :=
  v <~ deref t ;;
  let (err, ds) := DataSource_Refresh (dataSource v) in
  update t (set_dataSource ds) ;;;
  match err with
  | Some e => ret (Some e)
  | None => draw t ;;; ret None
  end.

(** [tableView.UpdateStatus]; the goroutine it starts sleeps
    [errorDelayTime] seconds and then calls [SwitchToRootPage], which is
    outside the available sources: it is counted in [sleepers]. *)
Definition UpdateStatus (t : nat) (status : string) (isError : bool)
    : M tview_Primitive :=
  fun app =>
    let statusBar := TextViewP (if isError then "Error" else "Progress") status in
    (pages <~ match tableViews app !! currentPage app with
              | Some _ => AddPage "status" (currentPrimitive app) []
              | None => ret []
              end ;;
     pages <~ AddPage "dialog" (center statusBar 100 5) pages ;;
     (fun app => SwitchPage (currentPage app) (PagesP pages) app) ;;;
     modify (fun app => set_sleepers (S (sleepers app)) app) ;;;
     ret (TableP t)) app.

(** [tableView.Refresh]: the goroutine it starts sends on [t.sync]; the
    caller goes on at once. *)
Definition Refresh (t : nat) : M unit :=
  update t (fun v => set_sync (S (sync v)) v).

Definition ShowMenu : M unit :=
  fun app =>
    if negb (showMenu app)
    then
      (cur <~ CurrentPage ;;
       pages <~ AddPage "menu" cur [] ;;
       pages <~ AddPage "menu-decor" (center MenuP 60 15) pages ;;
       (fun app => SwitchPage (currentPage app) (PagesP pages) app) ;;;
       modify (SetFocus MenuP) ;;;
       modify (set_showMenu true)) app
    else Done tt app.

(** [NewTableView]: the view is allocated, initialised and filled.  For a
    [kind] that [ViewMap] does not hold, [v] is the zero [View], whose
    feeder is nil: [refresh] then panics on [t.dataSource.Refresh()],
    before anything of the new view has reached the application. *)
Definition NewTableView (T : Tables) (kind : string) : M nat :=
  fun app =>
    let v := default zeroView (ViewMap T !! kind) in
    match Feeder v with
    | None => Crash app
    | Some feeder =>
        let t := length (heap app) in
        (modify (fun app => set_heap (heap app ++ [init (View_Kind v) feeder app]) app) ;;;
         err <~ refresh t ;;
         match err with
         | Some e => UpdateStatus t e true ;;; ret t
         | None => ret t
         end) app
    end.

Definition Navigate (T : Tables) (r : nat) : M unit :=
  match PageNav T !! r with
  | Some kind =>
      (fun app =>
         match tableViews app !! kind with
         | Some _ => Done tt app
         | None =>
             (t <~ NewTableView T kind ;;
              modify (fun app => set_tableViews (<[kind := t]> (tableViews app)) app)) app
         end) ;;;
      (fun app => SwitchPage kind (registered kind app) app)
  | None => ret tt
  end.

(** ** The refresh loop *)

(** The two cases of the [select] in [run]. *)
Inductive selectCase : Type := caseSync | caseDone.

(** [<-ctx.Done()] can proceed once the context is cancelled. *)
Definition ctxDone (ctx : nat) (app : AppView) : bool :=
  default false (ctxs app !! ctx).

(** [<-t.sync] can proceed when a signal waits on the channel. *)
Definition syncReady (t : nat) (app : AppView) : bool :=
  match heap app !! t with
  | Some v => negb (Nat.eqb (sync v) 0)
  | None => false
  end.

(** Go's [select]: it blocks while no case can proceed, takes the only
    case that can, and chooses at random when both can; [pick] is that
    choice. *)
Definition select (pick : selectCase) (ctx t : nat) (app : AppView)
    : option selectCase :=
  match syncReady t app, ctxDone ctx app with
  | true, true => Some pick
  | true, false => Some caseSync
  | false, true => Some caseDone
  | false, false => None
  end.

Inductive control : Type := Continue | Return.

(** The body of [case <-t.sync]. *)
Definition run_sync (t : nat) : M unit :=
  update t (fun v => set_sync (pred (sync v)) v) ;;;
  err <~ refresh t ;;
  match err with
  | Some e => UpdateStatus t e true ;;; ret tt
  | None => ret tt
  end ;;;
  (fun app => SwitchPage (currentPage app) (TableP t) app).

(** One turn of the [for] loop of [run]. *)
Definition run_iter (pick : selectCase) (ctx t : nat) : M control :=
  fun app =>
    match heap app !! t with
    | None => Crash app
    | Some _ =>
        match select pick ctx t app with
        | None => Parked app
        | Some caseSync => (run_sync t ;;; ret Continue) app
        | Some caseDone => Done Return app
        end
    end.

(** [tableView.run], for as many turns as the scheduler gives it: [picks]
    holds the choice of each [select].  When the turns are used up the
    goroutine is still inside the loop, at its [select]. *)
Fixpoint run (picks : list selectCase) (ctx t : nat) : M unit :=
  match picks with
  | [] => fun app => Parked app
  | pick :: picks' =>
      ctl <~ run_iter pick ctx t ;;
      match ctl with
      | Continue => run picks' ctx t
      | Return => ret tt
      end
  end.

(** ** The page-switch goroutine *)

Definition recv_switchPage : M unit :=
  fun app =>
    match switchPage app with
    | Some (S n) => Done tt (set_switchPage (Some n) app)
    | _ => Parked app
    end.

(** [app.cancel()]: the cancel function of the context made in [Init]; nil
    before that. *)
Definition cancel : M unit :=
  fun app =>
    match context app with
    | Some ctx => Done tt (set_ctxs (<[ctx := true]> (ctxs app)) app)
    | None => Crash app
    end.

(** The receiver and the argument of the call
    [app.tableViews[app.currentPage].run(app.context)]. *)
Definition run_call : M (nat * nat) :=
  fun app =>
    match tableViews app !! currentPage app, context app with
    | Some t, Some ctx => Done (t, ctx) app
    | _, _ => Crash app
    end.

(** One turn of the [for] loop of [watch]. *)
Definition watch_iter (picks : list selectCase) : M unit :=
  recv_switchPage ;;;
  cancel ;;;
  tc <~ run_call ;;
  run picks tc.2 tc.1.

(** ** Start-up *)

Definition NewAppView : AppView :=
  {| context := None; ctxs := []; drawQueue := []; tableViews := ∅;
     heap := []; pageRows := ∅; showMenu := false; currentPage := "";
     switchPage := None; lock := false; content := []; focus := NilView;
     currentPrimitive := NilView; draws := 0; sleepers := 0 |}.

(** [context.WithCancel(context.Background())]. *)
Definition WithCancel (app : AppView) : AppView :=
  {| context := Some (length (ctxs app)); ctxs := ctxs app ++ [false];
     drawQueue := drawQueue app; tableViews := tableViews app;
     heap := heap app; pageRows := pageRows app; showMenu := showMenu app;
     currentPage := currentPage app; switchPage := switchPage app;
     lock := lock app; content := content app; focus := focus app;
     currentPrimitive := currentPrimitive app; draws := draws app;
     sleepers := sleepers app |}.

(** [AppView.Init], up to the start of the [watch] goroutine.
    [serverVersion] is the answer of the cluster to [getK8sVersion]; the
    result is the error returned. *)
Definition Init (T : Tables) (serverVersion : string + string)
    : M (option string) :=
  match serverVersion with
  | inl err => ret (Some err)
  | inr _ =>
      modify WithCancel ;;;
      modify (set_switchPage (Some 0)) ;;;
      t <~ NewTableView T RootPage ;;
      modify (set_tableViews {[ RootPage := t ]}) ;;;
      (fun app => SwitchPage RootPage (registered RootPage app) app) ;;;
      ret None
  end.

(** ** Goroutines

    The program runs the [watch] goroutine next to the goroutines that
    call the controller (the input handler, timers).  [System] adds to the
    application state where [watch] stands and the one caller, if any,
    that is parked inside [SwitchPage] on the send, holding the mutex. *)
Inductive watcher : Type :=
| Waiting                      (* at the [select] of [watch] *)
| Running (t ctx : nat)        (* inside [t.run(ctx)] *)
| Dead.                        (* panicked *)

Record System := {
  sys_app : AppView;
  sys_watch : watcher;
  sys_parked : option (string * tview_Primitive)
}.

Inductive event : Type :=
| EvSwitchPage (page : string) (p : tview_Primitive)
| EvLastPage
| EvShowMenu
| EvNavigate (r : nat)
| EvRefresh (t : nat)
| EvSelect (t : nat) (r c : Z)
| EvResume                     (* the parked send goes through *)
| EvWatch                      (* [watch] receives, cancels, calls [run] *)
| EvTurn (pick : selectCase).  (* one turn of the running loop *)

(** How a parked [SwitchPage] goes on once the buffer has room. *)
Definition SwitchPage_resume (page : string) (p : tview_Primitive) : M unit :=
  send_switchPage ;;; Unlock ;;; SwitchPage_show page p.

(** A call by a goroutine other than [watch] that ends in a [SwitchPage].
    A caller that finds the mutex taken waits: the call happens later.  A
    caller parked on the send is remembered with the arguments of its
    [SwitchPage].  Calls through a dangling pointer are not calls of the
    program. *)
Definition call (m : M unit) (args : AppView -> string * tview_Primitive)
    (sys : System) : option System :=
  match m (sys_app sys) with
  | Done _ app' =>
      Some {| sys_app := app'; sys_watch := sys_watch sys; sys_parked := sys_parked sys |}
  | Parked app' =>
      if lock (sys_app sys) then None
      else Some {| sys_app := app'; sys_watch := sys_watch sys;
                   sys_parked := Some (args app') |}
  | Crash _ => None
  end.

(** A call that sends no signal: it happens when it can return. *)
Definition returned (m : M unit) (sys : System) : option System :=
  match m (sys_app sys) with
  | Done _ app' =>
      Some {| sys_app := app'; sys_watch := sys_watch sys; sys_parked := sys_parked sys |}
  | _ => None
  end.

(** A panic in [watch] ends the program. *)
Definition crashed (sys : System) : bool :=
  match sys_watch sys with
  | Dead => true
  | _ => false
  end.

Definition step (T : Tables) (ev : event) (sys : System) : option System :=
  if crashed sys then None else
  match ev with
  | EvSwitchPage page p => call (SwitchPage page p) (fun _ => (page, p)) sys
  | EvLastPage => returned LastPage sys
  | EvShowMenu => returned ShowMenu sys
  | EvNavigate r =>
      call (Navigate T r)
        (fun app => (currentPage app, registered (currentPage app) app)) sys
  | EvRefresh t => returned (Refresh t) sys
  | EvSelect t r c => returned (userSelect t r c) sys
  | EvResume =>
      match sys_parked sys with
      | Some (page, p) =>
          match SwitchPage_resume page p (sys_app sys) with
          | Done _ app' =>
              Some {| sys_app := app'; sys_watch := sys_watch sys; sys_parked := None |}
          | _ => None
          end
      | None => None
      end
  | EvWatch =>
      match sys_watch sys with
      | Waiting =>
          match (recv_switchPage ;;; cancel ;;; run_call) (sys_app sys) with
          | Done tc app' =>
              Some {| sys_app := app'; sys_watch := Running tc.1 tc.2;
                      sys_parked := sys_parked sys |}
          | Parked _ => None
          | Crash app' =>
              Some {| sys_app := app'; sys_watch := Dead; sys_parked := sys_parked sys |}
          end
      | _ => None
      end
  | EvTurn pick =>
      match sys_watch sys with
      | Running t ctx =>
          match run_iter pick ctx t (sys_app sys) with
          | Done Continue app' =>
              Some {| sys_app := app'; sys_watch := Running t ctx;
                      sys_parked := sys_parked sys |}
          | Done Return app' =>
              Some {| sys_app := app'; sys_watch := Waiting; sys_parked := sys_parked sys |}
          | Parked _ => None
          | Crash app' =>
              Some {| sys_app := app'; sys_watch := Dead; sys_parked := sys_parked sys |}
          end
      | _ => None
      end
  end.

Fixpoint exec (T : Tables) (evs : list event) (sys : System) : option System :=
  match evs with
  | [] => Some sys
  | ev :: evs' =>
      match step T ev sys with
      | Some sys' => exec T evs' sys'
      | None => None
      end
  end.

(** The program once [Init] has returned without error and started
    [watch]. *)
Definition boot (T : Tables) (version : string) : option System :=
  match Init T (inr version) NewAppView with
  | Done None app =>
      Some {| sys_app := app; sys_watch := Waiting; sys_parked := None |}
  | _ => None
  end.

Definition reachable (T : Tables) (version : string) (sys : System) : Prop :=
  exists (sys0 : System) (evs : list event),
    boot T version = Some sys0 /\ exec T evs sys0 = Some sys.

(** The refresh loops inside [run]. *)
Definition loops (sys : System) : nat :=
  match sys_watch sys with
  | Running _ _ => 1
  | _ => 0
  end.

(** The loops that are watching: inside [run] with a context that is not
    cancelled. *)
Definition watching (sys : System) : nat :=
  match sys_watch sys with
  | Running _ ctx => if ctxDone ctx (sys_app sys) then 0 else 1
  | _ => 0
  end.

(** ** A small cluster to run the program on *)

Definition kindOf (k : string) : ResourceKind := {| Kind := k; Title := k |}.

Definition feed (rows : list (list string)) : DataSource :=
  {| script := []; Header := ["NAME"]; Data := rows |}.

Definition demo : Tables :=
  {| ViewMap :=
       {[ RootPage := {| View_Kind := kindOf RootPage; Feeder := Some (feed [["pods"]; ["deployments"]]) |};
          "pods" := {| View_Kind := kindOf "pods"; Feeder := Some (feed [["web-0"]; ["web-1"]]) |};
          "deployments" := {| View_Kind := kindOf "deployments"; Feeder := Some (feed [["web"]]) |} ]};
     PageNav := {[ 1 := "pods"; 2 := "deployments"; 0 := RootPage ]} |}.

(** * Definitions the properties are stated with *)

(** ** Frames *)

(** [keeps R m]: whatever the outcome of [m], the state it ends in is
    related by [R] to the state it started in. *)
Definition keeps {A : Type} (R : AppView -> AppView -> Prop) (m : M A) : Prop :=
  forall app, R app (final (m app)).

(** The cursor memory and the identity and cursor of every view on the
    heap are unchanged. *)
Record cursors (app app' : AppView) : Prop := {
  cursors_pageRows : pageRows app' = pageRows app;
  cursors_heap : forall t v, heap app !! t = Some v ->
    exists v', heap app' !! t = Some v'
      /\ selection v' = selection v /\ resourceKind v' = resourceKind v
}.

(** The contexts are unchanged as well. *)
Record frame (app app' : AppView) : Prop := {
  frame_context : context app' = context app;
  frame_ctxs : ctxs app' = ctxs app;
  frame_cursors : cursors app app'
}.

(** The application holds the same context, no context was made, and a
    cancelled context stays cancelled. *)
Record ctx_mono (app app' : AppView) : Prop := {
  mono_context : context app' = context app;
  mono_length : length (ctxs app') = length (ctxs app);
  mono_done : forall ctx, ctxDone ctx app = true -> ctxDone ctx app' = true
}.

Definition notSelect (ev : event) : bool :=
  match ev with
  | EvSelect _ _ _ => false
  | _ => true
  end.

(** ** Runs on the small cluster *)

(** The program started on the cluster [T], after the events [evs]. *)
Definition afterOn (T : Tables) (evs : list event) : option System :=
  match boot T "v1.14.1" with
  | Some sys0 => exec T evs sys0
  | None => None
  end.

(** The application state a run ends in. *)
Definition stateOn (T : Tables) (evs : list event) : AppView :=
  match afterOn T evs with
  | Some sys => sys_app sys
  | None => NewAppView
  end.

Definition after : list event -> option System := afterOn demo.

Definition state : list event -> AppView := stateOn demo.

(** [watch] serves the signal sent by [Init], and the loop it starts for
    the root page returns. *)
Definition settle : list event := [EvWatch; EvTurn caseDone].

(** From the root page to "pods", then to "deployments", [watch] serving
    each switch before the next. *)
Definition walk : list event :=
  settle ++ [EvNavigate 1] ++ settle ++ [EvNavigate 2] ++ settle.

(** The same, and then back to the root page through the footer. *)
Definition tour : list event := walk ++ [EvNavigate 0] ++ settle.

Definition pointer (o : option System) : option string :=
  match o with
  | Some sys => Some (currentPage (sys_app sys))
  | None => None
  end.

Definition shown (o : option System) : option string :=
  match o with
  | Some sys =>
      match frontPage (sys_app sys) with
      | Some np => Some np.1
      | None => None
      end
  | None => None
  end.

Definition history (o : option System) : list string :=
  match o with
  | Some sys => map PageName (drawQueue (sys_app sys))
  | None => []
  end.

(** A detail view shown under a name that has no table view. *)
Definition detail : tview_Primitive := TextViewP "pod" "web-0".

Definition detailed : AppView :=
  state (settle ++ [EvSwitchPage "pod/web-0" detail]).

Definition track (page : string) (p : tview_Primitive) : PageTrack :=
  {| PageName := page; Primitive := p |}.

(** On "pods", a second [SwitchPage] to "pods". *)
Definition twice : list event :=
  settle ++ [EvNavigate 1] ++ settle ++ [EvSwitchPage "pods" (TableP 1)].

(** The page [ShowMenu] builds over the current view. *)
Definition menuOverlay (app : AppView) : tview_Primitive :=
  PagesP [("menu", registered (currentPage app) app);
          ("menu-decor", center MenuP 60 15)].

Definition pos (r c : Z) : position := {| row := r; column := c |}.

(** A selection change that is not on a view of page [k]; every other
    event passes. *)
Definition elsewhere (k : string) (app : AppView) (ev : event) : bool :=
  match ev with
  | EvSelect t _ _ =>
      match heap app !! t with
      | Some v => bool_decide (Kind (resourceKind v) ≠ k)
      | None => true
      end
  | _ => true
  end.

(** A run all of whose events pass [ok] in the state they happen in. *)
Fixpoint execWhile (T : Tables) (ok : AppView -> event -> bool)
    (evs : list event) (sys : System) : option System :=
  match evs with
  | [] => Some sys
  | ev :: evs' =>
      if ok (sys_app sys) ev
      then match step T ev sys with
           | Some sys' => execWhile T ok evs' sys'
           | None => None
           end
      else None
  end.

(** Page [k] remembers [p], and its view [t] shows it. *)
Record remembered (k : string) (t : nat) (p : position) (app : AppView) : Prop := {
  rem_pageRows : pageRows app !! k = Some p;
  rem_view : exists v, heap app !! t = Some v
                       /\ selection v = p /\ Kind (resourceKind v) = k
}.

(** On "pods", the cursor moves to row 3, column 0; then away to
    "deployments", where the cursor moves too, and back to "pods". *)
Definition onPods : list event :=
  settle ++ [EvNavigate 1] ++ settle.

Definition awayAndBack : list event :=
  [EvNavigate 2] ++ settle ++ [EvSelect 2 1 0; EvNavigate 1] ++ settle.

(** The view of "pods" before the cursor moves. *)
Definition podsView : tableView :=
  default (init (kindOf "pods") (feed []) NewAppView) (heap (state onPods) !! 1).

(** The system a run on [demo] ends in. *)
Definition system (evs : list event) : System :=
  default {| sys_app := NewAppView; sys_watch := Dead; sys_parked := None |}
    (after evs).

(** On "deployments", [watch] has just started the loop of the page. *)
Definition started : list event :=
  settle ++ [EvNavigate 1] ++ settle ++ [EvNavigate 2; EvWatch].

(** The program at rest in a given application state. *)
Definition atRest (app : AppView) : System :=
  {| sys_app := app; sys_watch := Waiting; sys_parked := None |}.

(** The data source after a fetch that failed: the answer is used up, the
    table it holds is the old one. *)
Definition failed (ds : DataSource) : DataSource :=
  {| script := tl (script ds); Header := Header ds; Data := Data ds |}.

(** The page [UpdateStatus] puts up. *)
Definition statusPage (status : string) (isError : bool) (app : AppView)
    : tview_Primitive :=
  PagesP ((match tableViews app !! currentPage app with
           | Some _ => [("status", currentPrimitive app)]
           | None => []
           end) ++ [("dialog", center (TextViewP (if isError then "Error" else "Progress") status) 100 5)]).

(** A cluster whose "pods" feed answers once and then fails. *)
Definition flaky : Tables :=
  {| ViewMap :=
       <[ "pods" :=
            {| View_Kind := kindOf "pods";
               Feeder := Some {| script := [inr (["NAME"], [["web-0"]]);
                                            inl "connection refused"];
                                 Header := []; Data := [] |} |} ]> (ViewMap demo);
     PageNav := PageNav demo |}.

(** On "pods" with its loop started and one refresh signal waiting. *)
Definition flakyState : AppView :=
  stateOn flaky (settle ++ [EvNavigate 1; EvWatch; EvRefresh 1]).

Definition flakyView : tableView :=
  default (init (kindOf "pods") (feed []) NewAppView) (heap flakyState !! 1).

(** The signals waiting on the sync channel of view [t]. *)
Definition waiting (t : nat) (app : AppView) : nat :=
  match heap app !! t with
  | Some v => sync v
  | None => 0
  end.

(** The next answer of the backend is not an error. *)
Definition answers (s : list (string + (list string * list (list string)))) : bool :=
  match s with
  | inl _ :: _ => false
  | _ => true
  end.

(** The program has one context, the one made in [Init], and a loop that
    is running was given that context, cancelled. *)
Record one_context (sys : System) : Prop := {
  oc_context : context (sys_app sys) = Some 0;
  oc_ctxs : length (ctxs (sys_app sys)) = 1;
  oc_running : forall t ctx, sys_watch sys = Running t ctx ->
    ctx = 0 /\ ctxDone 0 (sys_app sys) = true
}.

(** * More of the code

    The table-view methods and the resource actions that call the
    controller, and what the further properties are stated with. *)

(** ** Table-view methods *)

(** [tableView.UpdateWithSearch]. *)
Definition UpdateWithSearch (t : nat) (srch : string) : M unit :=
  update t (set_search srch).

(** [tableView.InsertDialog]. *)
Definition InsertDialog (name : string) (page dialog : tview_Primitive) : M unit :=
  pages <~ AddPage name page [] ;;
  pages <~ AddPage "dialog" (center dialog 40 15) pages ;;
  (fun app => SwitchPage (currentPage app) (PagesP pages) app) ;;;
  modify (SetFocus dialog).

(** [tableView.BackPage]. *)
Definition BackPage : M unit := LastPage.

(** [NewTableViewWithArgs]: as [NewTableView], the kind and the feeder
    given by the caller; a nil feeder panics in [refresh]. *)
Definition NewTableViewWithArgs (kind : ResourceKind)
    (feeder : option DataSource) : M nat :=
  fun app =>
    match feeder with
    | None => Crash app
    | Some feeder =>
        let t := length (heap app) in
        (modify (fun app => set_heap (heap app ++ [init kind feeder app]) app) ;;;
         err <~ refresh t ;;
         match err with
         | Some e => UpdateStatus t e true ;;; ret t
         | None => ret t
         end) app
    end.

(** [Table.GetCell(row, column).Text] of the toolkit: a position beyond
    the table gives an empty cell; a negative index that gets as far as
    the slice panics ([None]). *)
Definition GetCell (cs : list (list string)) (r c : Z) : option string :=
  if decide (Z.of_nat (length cs) <= r)%Z then Some ""
  else if decide (r < 0)%Z then None
  else
    let line := default [] (cs !! Z.to_nat r) in
    if decide (Z.of_nat (length line) <= c)%Z then Some ""
    else if decide (c < 0)%Z then None
    else Some (default "" (line !! Z.to_nat c)).

(** A read of the table of view [t] that panics where [GetCell] does. *)
Definition cellText (t : nat) (r c : Z) : M string :=
  v <~ deref t ;;
  fun app =>
    match GetCell (cells v) r c with
    | Some text => Done text app
    | None => Crash app
    end.

(** [strings.SplitN(s, " ", 2)[0]]: [s] up to its first space. *)
Fixpoint firstField (s : string) : string :=
  match s with
  | EmptyString => EmptyString
  | String c s' =>
      if Ascii.eqb c Ascii.Space then EmptyString else String c (firstField s')
  end.

(** [tableView.GetSelectionName]. *)
Definition GetSelectionName (t : nat) : M string :=
  v <~ deref t ;;
  text <~ cellText t (row (selection v)) 0 ;;
  ret (firstField text).

(** ** Resource actions

    The actions of [k8s/utils.go] read the table of the view they are
    given: its cells and the row of its cursor. *)

(** [getNamespaceAndName] on a table with the cells [cs] and the cursor
    in row [r]; [None] where a [GetCell] panics. *)
Definition getNamespaceAndName (cs : list (list string)) (r : Z)
    : option (string * string) :=
  match GetCell cs 0 0 with
  | None => None
  | Some corner =>
      if Contains corner "NAMESPACE"
      then match GetCell cs r 0, GetCell cs r 1 with
           | Some namespace, Some name => Some (namespace, name)
           | _, _ => None
           end
      else match GetCell cs r 0 with
           | Some name => Some ("", name)
           | None => None
           end
  end.

(** The arguments [get] gives to [kubectl]. *)
Definition get_args (kind namespace name : string) : list string :=
  if decide (namespace ≠ "")
  then ["get"; kind; "-n"; namespace; name; "-o"; "yaml"]
  else ["get"; kind; name; "-o"; "yaml"].

(** The arguments [logs] gives to [kubectl]. *)
Definition logs_args (namespace name : string) : list string :=
  ["logs"; "-f"; "-n"; namespace; name; "--all-containers"].

(** The command line of [get] for a view of [kind]. *)
Definition get_command (kind : string) (cs : list (list string)) (r : Z)
    : option (list string) :=
  match getNamespaceAndName cs r with
  | Some (namespace, name) => Some (get_args kind namespace name)
  | None => None
  end.

(** The command line of [logs]; the action is for "pods" only. *)
Definition logs_command (kind : string) (cs : list (list string)) (r : Z)
    : option (option (list string)) :=
  if decide (kind ≠ "pods") then Some None
  else match getNamespaceAndName cs r with
       | Some (namespace, name) => Some (Some (logs_args namespace name))
       | None => None
       end.

(** ** What the further properties are stated with *)

(** What [draw] puts in the table of a view. *)
Definition drawn (v : tableView) : list (list string) :=
  map (fun name => "[white]" ++ name) (Header (dataSource v))
  :: List.filter (fun r => negb (skipped (search v) r)) (Data (dataSource v)).

(** The registry and the current page pointer are as before, and no
    view was allocated. *)
Record settled (app app' : AppView) : Prop := {
  se_tableViews : tableViews app' = tableViews app;
  se_currentPage : currentPage app' = currentPage app;
  se_heap : length (heap app') = length (heap app)
}.

(** And no signal was sent to or taken from the sync channel of a view. *)
Record steady (app app' : AppView) : Prop := {
  st_settled : settled app app';
  st_waiting : forall t, waiting t app' = waiting t app
}.

(** As [steady], but the pointer may have moved to [page]. *)
Record moved (page : string) (app app' : AppView) : Prop := {
  mv_tableViews : tableViews app' = tableViews app;
  mv_currentPage : currentPage app' = currentPage app \/ currentPage app' = page;
  mv_heap : length (heap app') = length (heap app);
  mv_waiting : forall t, waiting t app' = waiting t app
}.

(** As [steady], but one view was allocated. *)
Record grown (app app' : AppView) : Prop := {
  gr_tableViews : tableViews app' = tableViews app;
  gr_currentPage : currentPage app' = currentPage app;
  gr_heap : length (heap app') = S (length (heap app));
  gr_waiting : forall t, waiting t app' = waiting t app
}.

(** No signal was sent to or taken from the sync channel of a view. *)
Definition quiet (app app' : AppView) : Prop :=
  forall t, waiting t app' = waiting t app.

(** The mutex, the switch channel, the pointer, the registry and what is
    on the screen are as before. *)
Record untouched (app app' : AppView) : Prop := {
  un_lock : lock app' = lock app;
  un_switchPage : switchPage app' = switchPage app;
  un_currentPage : currentPage app' = currentPage app;
  un_tableViews : tableViews app' = tableViews app;
  un_content : content app' = content app;
  un_drawQueue : drawQueue app' = drawQueue app;
  un_focus : focus app' = focus app
}.

(** Two [Refresh] calls for the view of "pods" while its loop runs, one
    turn that takes a signal, and a [Refresh] for the root view. *)
Definition burst : list event :=
  [EvRefresh 1; EvRefresh 1; EvTurn caseSync; EvRefresh 0].

(** The root loop runs with a signal waiting and a switch signal
    buffered; the switch to "deployments" then parks. *)
Definition jam : list event :=
  [EvWatch; EvRefresh 0; EvNavigate 1; EvNavigate 2].

(** The header row as [draw] writes it. *)
Definition headerRow (ds : DataSource) : list string :=
  map (fun name => "[white]" ++ name) (Header ds).

(** A row that [draw] shows under the search [srch]: its first value is
    not empty and, if there is a search, the row contains it. *)
Definition visible (srch : string) (r : list string) : Prop :=
  head r <> Some ""
  /\ (srch <> "" -> Contains (String.concat "" r) srch = true).

#[global] Instance visible_dec (srch : string) (r : list string)
    : Decision (visible srch r) :=
  ltac:(unfold visible; exact _).


(** A backend none of whose future answers is an error. *)
Definition reliable (s : list (string + (list string * list (list string))))
    : bool :=
  forallb (fun a => match a with inl _ => false | inr _ => true end) s.

(** Every feeder of [ViewMap] is of that kind. *)
Definition dependable (T : Tables) : bool :=
  forallb (fun kv => match Feeder kv.2 with
                     | Some ds => reliable (script ds)
                     | None => true
                     end)
    (map_to_list (ViewMap T)).

(** So is the data source of every view there is. *)
Definition healthy (app : AppView) : Prop :=
  forall t v, heap app !! t = Some v -> reliable (script (dataSource v)) = true.

Definition hale (app app' : AppView) : Prop := healthy app -> healthy app'.

(** The views are as before. *)
Definition inert (app app' : AppView) : Prop := heap app' = heap app.

(** Every registered view is allocated, and the current page is
    registered. *)
Record registry_ok (app : AppView) : Prop := {
  reg_live : forall k t, tableViews app !! k = Some t -> t < length (heap app);
  reg_current : is_Some (tableViews app !! currentPage app)
}.

(** [SwitchPage] called with a page name of the caller's choice; every
    other event switches through [Navigate] or stays on the page. *)
Definition rawSwitch (ev : event) : bool :=
  match ev with
  | EvSwitchPage _ _ => true
  | _ => false
  end.

(** The program runs, pages are switched through [Navigate] only, and what
    [watch] may dereference is there. *)
Record navigable (sys : System) : Prop := {
  nav_registry : registry_ok (sys_app sys);
  nav_healthy : healthy (sys_app sys);
  nav_context : is_Some (context (sys_app sys));
  nav_alive : crashed sys = false;
  nav_running : forall t ctx, sys_watch sys = Running t ctx ->
    t < length (heap (sys_app sys))
}.

(** A [Refresh] of view [t]. *)
Definition arrived (t : nat) (ev : event) : nat :=
  match ev with
  | EvRefresh t' => if decide (t' = t) then 1 else 0
  | _ => 0
  end.

(** A turn of the loop of view [t] that takes a signal. *)
Definition served (t : nat) (ev : event) (sys : System) : nat :=
  match ev, sys_watch sys with
  | EvTurn pick, Running t' ctx =>
      if decide (t' = t)
      then match select pick ctx t' (sys_app sys) with
           | Some caseSync => 1
           | _ => 0
           end
      else 0
  | _, _ => 0
  end.

Fixpoint arrivals (t : nat) (evs : list event) : nat :=
  match evs with
  | [] => 0
  | ev :: evs' => arrived t ev + arrivals t evs'
  end.

Fixpoint services (T : Tables) (t : nat) (evs : list event) (sys : System) : nat :=
  match evs with
  | [] => 0
  | ev :: evs' =>
      served t ev sys
      + match step T ev sys with
        | Some sys' => services T t evs' sys'
        | None => 0
        end
  end.

(** * Properties *)

(** ** What a call leaves alone *)

Lemma cursors_refl app : cursors app app.
Proof. split; eauto. Qed.

Lemma cursors_trans a b c : cursors a b -> cursors b c -> cursors a c.
Proof.
  intros [H3 H4] [K3 K4]. split; try congruence.
  intros t v Hv. destruct (H4 t v Hv) as (v' & Hv' & Hs & Hk).
  destruct (K4 t v' Hv') as (v'' & Hv'' & Hs' & Hk').
  exists v''. repeat split; congruence.
Qed.

Lemma frame_refl app : frame app app.
Proof. split; auto using cursors_refl. Qed.

Lemma frame_trans a b c : frame a b -> frame b c -> frame a c.
Proof.
  intros [H1 H2 H3] [K1 K2 K3]. split; try congruence.
  eapply cursors_trans; eauto.
Qed.

Lemma ctx_mono_refl app : ctx_mono app app.
Proof. split; auto. Qed.

Lemma ctx_mono_trans a b c : ctx_mono a b -> ctx_mono b c -> ctx_mono a c.
Proof. intros [H1 H2 H3] [K1 K2 K3]. split; try congruence; auto. Qed.

Lemma frame_ctx_mono a b : frame a b -> ctx_mono a b.
Proof.
  intros [H1 H2 _]. split; try congruence.
  unfold ctxDone. rewrite H2. auto.
Qed.

Section Keeps.
Context (R : AppView -> AppView -> Prop).
Hypothesis R_refl : forall app, R app app.
Hypothesis R_trans : forall a b c, R a b -> R b c -> R a c.

Lemma keeps_ret {A : Type} (a : A) : keeps R (ret a).
Proof. intros app. apply R_refl. Qed.

Lemma keeps_bind {A B : Type} (m : M A) (k : A -> M B) :
  keeps R m -> (forall a, keeps R (k a)) -> keeps R (bind m k).
Proof.
  intros Hm Hk app. unfold bind. specialize (Hm app).
  destruct (m app) as [a app'|app'|app']; simpl in *; auto.
  eapply R_trans; [exact Hm | apply Hk].
Qed.

Lemma keeps_modify (f : AppView -> AppView) :
  (forall app, R app (f app)) -> keeps R (modify f).
Proof. intros Hf app. apply Hf. Qed.

End Keeps.

Lemma final_bind_eq {A B : Type} (m : M A) (k : A -> M B) app :
  final (bind m k app)
  = match m app with
    | Done a app' => final (k a app')
    | Parked app' => app'
    | Crash app' => app'
    end.
Proof. unfold bind. destruct (m app); reflexivity. Qed.

(** [bind] from one state: what holds of [m] there, and of [k] always. *)
Lemma final_bind (R : AppView -> AppView -> Prop) {A B : Type}
    (m : M A) (k : A -> M B) app :
  (forall a b c, R a b -> R b c -> R a c) ->
  R app (final (m app)) -> (forall a, keeps R (k a)) ->
  R app (final (bind m k app)).
Proof.
  intros Htrans Hm Hk. unfold bind.
  destruct (m app) as [a app'|app'|app']; simpl in *; auto.
  eapply Htrans; [exact Hm|apply Hk].
Qed.

(** Adding a page to a [Pages] under construction leaves the state. *)
Lemma keeps_AddPage (R : AppView -> AppView -> Prop) name item pages :
  (forall app, R app app) -> keeps R (AddPage name item pages).
Proof.
  intros Hr app. unfold AddPage. destruct (HasFocus _ _); simpl; apply Hr.
Qed.

Lemma keeps_frame_bind {A B : Type} (m : M A) (k : A -> M B) :
  keeps frame m -> (forall a, keeps frame (k a)) -> keeps frame (bind m k).
Proof. apply keeps_bind. apply frame_trans. Qed.

Ltac frame_fields := intros; repeat split; simpl; eauto.

Lemma keeps_Lock : keeps frame Lock.
Proof. intros app. unfold Lock. destruct (lock app); simpl; frame_fields. Qed.

Lemma keeps_Unlock : keeps frame Unlock.
Proof. apply keeps_modify. frame_fields. Qed.

Lemma keeps_send_switchPage : keeps frame send_switchPage.
Proof.
  intros app. unfold send_switchPage.
  destruct (switchPage app) as [n|]; simpl; [|frame_fields].
  destruct (decide (n < switchPage_cap)); simpl; frame_fields.
Qed.

Lemma keeps_SwitchPage_show page p : keeps frame (SwitchPage_show page p).
Proof.
  unfold SwitchPage_show.
  repeat (apply keeps_frame_bind; [|intros ?]);
    apply keeps_modify; frame_fields.
Qed.

Lemma keeps_SwitchPage page p : keeps frame (SwitchPage page p).
Proof.
  unfold SwitchPage.
  apply keeps_frame_bind; [apply keeps_Lock|intros _].
  apply keeps_frame_bind; [|intros _].
  - intros app. destruct (decide (currentPage app ≠ page)); simpl; [|frame_fields].
    apply (keeps_frame_bind (modify (set_currentPage page)) (fun _ => send_switchPage)).
    + apply keeps_modify. frame_fields.
    + intros _. apply keeps_send_switchPage.
  - apply keeps_frame_bind; [apply keeps_Unlock|intros _].
    apply keeps_SwitchPage_show.
Qed.

Lemma keeps_SwitchPage_resume page p : keeps frame (SwitchPage_resume page p).
Proof.
  unfold SwitchPage_resume.
  apply keeps_frame_bind; [apply keeps_send_switchPage|intros _].
  apply keeps_frame_bind; [apply keeps_Unlock|intros _].
  apply keeps_SwitchPage_show.
Qed.

Lemma keeps_LastPage : keeps frame LastPage.
Proof.
  unfold LastPage.
  apply keeps_frame_bind; [apply keeps_modify; frame_fields|intros _].
  apply keeps_frame_bind; [intros app; apply frame_refl|intros page].
  apply keeps_frame_bind; [|intros _]; apply keeps_modify; frame_fields.
Qed.

Lemma keeps_deref t : keeps frame (deref t).
Proof. intros app. unfold deref. destruct (heap app !! t); apply frame_refl. Qed.

Lemma keeps_update t f :
  (forall v, selection (f v) = selection v /\ resourceKind (f v) = resourceKind v) ->
  keeps frame (update t f).
Proof.
  intros Hf app. unfold update, bind, deref.
  destruct (heap app !! t) as [v|] eqn:Hv; simpl; [|apply frame_refl].
  repeat split; simpl; auto.
  intros t' v' Hv'. destruct (decide (t = t')) as [->|Hne].
  - assert (v' = v) by congruence. subst v'.
    exists (f v). split; [|apply Hf].
    apply list_lookup_insert_eq. eapply lookup_lt_Some; eauto.
  - exists v'. rewrite list_lookup_insert_ne; auto.
Qed.

Lemma keeps_draw t : keeps frame (draw t).
Proof.
  unfold draw.
  apply keeps_frame_bind; [apply keeps_deref|intros v].
  apply keeps_frame_bind; [|intros _].
  - apply keeps_update. intros v0. auto.
  - apply keeps_modify. frame_fields.
Qed.

Lemma keeps_refresh t : keeps frame (refresh t).
Proof.
  unfold refresh.
  apply keeps_frame_bind; [apply keeps_deref|intros v].
  destruct (DataSource_Refresh (dataSource v)) as [err ds].
  apply keeps_frame_bind; [apply keeps_update; intros v0; auto|intros _].
  destruct err.
  - apply keeps_ret. apply frame_refl.
  - apply keeps_frame_bind; [apply keeps_draw|intros _].
    apply keeps_ret. apply frame_refl.
Qed.

Lemma keeps_UpdateStatus t status isError :
  keeps frame (UpdateStatus t status isError).
Proof.
  intros app. unfold UpdateStatus.
  apply (final_bind frame); [apply frame_trans| |intros pages].
  { destruct (tableViews app !! currentPage app);
      [apply keeps_AddPage|apply keeps_ret]; apply frame_refl. }
  apply keeps_frame_bind; [apply keeps_AddPage, frame_refl|intros pages'].
  apply keeps_frame_bind; [intros app0; apply keeps_SwitchPage|intros _].
  apply keeps_frame_bind; [apply keeps_modify; frame_fields|intros _].
  apply keeps_ret. apply frame_refl.
Qed.

Lemma keeps_Refresh t : keeps frame (Refresh t).
Proof. apply keeps_update. intros v. auto. Qed.

Lemma keeps_ShowMenu : keeps frame ShowMenu.
Proof.
  intros app. unfold ShowMenu. destruct (showMenu app); simpl; [apply frame_refl|].
  apply (keeps_frame_bind CurrentPage); [intros app0; apply frame_refl|intros cur].
  apply keeps_frame_bind; [apply keeps_AddPage, frame_refl|intros pages].
  apply keeps_frame_bind; [apply keeps_AddPage, frame_refl|intros pages'].
  apply keeps_frame_bind; [intros app0; apply keeps_SwitchPage|intros _].
  apply keeps_frame_bind; [|intros _]; apply keeps_modify; frame_fields.
Qed.

Lemma keeps_NewTableView T kind : keeps frame (NewTableView T kind).
Proof.
  intros app. unfold NewTableView.
  destruct (Feeder _) as [feeder|]; [|apply frame_refl].
  apply (keeps_frame_bind (modify _)); [|intros _].
  - apply keeps_modify. intros app0. repeat split; simpl; auto.
    intros t v Hv. exists v. split; auto.
    rewrite lookup_app_l; auto. eapply lookup_lt_Some; eauto.
  - apply keeps_frame_bind; [apply keeps_refresh|intros err].
    destruct err.
    + apply keeps_frame_bind; [apply keeps_UpdateStatus|intros _].
      apply keeps_ret. apply frame_refl.
    + apply keeps_ret. apply frame_refl.
Qed.

Lemma keeps_Navigate T r : keeps frame (Navigate T r).
Proof.
  unfold Navigate. destruct (PageNav T !! r) as [kind|].
  - apply keeps_frame_bind; [|intros _].
    + intros app. destruct (tableViews app !! kind); simpl; [apply frame_refl|].
      apply (keeps_frame_bind (NewTableView T kind)); [apply keeps_NewTableView|intros t].
      apply keeps_modify. frame_fields.
    + intros app. apply keeps_SwitchPage.
  - apply keeps_ret. apply frame_refl.
Qed.

Lemma keeps_run_sync t : keeps frame (run_sync t).
Proof.
  unfold run_sync.
  apply keeps_frame_bind; [apply keeps_update; intros v; auto|intros _].
  apply keeps_frame_bind; [apply keeps_refresh|intros err].
  apply keeps_frame_bind; [|intros _].
  - destruct err.
    + apply keeps_frame_bind; [apply keeps_UpdateStatus|intros _].
      apply keeps_ret. apply frame_refl.
    + apply keeps_ret. apply frame_refl.
  - intros app. apply keeps_SwitchPage.
Qed.

Lemma keeps_run_iter pick ctx t : keeps frame (run_iter pick ctx t).
Proof.
  intros app. unfold run_iter.
  destruct (heap app !! t); [|apply frame_refl].
  destruct (select pick ctx t app) as [[|]|]; try apply frame_refl.
  apply (keeps_frame_bind (run_sync t)); [apply keeps_run_sync|intros _].
  apply keeps_ret. apply frame_refl.
Qed.

Lemma keeps_run picks ctx t : keeps frame (run picks ctx t).
Proof.
  induction picks as [|pick picks IH]; simpl.
  - intros app. apply frame_refl.
  - apply keeps_frame_bind; [apply keeps_run_iter|intros ctl].
    destruct ctl; [exact IH|]. apply keeps_ret. apply frame_refl.
Qed.

(** A call that returns ends in the state [final] reads off. *)
Lemma keeps_Done {A : Type} (R : AppView -> AppView -> Prop) (m : M A) app a app' :
  keeps R m -> m app = Done a app' -> R app app'.
Proof. intros H E. specialize (H app). rewrite E in H. exact H. Qed.

(** ** The effect of [SwitchPage] and [LastPage] *)

Lemma frontPage_AddAndSwitchToPage name item app :
  frontPage (AddAndSwitchToPage name item app) = Some (name, item).
Proof. unfold frontPage, AddAndSwitchToPage. simpl. apply last_snoc. Qed.

(** A call of [SwitchPage] that returns has made [page] current, shown
    [p], given it the focus and appended one entry to the draw queue; it
    has sent a signal exactly when the page name differed. *)
Lemma SwitchPage_Done page p app app' :
  SwitchPage page p app = Done tt app' ->
  currentPage app' = page
  /\ drawQueue app' = (drawQueue app ++ [{| PageName := page; Primitive := p |}])%list
  /\ frontPage app' = Some (page, p)
  /\ focus app' = focusTarget p
  /\ lock app = false /\ lock app' = false
  /\ tableViews app' = tableViews app
  /\ showMenu app' = showMenu app
  /\ draws app' = draws app /\ sleepers app' = sleepers app
  /\ heap app' = heap app
  /\ if decide (currentPage app ≠ page)
     then switchPage app = Some 0 /\ switchPage app' = Some 1
     else switchPage app' = switchPage app.
Proof.
  unfold SwitchPage, SwitchPage_show, Lock, Unlock, modify, bind, send_switchPage.
  destruct (lock app) eqn:Hl; [discriminate|]. simpl.
  destruct (decide (currentPage app ≠ page)) as [Hne|Heq]; simpl.
  - destruct (switchPage app) as [n|] eqn:Hs; [|discriminate].
    destruct (decide (n < switchPage_cap)) as [Hlt|]; [|discriminate].
    simpl. intros [= <-]. simpl.
    assert (n = 0) by (unfold switchPage_cap in Hlt; lia). subst n.
    unfold frontPage. simpl. rewrite last_snoc. repeat split; auto.
  - intros [= <-]. unfold frontPage. simpl. rewrite last_snoc.
    apply dec_stable in Heq. repeat split; auto.
Qed.

(** [SwitchPage] returns when the mutex is free and, if the name differs,
    the signal buffer has room. *)
Lemma SwitchPage_returns page p app :
  lock app = false ->
  (currentPage app = page \/ switchPage app = Some 0) ->
  exists app', SwitchPage page p app = Done tt app'.
Proof.
  intros Hl Hc.
  unfold SwitchPage, SwitchPage_show, Lock, Unlock, modify, bind, send_switchPage.
  rewrite Hl. simpl.
  destruct (decide (currentPage app ≠ page)) as [Hne|Heq]; simpl; [|eauto].
  destruct Hc as [Hc|Hc]; [contradiction|]. rewrite Hc. simpl. eauto.
Qed.

(** [LastPage] always returns: it drops the top of the queue and shows the
    entry below, or the root page when nothing is left.  The current page
    pointer, the registry and the signal channel are as before. *)
Lemma LastPage_Done app :
  exists app',
    LastPage app = Done tt app'
    /\ drawQueue app' = removelast (drawQueue app)
    /\ frontPage app' = Some (PageName (PrimitiveQueue.Last app'),
                             Primitive (PrimitiveQueue.Last app'))
    /\ focus app' = focusTarget (Primitive (PrimitiveQueue.Last app'))
    /\ currentPage app' = currentPage app
    /\ tableViews app' = tableViews app
    /\ switchPage app' = switchPage app
    /\ ctxs app' = ctxs app.
Proof.
  eexists. split; [reflexivity|]. unfold frontPage. simpl.
  rewrite last_snoc. repeat split; reflexivity.
Qed.

(** ** Building a [Pages] *)

Lemma AddPage_first name item app :
  AddPage name item [] app = Done [(name, item)] app.
Proof. reflexivity. Qed.

(** The second page goes in when the first can be asked for the focus. *)
Lemma AddPage_second name item n0 p0 app b :
  HasFocus (focus app) p0 = Some b ->
  AddPage name item [(n0, p0)] app
  = Done (filter (fun np => np.1 ≠ name) [(n0, p0)] ++ [(name, item)])%list app.
Proof.
  intros Hb. unfold AddPage. simpl. rewrite Hb. destruct b; reflexivity.
Qed.

(** And it panics when the first is nil. *)
Lemma AddPage_nil name item n0 app :
  AddPage name item [(n0, NilView)] app = Crash app.
Proof. reflexivity. Qed.

Lemma HasFocus_TableP f t : HasFocus f (TableP t) = Some (focusOn f (TableP t)).
Proof. reflexivity. Qed.

(** ** The effect of calls on a table view *)

Lemma update_Done (app : AppView) (t : nat) (v : tableView) f :
  heap app !! t = Some v ->
  update t f app = Done tt (set_heap (<[t := f v]> (heap app)) app).
Proof. intros Hv. unfold update, bind, deref, modify. rewrite Hv. reflexivity. Qed.

(** A selection change on a live view records the position under the
    view's resource kind, overwriting what was there, and is what the
    table itself now shows. *)
Lemma userSelect_Done (app : AppView) (t : nat) (v : tableView) (r c : Z) :
  heap app !! t = Some v ->
  userSelect t r c app
  = Done tt (set_pageRows (<[Kind (resourceKind v) := pos r c]> (pageRows app))
               (set_heap (<[t := set_selection (pos r c) v]> (heap app)) app)).
Proof.
  intros Hv. unfold userSelect, selectionChanged, update, bind, deref, modify.
  rewrite Hv. simpl.
  rewrite list_lookup_insert_eq by (eapply lookup_lt_Some; eauto).
  reflexivity.
Qed.

(** [UpdateStatus] while the current page is not registered: the status
    page holds the dialog only. *)
Lemma UpdateStatus_Done (app : AppView) (t : nat) (status : string) (isError : bool) :
  lock app = false ->
  tableViews app !! currentPage app = None ->
  exists app',
    UpdateStatus t status isError app = Done (TableP t) app'
    /\ drawQueue app'
       = (drawQueue app ++ [track (currentPage app) (statusPage status isError app)])%list
    /\ frontPage app' = Some (currentPage app, statusPage status isError app)
    /\ sleepers app' = S (sleepers app)
    /\ currentPage app' = currentPage app
    /\ lock app' = false
    /\ heap app' = heap app
    /\ draws app' = draws app
    /\ switchPage app' = switchPage app.
Proof.
  intros Hl Hu.
  assert (Hp : statusPage status isError app
               = PagesP [("dialog",
                          center (TextViewP (if isError then "Error" else "Progress")
                                    status) 100 5)]).
  { unfold statusPage. rewrite Hu. reflexivity. }
  destruct (SwitchPage_returns (currentPage app) (statusPage status isError app)
              app Hl (or_introl eq_refl)) as (app1 & E1).
  unfold UpdateStatus. rewrite Hu. unfold bind at 1. unfold ret at 1.
  unfold bind at 1. unfold AddPage. simpl. rewrite <- Hp.
  unfold bind. rewrite E1. simpl.
  apply SwitchPage_Done in E1
    as (Hc & Hq & Hf & _ & _ & Hl1 & _ & _ & Hd & Hsl & Hh & Hs).
  destruct (decide (currentPage app ≠ currentPage app)) as [Hne|_];
    [contradiction|].
  eexists. split; [reflexivity|]. simpl.
  repeat split; auto.
Qed.


(** ** What a step of the program leaves alone *)

Lemma keeps_weaken {A : Type} (R R' : AppView -> AppView -> Prop) (m : M A) :
  (forall a b, R a b -> R' a b) -> keeps R m -> keeps R' m.
Proof. intros HR Hm app. apply HR, Hm. Qed.

Lemma frame_cursors' a b : frame a b -> cursors a b.
Proof. intros [_ _ H]. exact H. Qed.

Lemma keeps_cancel_cursors : keeps cursors cancel.
Proof.
  intros app. unfold cancel.
  destruct (context app); simpl; [|apply cursors_refl].
  split; simpl; eauto.
Qed.

Lemma keeps_cancel_mono : keeps ctx_mono cancel.
Proof.
  intros app. unfold cancel.
  destruct (context app) as [ctx|]; simpl; [|apply ctx_mono_refl].
  split; simpl; auto.
  - apply length_insert.
  - intros c. unfold ctxDone. simpl.
    destruct (decide (ctx = c)) as [->|Hne].
    + destruct (ctxs app !! c) eqn:E; simpl; [|discriminate].
      intros ->. rewrite list_lookup_insert_eq; auto.
      eapply lookup_lt_Some; eauto.
    + rewrite list_lookup_insert_ne; auto.
Qed.

Lemma keeps_recv_switchPage : keeps frame recv_switchPage.
Proof.
  intros app. unfold recv_switchPage.
  destruct (switchPage app) as [[|n]|]; simpl; frame_fields.
Qed.

Lemma keeps_run_call : keeps frame run_call.
Proof.
  intros app. unfold run_call.
  destruct (tableViews app !! currentPage app), (context app); apply frame_refl.
Qed.

Lemma keeps_userSelect_mono t r c : keeps ctx_mono (userSelect t r c).
Proof.
  intros app. unfold userSelect, selectionChanged, update, bind, deref, modify.
  destruct (heap app !! t) as [v|]; simpl; [|apply ctx_mono_refl].
  destruct (<[t:=_]> (heap app) !! t); simpl; split; auto.
Qed.

Lemma call_keeps (R : AppView -> AppView -> Prop) m args sys sys' :
  keeps R m -> call m args sys = Some sys' ->
  R (sys_app sys) (sys_app sys') /\ sys_watch sys' = sys_watch sys.
Proof.
  intros Hm. unfold call. specialize (Hm (sys_app sys)).
  destruct (m (sys_app sys)) as [a app'|app'|app']; simpl in Hm.
  - intros [= <-]. auto.
  - destruct (lock (sys_app sys)); [discriminate|]. intros [= <-]. auto.
  - discriminate.
Qed.

Lemma returned_keeps (R : AppView -> AppView -> Prop) m sys sys' :
  keeps R m -> returned m sys = Some sys' ->
  R (sys_app sys) (sys_app sys') /\ sys_watch sys' = sys_watch sys.
Proof.
  intros Hm. unfold returned. specialize (Hm (sys_app sys)).
  destruct (m (sys_app sys)) as [a app'|app'|app']; simpl in Hm;
    try discriminate.
  intros [= <-]. auto.
Qed.

(** The steps of [watch] and of the running loop, as calls. *)
Lemma watch_keeps (R : AppView -> AppView -> Prop) :
  (forall a, R a a) -> (forall a b c, R a b -> R b c -> R a c) ->
  (forall a b, frame a b -> R a b) -> keeps R cancel ->
  keeps R (recv_switchPage ;;; cancel ;;; run_call).
Proof.
  intros Hrefl Htrans Hframe Hcancel.
  apply keeps_bind; auto.
  - eapply keeps_weaken; [exact Hframe|apply keeps_recv_switchPage].
  - intros _. apply keeps_bind; auto.
    intros _. eapply keeps_weaken; [exact Hframe|apply keeps_run_call].
Qed.

Lemma step_keeps (R : AppView -> AppView -> Prop) T ev sys sys' :
  (forall a, R a a) -> (forall a b c, R a b -> R b c -> R a c) ->
  (forall a b, frame a b -> R a b) -> keeps R cancel ->
  (forall t r c, ev = EvSelect t r c -> keeps R (userSelect t r c)) ->
  step T ev sys = Some sys' -> R (sys_app sys) (sys_app sys').
Proof.
  intros Hrefl Htrans Hframe Hcancel Hsel. unfold step.
  destruct (crashed sys); [discriminate|].
  destruct ev as [page p| | |r|t|t r c| | |pick]; simpl.
  - intros H. eapply (call_keeps R) in H; [exact (proj1 H)|].
    eapply keeps_weaken; [exact Hframe|apply keeps_SwitchPage].
  - intros H. eapply (returned_keeps R) in H; [exact (proj1 H)|].
    eapply keeps_weaken; [exact Hframe|apply keeps_LastPage].
  - intros H. eapply (returned_keeps R) in H; [exact (proj1 H)|].
    eapply keeps_weaken; [exact Hframe|apply keeps_ShowMenu].
  - intros H. eapply (call_keeps R) in H; [exact (proj1 H)|].
    eapply keeps_weaken; [exact Hframe|apply keeps_Navigate].
  - intros H. eapply (returned_keeps R) in H; [exact (proj1 H)|].
    eapply keeps_weaken; [exact Hframe|apply keeps_Refresh].
  - intros H. eapply (returned_keeps R) in H; [exact (proj1 H)|]. eapply Hsel; eauto.
  - destruct (sys_parked sys) as [[page p]|]; [|discriminate].
    pose proof (keeps_SwitchPage_resume page p (sys_app sys)) as K.
    destruct (SwitchPage_resume page p (sys_app sys)); try discriminate.
    intros [= <-]. apply Hframe, K.
  - destruct (sys_watch sys); try discriminate.
    pose proof (watch_keeps R Hrefl Htrans Hframe Hcancel (sys_app sys)) as K.
    destruct ((recv_switchPage;;; cancel;;; run_call) (sys_app sys));
      try discriminate; intros [= <-]; exact K.
  - destruct (sys_watch sys) as [|t ctx|]; try discriminate.
    pose proof (keeps_run_iter pick ctx t (sys_app sys)) as K.
    destruct (run_iter pick ctx t (sys_app sys)) as [[|] app'|app'|app'];
      try discriminate; intros [= <-]; apply Hframe, K.
Qed.

Lemma step_ctx_mono T ev sys sys' :
  step T ev sys = Some sys' -> ctx_mono (sys_app sys) (sys_app sys').
Proof.
  apply step_keeps.
  - apply ctx_mono_refl.
  - apply ctx_mono_trans.
  - apply frame_ctx_mono.
  - apply keeps_cancel_mono.
  - intros t r c _. apply keeps_userSelect_mono.
Qed.

Lemma step_cursors T ev sys sys' :
  notSelect ev = true ->
  step T ev sys = Some sys' -> cursors (sys_app sys) (sys_app sys').
Proof.
  intros Hns. apply step_keeps.
  - apply cursors_refl.
  - apply cursors_trans.
  - apply frame_cursors'.
  - apply keeps_cancel_cursors.
  - intros t r c ->. discriminate.
Qed.

(** ** The walk through the pages *)

Example Contains_examples :
  Contains "web-0" "eb" = true /\ Contains "web-0" "db" = false
  /\ skipped "" [""; "x"] = true /\ skipped "db" ["web-0"] = true
  /\ skipped "eb" ["web-0"] = false /\ skipped "" ["web-0"] = false.
Proof. vm_compute. repeat split; reflexivity. Qed.

Example root_table :
  (cells <$> heap (state []) !! 0)
  = Some [["[white]NAME"]; ["pods"]; ["deployments"]].
Proof. vm_compute. reflexivity. Qed.

Example walk_history : history (after walk) = [RootPage; "pods"; "deployments"].
Proof. vm_compute. reflexivity. Qed.

Example walk_back_shown :
  shown (after (walk ++ [EvLastPage])) = Some "pods"
  /\ shown (after (walk ++ [EvLastPage; EvLastPage])) = Some RootPage.
Proof. vm_compute. split; reflexivity. Qed.

(** ** C3: the back-navigation scenario *)

(** C3, as stated, fails on the current page pointer: on the root page,
    after switching to "pods" and to "deployments", one [LastPage] leaves
    the pointer on "deployments"; it is not "pods". *)
Lemma LastPage_leaves_pointer_on_deployments :
  pointer (after (walk ++ [EvLastPage])) = Some "deployments"
  /\ pointer (after (walk ++ [EvLastPage])) <> Some "pods"
  /\ pointer (after (walk ++ [EvLastPage; EvLastPage])) <> Some RootPage.
Proof. vm_compute. repeat split; try reflexivity; discriminate. Qed.

(** C3 (amended): starting with the view of the root page on top of the
    draw queue, after [SwitchPage] to "pods" and then [SwitchPage] to
    "deployments" with the views of these pages (other goroutines leaving
    the queue alone in between), one [LastPage] puts the "pods" view in
    front, displayed and focused, and a second one the root view; the
    current page pointer is "deployments" throughout. *)
Theorem LastPage_scenario (app app1 app1' app2 : AppView) (t0 t1 t2 : nat) :
  last (drawQueue app) = Some {| PageName := RootPage; Primitive := TableP t0 |} ->
  SwitchPage "pods" (TableP t1) app = Done tt app1 ->
  drawQueue app1' = drawQueue app1 ->
  SwitchPage "deployments" (TableP t2) app1' = Done tt app2 ->
  exists app3 app4,
    LastPage app2 = Done tt app3
    /\ frontPage app3 = Some ("pods", TableP t1)
    /\ focus app3 = TableP t1
    /\ currentPage app3 = "deployments"
    /\ LastPage app3 = Done tt app4
    /\ frontPage app4 = Some (RootPage, TableP t0)
    /\ focus app4 = TableP t0
    /\ currentPage app4 = "deployments".
Proof.
  intros Hroot H1 Hq H2.
  apply SwitchPage_Done in H1 as (_ & Hq1 & _).
  apply SwitchPage_Done in H2 as (Hc2 & Hq2 & _).
  destruct (LastPage_Done app2) as (app3 & E3 & Hq3 & Hf3 & Hfo3 & Hc3 & _).
  destruct (LastPage_Done app3) as (app4 & E4 & Hq4 & Hf4 & Hfo4 & Hc4 & _).
  exists app3, app4.
  rewrite Hq2, Hq, Hq1, removelast_last in Hq3.
  assert (Hq4' : drawQueue app4 = drawQueue app)
    by (rewrite Hq4, Hq3; apply removelast_last).
  unfold PrimitiveQueue.Last in Hf3, Hf4, Hfo3, Hfo4.
  rewrite Hq3, last_snoc in Hf3, Hfo3. rewrite Hq4', Hroot in Hf4, Hfo4.
  repeat split; auto; congruence.
Qed.

Lemma LastPage_scenario_witness :
  exists app3 app4,
    LastPage (state (tour ++ [EvSwitchPage "pods" (TableP 1)] ++ settle
                          ++ [EvSwitchPage "deployments" (TableP 2)])) = Done tt app3
    /\ frontPage app3 = Some ("pods", TableP 1)
    /\ focus app3 = TableP 1
    /\ currentPage app3 = "deployments"
    /\ LastPage app3 = Done tt app4
    /\ frontPage app4 = Some (RootPage, TableP 0)
    /\ focus app4 = TableP 0
    /\ currentPage app4 = "deployments".
Proof.
  apply (LastPage_scenario (state tour)
           (state (tour ++ [EvSwitchPage "pods" (TableP 1)]))
           (state (tour ++ [EvSwitchPage "pods" (TableP 1)] ++ settle))
           _ 0 1 2).
  - vm_compute. reflexivity.
  - vm_compute. reflexivity.
  - vm_compute. reflexivity.
  - vm_compute. reflexivity.
Defined.

(** ** C10: [LastPage] and the current page pointer *)

(** C10: [LastPage] never modifies the current page pointer.  Every call
    returns with [currentPage] as it was, so [CurrentPage] answers as
    before the call; in the scenario the page shown after one [LastPage]
    is "pods" while [CurrentPage] still returns the view of
    "deployments", the page just left. *)
Theorem LastPage_keeps_currentPage :
  (forall app : AppView,
     exists app',
       LastPage app = Done tt app'
       /\ currentPage app' = currentPage app
       /\ CurrentPage app' = Done (registered (currentPage app) app) app')
  /\ (shown (after walk) = Some "deployments"
      /\ shown (after (walk ++ [EvLastPage])) = Some "pods"
      /\ pointer (after (walk ++ [EvLastPage])) = Some "deployments"
      /\ CurrentPage (state (walk ++ [EvLastPage]))
         = Done (TableP 2) (state (walk ++ [EvLastPage]))
      /\ tableViews (state walk) !! "deployments" = Some 2).
Proof.
  split.
  - intros app.
    destruct (LastPage_Done app) as (app' & E & _ & _ & _ & Hc & Ht & _).
    exists app'. repeat split; auto.
    unfold CurrentPage, registered. rewrite Hc, Ht. reflexivity.
  - vm_compute. repeat split; reflexivity.
Qed.

(** ** C6: [CurrentPage] on a page that is not registered *)

(** C6, as stated, fails: with "pod/web-0" current and not registered,
    [CurrentPage] returns the nil view, although the root view is
    registered. *)
Lemma CurrentPage_unregistered_not_root :
  currentPage detailed = "pod/web-0"
  /\ tableViews detailed !! "pod/web-0" = None
  /\ CurrentPage detailed = Done NilView detailed
  /\ registered RootPage detailed = TableP 0
  /\ CurrentPage detailed <> Done (registered RootPage detailed) detailed.
Proof. vm_compute. repeat split; try reflexivity. discriminate. Qed.

(** C6 (amended): [CurrentPage] never panics or blocks and leaves the
    state alone; it returns the view registered for the current page
    pointer, and the nil view, the zero value of the registry, when there
    is none. *)
Theorem CurrentPage_lookup (app : AppView) :
  exists p : tview_Primitive,
    CurrentPage app = Done p app
    /\ match tableViews app !! currentPage app with
       | Some t => p = TableP t
       | None => p = NilView
       end.
Proof.
  unfold CurrentPage, registered.
  destruct (tableViews app !! currentPage app); eauto.
Qed.

(** ** C4 and C5: switching to the page that is current *)

(** C4, as stated, fails in its last part: [SwitchPage] to the current
    page "pods" leaves a second "pods" entry in the history, and one
    back-press still shows "pods"; it takes two to leave the page. *)
Lemma same_page_switch_needs_two_backs :
  history (after twice) = [RootPage; "pods"; "pods"]
  /\ shown (after (twice ++ [EvLastPage])) = Some "pods"
  /\ shown (after (twice ++ [EvLastPage; EvLastPage])) = Some RootPage.
Proof. vm_compute. repeat split; reflexivity. Qed.

(** C4 (amended): a call [SwitchPage X v] made while [X] is current (and
    the mutex free) returns without sending a signal, so the refresh loop
    is not restarted and no context is cancelled; it still appends
    [{X, v}] to the draw queue and shows [v], and the focus goes where [v]
    passes it: to [v] itself if [v] is a view.  The entry is one more
    history entry for [X]: one back-press removes just it and shows and
    focuses the entry below, the one that was on top before the call, [X]
    still being current.  A call for another name that returns has sent
    exactly one signal. *)
Theorem SwitchPage_same_page (app : AppView) (X : string) (v : tview_Primitive) :
  currentPage app = X ->
  lock app = false ->
  exists app' app'',
    SwitchPage X v app = Done tt app'
    /\ switchPage app' = switchPage app
    /\ ctxs app' = ctxs app
    /\ currentPage app' = X
    /\ drawQueue app' = (drawQueue app ++ [track X v])%list
    /\ frontPage app' = Some (X, v)
    /\ focus app' = focusTarget v
    /\ (forall t, v = TableP t -> focus app' = TableP t)
    /\ LastPage app' = Done tt app''
    /\ drawQueue app'' = drawQueue app
    /\ frontPage app''
       = Some (PageName (PrimitiveQueue.Last app), Primitive (PrimitiveQueue.Last app))
    /\ focus app'' = focusTarget (Primitive (PrimitiveQueue.Last app))
    /\ currentPage app'' = X
    /\ switchPage app'' = switchPage app
    /\ (forall Y w app2, Y <> X -> SwitchPage Y w app = Done tt app2 ->
          switchPage app = Some 0 /\ switchPage app2 = Some 1).
Proof.
  intros Hc Hl.
  destruct (SwitchPage_returns X v app Hl (or_introl Hc)) as (app' & E).
  destruct (LastPage_Done app')
    as (app'' & E' & Hq' & Hf' & Hfo' & Hc'' & Htv' & Hs'' & _).
  exists app', app''. split; [exact E|].
  pose proof (keeps_Done frame _ _ _ _ (keeps_SwitchPage X v) E) as [_ Hctx _].
  apply SwitchPage_Done in E
    as (Hc' & Hq & Hf & Hfo & _ & _ & Htv & _ & _ & _ & _ & Hs).
  destruct (decide (currentPage app ≠ X)) as [Hne|_]; [contradiction|].
  assert (Hq'' : drawQueue app'' = drawQueue app)
    by (rewrite Hq', Hq; apply removelast_last).
  assert (HL : PrimitiveQueue.Last app'' = PrimitiveQueue.Last app).
  { unfold PrimitiveQueue.Last, registered. rewrite Hq'', Htv', Htv. reflexivity. }
  rewrite HL in Hf', Hfo'.
  do 6 (split; [assumption|]).
  split; [intros t ->; exact Hfo|].
  split; [exact E'|]. do 3 (split; [assumption|]).
  split; [congruence|]. split; [congruence|].
  intros Y w app2 HY E2.
  apply SwitchPage_Done in E2 as (_ & _ & _ & _ & _ & _ & _ & _ & _ & _ & _ & Hs').
  destruct (decide (currentPage app ≠ Y)) as [_|Heq]; [exact Hs'|].
  apply dec_stable in Heq. congruence.
Qed.

Lemma SwitchPage_same_page_witness :
  exists app' app'',
    SwitchPage "pods" (TableP 1) (state (settle ++ [EvNavigate 1] ++ settle))
      = Done tt app'
    /\ switchPage app' = Some 0
    /\ ctxs app' = [true]
    /\ currentPage app' = "pods"
    /\ map PageName (drawQueue app') = [RootPage; "pods"; "pods"]
    /\ focus app' = TableP 1
    /\ LastPage app' = Done tt app''
    /\ map PageName (drawQueue app'') = [RootPage; "pods"]
    /\ frontPage app'' = Some ("pods", TableP 1)
    /\ focus app'' = TableP 1.
Proof.
  destruct (SwitchPage_same_page
              (state (settle ++ [EvNavigate 1] ++ settle)) "pods" (TableP 1))
    as (app' & app'' & E & Hs & Hx & Hc & Hq & _ & Hfo & _ & E' & Hq' & Hf' & Hfo' & _).
  - vm_compute. reflexivity.
  - vm_compute. reflexivity.
  - exists app', app''. rewrite Hs, Hx, Hc, Hq, Hfo, Hq', Hf', Hfo'.
    split; [exact E|]. do 5 (split; [vm_compute; reflexivity|]).
    split; [exact E'|]. vm_compute. repeat split; reflexivity.
Defined.

(** C5, as stated, fails: [SwitchPage] to the page that is current is not
    a no-op on the draw queue; the queue grows and holds two consecutive
    entries for "pods".  After a [LastPage] its top is "pods" although the
    page last switched to is "deployments". *)
Lemma same_page_switch_grows_queue :
  history (after (settle ++ [EvNavigate 1] ++ settle)) = [RootPage; "pods"]
  /\ history (after twice) = [RootPage; "pods"; "pods"]
  /\ history (after twice) <> history (after (settle ++ [EvNavigate 1] ++ settle))
  /\ last (history (after (walk ++ [EvLastPage]))) = Some "pods"
  /\ pointer (after (walk ++ [EvLastPage])) = Some "deployments".
Proof. vm_compute. repeat split; try reflexivity. discriminate. Qed.

(** C5 (amended): when a call [SwitchPage page p] returns, the top of the
    draw queue is [{page, p}] and [page] is the current page; the call has
    appended exactly one entry, whether or not [page] was current
    before. *)
Theorem SwitchPage_top_of_queue (app app' : AppView) (page : string) (p : tview_Primitive) :
  SwitchPage page p app = Done tt app' ->
  PrimitiveQueue.Last app' = track page p
  /\ PrimitiveQueue.Empty app' = false
  /\ currentPage app' = page
  /\ drawQueue app' = (drawQueue app ++ [track page p])%list
  /\ length (drawQueue app') = S (length (drawQueue app)).
Proof.
  intros E. apply SwitchPage_Done in E as (Hc & Hq & _).
  unfold PrimitiveQueue.Last, PrimitiveQueue.Empty. rewrite Hq, last_snoc.
  repeat split; auto.
  - destruct (drawQueue app); reflexivity.
  - rewrite length_app. simpl. lia.
Qed.

Lemma SwitchPage_top_of_queue_witness :
  PrimitiveQueue.Last (state twice) = track "pods" (TableP 1)
  /\ PrimitiveQueue.Empty (state twice) = false
  /\ currentPage (state twice) = "pods"
  /\ drawQueue (state twice)
     = (drawQueue (state (settle ++ [EvNavigate 1] ++ settle))
          ++ [track "pods" (TableP 1)])%list
  /\ length (drawQueue (state twice))
     = S (length (drawQueue (state (settle ++ [EvNavigate 1] ++ settle)))).
Proof.
  apply (SwitchPage_top_of_queue
           (state (settle ++ [EvNavigate 1] ++ settle)) (state twice)
           "pods" (TableP 1)).
  vm_compute. reflexivity.
Defined.

(** ** C8: the menu overlay *)

(** C8, as stated, fails in its first part: [ShowMenu] on the root page
    adds an entry to the draw queue, and a back-press then removes the
    overlay. *)
Lemma ShowMenu_adds_history_entry :
  history (after settle) = [RootPage]
  /\ history (after (settle ++ [EvShowMenu])) = [RootPage; RootPage]
  /\ length (drawQueue (state (settle ++ [EvShowMenu])))
     <> length (drawQueue (state settle)).
Proof. vm_compute. repeat split; try reflexivity. discriminate. Qed.

(** [ShowMenu] with the menu not showing and the current page not
    registered: [CurrentPage] gives the nil view, which goes into the
    overlay as page "menu", and adding the menu panics. *)
Lemma ShowMenu_panics (app : AppView) :
  showMenu app = false ->
  tableViews app !! currentPage app = None ->
  ShowMenu app = Crash app.
Proof.
  intros Hm Hu. unfold ShowMenu. rewrite Hm. simpl.
  unfold bind, CurrentPage, registered. rewrite Hu. reflexivity.
Qed.

(** C8 (amended): with the current page registered, [ShowMenu] is
    idempotent: once it has returned, a second invocation changes nothing.
    While the menu is not showing it composites the menu over the current
    view by a [SwitchPage] to the current page, which appends one entry to
    the draw queue, sends no signal and leaves the current page pointer;
    the menu gets the focus and [showMenu] is set.  The helper [menuDecor]
    has no such guard: each call for the current page, with a primitive
    that can be asked for the focus, appends an entry. *)
Theorem ShowMenu_overlay (app : AppView) (t : nat) :
  lock app = false ->
  tableViews app !! currentPage app = Some t ->
  exists app',
    ShowMenu app = Done tt app'
    /\ ShowMenu app' = Done tt app'
    /\ showMenu app' = true
    /\ currentPage app' = currentPage app
    /\ switchPage app' = switchPage app
    /\ (if showMenu app then app' = app
        else drawQueue app' = (drawQueue app ++ [track (currentPage app) (menuOverlay app)])%list
             /\ frontPage app' = Some (currentPage app, menuOverlay app)
             /\ menuOverlay app
                = PagesP [("menu", TableP t); ("menu-decor", center MenuP 60 15)]
             /\ focus app' = MenuP)
    /\ (forall p, (forall f, HasFocus f p <> None) ->
          exists app1 app2,
            menuDecor (currentPage app) p app = Done tt app1
            /\ menuDecor (currentPage app) p app1 = Done tt app2
            /\ length (drawQueue app1) = S (length (drawQueue app))
            /\ length (drawQueue app2) = S (S (length (drawQueue app)))).
Proof.
  intros Hl Hreg.
  assert (Hdecor : forall p, (forall f, HasFocus f p <> None) ->
          exists app1 app2,
            menuDecor (currentPage app) p app = Done tt app1
            /\ menuDecor (currentPage app) p app1 = Done tt app2
            /\ length (drawQueue app1) = S (length (drawQueue app))
            /\ length (drawQueue app2) = S (S (length (drawQueue app)))).
  { intros p Hp.
    assert (Hstep : forall a, lock a = false -> currentPage a = currentPage app ->
              exists a1, menuDecor (currentPage app) p a = Done tt a1
                         /\ lock a1 = false /\ currentPage a1 = currentPage app
                         /\ length (drawQueue a1) = S (length (drawQueue a))).
    { intros a Hla Hca. unfold menuDecor. unfold bind at 1.
      rewrite AddPage_first. unfold bind at 1.
      destruct (HasFocus (focus a) p) as [b|] eqn:Hb; [|destruct (Hp _ Hb)].
      rewrite (AddPage_second _ _ _ _ _ _ Hb).
      match goal with
      | |- context [SwitchPage ?page ?pg a] =>
          destruct (SwitchPage_returns page pg a Hla (or_introl Hca)) as (a1 & E1);
          rewrite E1; apply SwitchPage_Done in E1 as (Hc1 & Hq1 & _ & _ & _ & Hl1 & _)
      end.
      exists a1. split; [reflexivity|]. split; [exact Hl1|]. split; [exact Hc1|].
      rewrite Hq1, length_app. simpl. lia. }
    destruct (Hstep app Hl eq_refl) as (app1 & E1 & Hl1 & Hc1 & Hn1).
    destruct (Hstep app1 Hl1 Hc1) as (app2 & E2 & _ & _ & Hn2).
    exists app1, app2. repeat split; auto. lia. }
  unfold ShowMenu at 1. destruct (showMenu app) eqn:Hm; simpl.
  - exists app. unfold ShowMenu. rewrite Hm. simpl. repeat split; auto.
  - assert (Hov : menuOverlay app
                  = PagesP [("menu", TableP t); ("menu-decor", center MenuP 60 15)]).
    { unfold menuOverlay, registered. rewrite Hreg. reflexivity. }
    unfold bind at 1. unfold CurrentPage at 1. unfold registered. rewrite Hreg.
    unfold bind at 1. rewrite AddPage_first. unfold bind at 1.
    rewrite (AddPage_second _ _ _ _ _ _ (HasFocus_TableP (focus app) t)).
    change (filter (fun np : string * tview_Primitive => np.1 ≠ "menu-decor")
              [("menu", TableP t)] ++ [("menu-decor", center MenuP 60 15)])%list
      with [("menu", TableP t); ("menu-decor", center MenuP 60 15)].
    rewrite <- Hov. unfold bind at 1.
    destruct (SwitchPage_returns (currentPage app) (menuOverlay app) app Hl
                (or_introl eq_refl)) as (app1 & E1).
    rewrite E1.
    pose proof (SwitchPage_Done _ _ _ _ E1)
      as (Hc1 & Hq1 & Hf1 & _ & _ & _ & _ & _ & _ & _ & _ & Hs1).
    destruct (decide (currentPage app ≠ currentPage app)) as [Hne|_];
      [contradiction|].
    eexists. split; [reflexivity|]. simpl.
    repeat split; auto.
Qed.

Lemma ShowMenu_overlay_witness :
  exists app',
    ShowMenu (state settle) = Done tt app'
    /\ ShowMenu app' = Done tt app'
    /\ showMenu app' = true
    /\ currentPage app' = RootPage
    /\ switchPage app' = Some 0
    /\ map PageName (drawQueue app') = [RootPage; RootPage]
    /\ focus app' = MenuP.
Proof.
  destruct (ShowMenu_overlay (state settle) 0)
    as (app' & E & E' & Hm & Hc & Hs & Hq & _).
  - vm_compute. reflexivity.
  - vm_compute. reflexivity.
  - exists app'. rewrite Hm, Hc, Hs.
    change (showMenu (state settle)) with false in Hq.
    destruct Hq as (Hq & _ & _ & Hf). rewrite Hq, Hf.
    split; [exact E|]. split; [exact E'|].
    vm_compute. repeat split; reflexivity.
Defined.

(** ** C9: position memory *)

Lemma execWhile_exec T ok evs : forall sys sys',
  execWhile T ok evs sys = Some sys' -> exec T evs sys = Some sys'.
Proof.
  induction evs as [|ev evs IH]; simpl; intros sys sys' H; [exact H|].
  destruct (ok (sys_app sys) ev); [|discriminate].
  destruct (step T ev sys); [auto|discriminate].
Qed.

Lemma step_remembered T k t p ev sys sys' :
  remembered k t p (sys_app sys) ->
  elsewhere k (sys_app sys) ev = true ->
  step T ev sys = Some sys' ->
  remembered k t p (sys_app sys').
Proof.
  intros [Hp (v & Hv & Hs & Hk)] Hel Hstep.
  destruct (notSelect ev) eqn:Hns.
  - destruct (step_cursors _ _ _ _ Hns Hstep) as [Cp Ch].
    split; [rewrite Cp; exact Hp|].
    destruct (Ch t v Hv) as (v' & Hv' & Hs' & Hk').
    exists v'. repeat split; congruence.
  - destruct ev as [| | | | |t' r c| | |]; try discriminate.
    unfold step in Hstep. destruct (crashed sys); [discriminate|].
    simpl in Hel, Hstep. unfold returned in Hstep.
    destruct (heap (sys_app sys) !! t') as [v'|] eqn:Hv'.
    + apply bool_decide_eq_true in Hel.
      rewrite (userSelect_Done _ _ _ _ _ Hv') in Hstep.
      injection Hstep as <-. simpl.
      assert (t' <> t) by (intros ->; congruence).
      split; simpl; [rewrite lookup_insert_ne; auto|].
      exists v. rewrite list_lookup_insert_ne; auto.
    + unfold userSelect, update, bind, deref in Hstep.
      rewrite Hv' in Hstep. discriminate.
Qed.

Lemma execWhile_remembered T k t p evs : forall sys sys',
  remembered k t p (sys_app sys) ->
  execWhile T (elsewhere k) evs sys = Some sys' ->
  remembered k t p (sys_app sys').
Proof.
  induction evs as [|ev evs IH]; simpl; intros sys sys' Hr H.
  - injection H as <-. exact Hr.
  - destruct (elsewhere k (sys_app sys) ev) eqn:Hel; [|discriminate].
    destruct (step T ev sys) as [sys1|] eqn:E; [|discriminate].
    eapply IH; [eapply step_remembered; eauto|exact H].
Qed.

(** C9: position memory round-trips.  A selection change to [(r, c)] on
    the view [t] of a page always goes through, whatever was recorded
    before.  After any run of the program in which no selection change
    happens on a view of that page (navigating away and back, moving the
    cursor on other pages, refreshes, the refresh loop), the record for
    the page is [(r, c)], the page's view still has its cursor on
    [(r, c)], and a view made anew for the page gets its cursor from the
    record: [(r, c)]. *)
Theorem position_roundtrip (T : Tables) (sys : System) (t : nat) (v : tableView)
    (r c : Z) :
  crashed sys = false ->
  heap (sys_app sys) !! t = Some v ->
  exists sys1,
    step T (EvSelect t r c) sys = Some sys1
    /\ forall evs sys2,
         execWhile T (elsewhere (Kind (resourceKind v))) evs sys1 = Some sys2 ->
         exec T evs sys1 = Some sys2
         /\ pageRows (sys_app sys2) !! Kind (resourceKind v) = Some (pos r c)
         /\ (exists v', heap (sys_app sys2) !! t = Some v'
                        /\ selection v' = pos r c
                        /\ Kind (resourceKind v') = Kind (resourceKind v))
         /\ (forall feeder,
               selection (init (resourceKind v) feeder (sys_app sys2)) = pos r c).
Proof.
  intros Hlive Hv. unfold step. rewrite Hlive. simpl.
  unfold returned. rewrite (userSelect_Done _ _ _ _ _ Hv).
  eexists. split; [reflexivity|].
  intros evs sys2 Hex.
  split; [eapply execWhile_exec; exact Hex|].
  apply (execWhile_remembered _ _ t (pos r c)) in Hex as [Hrec Hview].
  - split; [exact Hrec|]. split; [exact Hview|].
    intros feeder. unfold init. simpl. rewrite Hrec. reflexivity.
  - split; simpl.
    + apply lookup_insert_eq.
    + exists (set_selection (pos r c) v). split; [|split; reflexivity].
      apply list_lookup_insert_eq. eapply lookup_lt_Some; eauto.
Qed.

Lemma position_roundtrip_witness :
  pageRows (sys_app (atRest (state (onPods ++ [EvSelect 1 3 0] ++ awayAndBack)))) !! "pods"
    = Some (pos 3 0)
  /\ (exists v',
        heap (sys_app (atRest (state (onPods ++ [EvSelect 1 3 0] ++ awayAndBack)))) !! 1
          = Some v'
        /\ selection v' = pos 3 0
        /\ Kind (resourceKind v') = "pods")
  /\ (forall feeder,
        selection (init (kindOf "pods") feeder
                     (sys_app (atRest (state (onPods ++ [EvSelect 1 3 0] ++ awayAndBack)))))
        = pos 3 0).
Proof.
  assert (Hheap : heap (sys_app (atRest (state onPods))) !! 1 = Some podsView)
    by (vm_compute; reflexivity).
  assert (Hk : resourceKind podsView = kindOf "pods")
    by (vm_compute; reflexivity).
  assert (E01 : step demo (EvSelect 1 3 0) (atRest (state onPods))
                = Some (atRest (state (onPods ++ [EvSelect 1 3 0]))))
    by (vm_compute; reflexivity).
  assert (E12 : execWhile demo (elsewhere "pods") awayAndBack
                  (atRest (state (onPods ++ [EvSelect 1 3 0])))
                = Some (atRest (state (onPods ++ [EvSelect 1 3 0] ++ awayAndBack))))
    by (vm_compute; reflexivity).
  destruct (position_roundtrip demo (atRest (state onPods)) 1 podsView 3 0
              eq_refl Hheap) as (sys1 & E1 & H).
  rewrite E01 in E1. injection E1 as <-.
  rewrite Hk in H. specialize (H awayAndBack _ E12).
  destruct H as (_ & H). exact H.
Defined.

(** ** C7: a refresh that fails *)

(** [refresh] on a failing fetch returns the error without calling
    [draw]. *)
Lemma refresh_error (app : AppView) (t : nat) (v : tableView) (e : string) rest :
  heap app !! t = Some v ->
  script (dataSource v) = inl e :: rest ->
  refresh t app
  = Done (Some e) (set_heap (<[t := set_dataSource (failed (dataSource v)) v]> (heap app)) app).
Proof.
  intros Hv Hs. unfold refresh, bind at 1, deref. rewrite Hv.
  unfold DataSource_Refresh, failed. rewrite Hs. simpl.
  unfold bind. erewrite update_Done by eassumption. reflexivity.
Qed.

Lemma select_caseDone pick ctx t app :
  select pick ctx t app = Some caseDone -> ctxDone ctx app = true.
Proof.
  unfold select.
  destruct (syncReady t app), (ctxDone ctx app); try discriminate; auto.
Qed.

(** [run] returns only through [<-ctx.Done()]: its context is cancelled,
    and it was not the loop that cancelled it. *)
Lemma run_returns_cancelled picks ctx t : forall app app',
  run picks ctx t app = Done tt app' ->
  ctxDone ctx app' = true /\ ctxs app' = ctxs app.
Proof.
  induction picks as [|pick picks IH]; intros app app'; simpl; [discriminate|].
  unfold bind.
  pose proof (keeps_run_iter pick ctx t app) as K.
  destruct (run_iter pick ctx t app) as [[|] app1|app1|app1] eqn:E;
    try discriminate; simpl in K.
  - intros H. apply IH in H as [H1 H2]. split; [exact H1|].
    rewrite H2. apply K.
  - unfold ret. intros [= <-]. split; [|apply K].
    unfold run_iter in E. destruct (heap app !! t); [|discriminate].
    destruct (select pick ctx t app) as [[|]|] eqn:Hs; try discriminate.
    + unfold bind in E. destruct (run_sync t app); discriminate.
    + injection E as <-. eapply select_caseDone; eauto.
Qed.

(** The sync case of the loop when the fetch fails and the current page
    is not registered. *)
Lemma run_sync_error (app : AppView) (t : nat) (v : tableView) (e : string) rest :
  heap app !! t = Some v ->
  script (dataSource v) = inl e :: rest ->
  lock app = false ->
  tableViews app !! currentPage app = None ->
  exists app',
    run_sync t app = Done tt app'
    /\ draws app' = draws app
    /\ heap app' !! t
       = Some (set_dataSource (failed (dataSource v)) (set_sync (pred (sync v)) v))
    /\ drawQueue app'
       = (drawQueue app ++ [track (currentPage app) (statusPage e true app);
                            track (currentPage app) (TableP t)])%list
    /\ frontPage app' = Some (currentPage app, TableP t)
    /\ sleepers app' = S (sleepers app)
    /\ currentPage app' = currentPage app.
Proof.
  intros Hv Hs Hl Hu.
  assert (Hlt : t < length (heap app)) by (eapply lookup_lt_Some; eauto).
  unfold run_sync. unfold bind at 1.
  erewrite update_Done by eassumption.
  set (v1 := set_sync (pred (sync v)) v).
  set (app1 := set_heap (<[t:=v1]> (heap app)) app).
  assert (Hv1 : heap app1 !! t = Some v1)
    by (apply list_lookup_insert_eq; exact Hlt).
  unfold bind at 1. erewrite (refresh_error app1 t v1 e rest Hv1 Hs).
  set (app2 := set_heap _ app1).
  destruct (UpdateStatus_Done app2 t e true Hl Hu)
    as (app3 & E3 & Hq3 & _ & Hsl3 & Hc3 & Hl3 & Hh3 & Hd3 & _).
  unfold bind at 1. unfold bind at 1. rewrite E3. unfold ret at 1.
  destruct (SwitchPage_returns (currentPage app3) (TableP t) app3 Hl3
              (or_introl eq_refl)) as (app4 & E4).
  rewrite E4. exists app4. split; [reflexivity|].
  apply SwitchPage_Done in E4
    as (Hc4 & Hq4 & Hf4 & _ & _ & _ & _ & _ & Hd4 & Hsl4 & Hh4 & _).
  rewrite Hd4, Hd3, Hh4, Hh3, Hq4, Hq3, Hf4, Hsl4, Hsl3, Hc4, Hc3.
  simpl. rewrite <- app_assoc. simpl.
  repeat split; auto.
  apply list_lookup_insert_eq. rewrite length_insert. exact Hlt.
Qed.



Example flakyView_cells : cells flakyView = [["[white]NAME"]; ["web-0"]].
Proof. vm_compute. reflexivity. Qed.


(** ** C2: refresh signals *)

Lemma draw_Done (app : AppView) (t : nat) (v : tableView) :
  heap app !! t = Some v ->
  exists v',
    draw t app = Done tt (set_draws (S (draws app)) (set_heap (<[t := v']> (heap app)) app))
    /\ sync v' = sync v /\ dataSource v' = dataSource v.
Proof.
  intros Hv. unfold draw, bind at 1, deref. rewrite Hv.
  unfold bind. erewrite update_Done by eassumption.
  eexists. split; [reflexivity|]. split; reflexivity.
Qed.

(** [refresh] on a fetch that succeeds redraws once. *)
Lemma refresh_ok (app : AppView) (t : nat) (v : tableView) :
  heap app !! t = Some v ->
  answers (script (dataSource v)) = true ->
  exists app' v',
    refresh t app = Done None app'
    /\ heap app' !! t = Some v'
    /\ sync v' = sync v
    /\ script (dataSource v') = tl (script (dataSource v))
    /\ draws app' = S (draws app)
    /\ lock app' = lock app
    /\ currentPage app' = currentPage app
    /\ drawQueue app' = drawQueue app.
Proof.
  intros Hv Ha.
  assert (Hlt : t < length (heap app)) by (eapply lookup_lt_Some; eauto).
  unfold refresh, bind at 1, deref. rewrite Hv.
  destruct (DataSource_Refresh (dataSource v)) as [err ds] eqn:Hr.
  assert (err = None /\ script ds = tl (script (dataSource v))) as [-> Hds].
  { unfold DataSource_Refresh, answers in *.
    destruct (script (dataSource v)) as [|[e|[h d]] rest] eqn:Hs;
      try discriminate; injection Hr as <- <-; simpl; auto. }
  unfold bind at 1. erewrite update_Done by eassumption.
  set (app1 := set_heap _ app).
  assert (Hv1 : heap app1 !! t = Some (set_dataSource ds v))
    by (apply list_lookup_insert_eq; exact Hlt).
  destruct (draw_Done app1 t _ Hv1) as (v' & Ed & Hsy & Hd).
  unfold bind. rewrite Ed. unfold ret.
  eexists _, v'. split; [reflexivity|]. simpl.
  rewrite list_lookup_insert_eq by (rewrite length_insert; exact Hlt).
  rewrite Hsy, Hd. simpl. repeat split; auto.
Qed.

(** The sync case of the loop when the fetch succeeds: one signal is
    taken and the table is redrawn once. *)
Lemma run_sync_ok (app : AppView) (t : nat) (v : tableView) :
  heap app !! t = Some v ->
  answers (script (dataSource v)) = true ->
  lock app = false ->
  exists app' v',
    run_sync t app = Done tt app'
    /\ heap app' !! t = Some v'
    /\ sync v' = pred (sync v)
    /\ script (dataSource v') = tl (script (dataSource v))
    /\ draws app' = S (draws app)
    /\ lock app' = false
    /\ drawQueue app' = (drawQueue app ++ [track (currentPage app) (TableP t)])%list.
Proof.
  intros Hv Ha Hl.
  assert (Hlt : t < length (heap app)) by (eapply lookup_lt_Some; eauto).
  unfold run_sync. unfold bind at 1.
  erewrite update_Done by eassumption.
  set (app1 := set_heap _ app).
  assert (Hv1 : heap app1 !! t = Some (set_sync (pred (sync v)) v))
    by (apply list_lookup_insert_eq; exact Hlt).
  destruct (refresh_ok app1 t _ Hv1 Ha)
    as (app2 & v2 & E2 & Hv2 & Hsy2 & Hsc2 & Hd2 & Hl2 & Hc2 & Hq2).
  unfold bind at 1. rewrite E2. unfold bind at 1. unfold ret at 1.
  destruct (SwitchPage_returns (currentPage app2) (TableP t) app2)
    as (app3 & E3); [rewrite Hl2; exact Hl|left; reflexivity|].
  rewrite E3. exists app3, v2. split; [reflexivity|].
  apply SwitchPage_Done in E3
    as (_ & Hq3 & _ & _ & _ & Hl3 & _ & _ & Hd3 & _ & Hh3 & _).
  rewrite Hh3, Hd3, Hd2, Hq3, Hq2, Hc2. repeat split; auto.
Qed.

Lemma select_sync ctx t app :
  syncReady t app = true -> select caseSync ctx t app = Some caseSync.
Proof. intros H. unfold select. rewrite H. destruct (ctxDone ctx app); reflexivity. Qed.

Lemma run_iter_sync_ok (app : AppView) (t ctx : nat) (v : tableView) (n : nat) :
  heap app !! t = Some v ->
  sync v = S n ->
  answers (script (dataSource v)) = true ->
  lock app = false ->
  exists app' v',
    run_iter caseSync ctx t app = Done Continue app'
    /\ heap app' !! t = Some v'
    /\ sync v' = n
    /\ script (dataSource v') = tl (script (dataSource v))
    /\ draws app' = S (draws app)
    /\ lock app' = false.
Proof.
  intros Hv Hn Ha Hl.
  destruct (run_sync_ok app t v Hv Ha Hl)
    as (app' & v' & E & Hv' & Hsy & Hsc & Hd & Hl' & _).
  exists app', v'. rewrite Hn in Hsy. repeat split; auto.
  unfold run_iter. rewrite Hv, select_sync.
  - unfold bind. rewrite E. reflexivity.
  - unfold syncReady. rewrite Hv, Hn. reflexivity.
Qed.

(** C2, as stated, fails in its second part: two [Refresh] calls made
    before the loop of the root page takes the first leave two signals
    waiting, and the loop serves both: the table is redrawn twice. *)
Lemma Refresh_twice_redraws_twice :
  waiting 0 (state [EvWatch]) = 0
  /\ waiting 0 (state [EvWatch; EvRefresh 0; EvRefresh 0]) = 2
  /\ draws (state [EvWatch; EvRefresh 0; EvRefresh 0]) = 1
  /\ draws (state [EvWatch; EvRefresh 0; EvRefresh 0; EvTurn caseSync; EvTurn caseSync]) = 3
  /\ waiting 0 (state [EvWatch; EvRefresh 0; EvRefresh 0; EvTurn caseSync; EvTurn caseSync]) = 0.
Proof. vm_compute. repeat split; reflexivity. Qed.

(** C2 (amended): [Refresh] is fire-and-forget: the call returns at once,
    whatever waits on the channel.  It never drops a request: each call
    leaves one more signal waiting for the page.  The loop takes the
    signals one per turn and refreshes on each, so after two [Refresh]
    calls two turns of the loop redraw the table twice (the fetches
    succeeding) and leave waiting what waited before. *)
Theorem Refresh_signals_queue_up (app : AppView) (t ctx : nat) (v : tableView) :
  heap app !! t = Some v ->
  lock app = false ->
  answers (script (dataSource v)) = true ->
  answers (tl (script (dataSource v))) = true ->
  exists app1 app2 app3 app4,
    Refresh t app = Done tt app1
    /\ Refresh t app1 = Done tt app2
    /\ waiting t app1 = S (waiting t app)
    /\ waiting t app2 = S (S (waiting t app))
    /\ draws app2 = draws app
    /\ run_iter caseSync ctx t app2 = Done Continue app3
    /\ run_iter caseSync ctx t app3 = Done Continue app4
    /\ draws app3 = S (draws app)
    /\ draws app4 = S (S (draws app))
    /\ waiting t app4 = waiting t app.
Proof.
  intros Hv Hl Ha1 Ha2.
  assert (Hlt : t < length (heap app)) by (eapply lookup_lt_Some; eauto).
  set (v1 := set_sync (S (sync v)) v).
  set (app1 := set_heap (<[t := v1]> (heap app)) app).
  assert (Hv1 : heap app1 !! t = Some v1)
    by (apply list_lookup_insert_eq; exact Hlt).
  set (v2 := set_sync (S (sync v1)) v1).
  set (app2 := set_heap (<[t := v2]> (heap app1)) app1).
  assert (Hv2 : heap app2 !! t = Some v2).
  { apply list_lookup_insert_eq. unfold app1. simpl.
    rewrite length_insert. exact Hlt. }
  destruct (run_iter_sync_ok app2 t ctx v2 (S (sync v)) Hv2 eq_refl Ha1 Hl)
    as (app3 & v3 & E3 & Hv3 & Hsy3 & Hsc3 & Hd3 & Hl3).
  destruct (run_iter_sync_ok app3 t ctx v3 (sync v) Hv3 Hsy3)
    as (app4 & v4 & E4 & Hv4 & Hsy4 & _ & Hd4 & _);
    [rewrite Hsc3; exact Ha2|exact Hl3|].
  exists app1, app2, app3, app4.
  split; [exact (update_Done app t v (fun v => set_sync (S (sync v)) v) Hv)|].
  split; [exact (update_Done app1 t v1 (fun v => set_sync (S (sync v)) v) Hv1)|].
  unfold waiting. rewrite Hv, Hv1, Hv2, Hv4, Hd4, Hd3.
  repeat split; auto.
Qed.

Lemma Refresh_signals_queue_up_witness :
  exists app1 app2 app3 app4,
    Refresh 0 (state [EvWatch]) = Done tt app1
    /\ Refresh 0 app1 = Done tt app2
    /\ waiting 0 app2 = 2
    /\ run_iter caseSync 0 0 app2 = Done Continue app3
    /\ run_iter caseSync 0 0 app3 = Done Continue app4
    /\ draws app4 = 3
    /\ waiting 0 app4 = 0.
Proof.
  destruct (Refresh_signals_queue_up (state [EvWatch]) 0 0
              (default (init (kindOf RootPage) (feed []) NewAppView)
                 (heap (state [EvWatch]) !! 0)))
    as (app1 & app2 & app3 & app4 & E1 & E2 & _ & Hw2 & _ & E3 & E4 & _ & Hd4 & Hw4).
  - vm_compute. reflexivity.
  - vm_compute. reflexivity.
  - vm_compute. reflexivity.
  - vm_compute. reflexivity.
  - exists app1, app2, app3, app4.
    rewrite Hw2, Hd4, Hw4. repeat split; auto.
Defined.

(** ** C1: the loops [watch] starts *)

Lemma boot_one_context T version sys0 :
  boot T version = Some sys0 -> one_context sys0.
Proof.
  unfold boot.
  set (rest := modify (set_switchPage (Some 0)) ;;;
               t <~ NewTableView T RootPage ;;
               modify (set_tableViews {[ RootPage := t ]}) ;;;
               (fun app => SwitchPage RootPage (registered RootPage app) app) ;;;
               ret (@None string)).
  assert (K : keeps frame rest).
  { apply keeps_frame_bind; [apply keeps_modify; frame_fields|intros _].
    apply keeps_frame_bind; [apply keeps_NewTableView|intros t].
    apply keeps_frame_bind; [apply keeps_modify; frame_fields|intros _].
    apply keeps_frame_bind; [intros app; apply keeps_SwitchPage|intros _].
    apply keeps_ret. apply frame_refl. }
  change (Init T (inr version) NewAppView) with (rest (WithCancel NewAppView)).
  specialize (K (WithCancel NewAppView)).
  destruct (rest (WithCancel NewAppView)) as [[e|] app|app|app]; try discriminate.
  intros [= <-]. destruct K as [K1 K2 _]. simpl in *.
  split; simpl; [exact K1|rewrite K2; reflexivity|discriminate].
Qed.

(** What [watch] has done when it calls [run]. *)
Lemma watch_call_Done app app' tc :
  (recv_switchPage ;;; cancel ;;; run_call) app = Done tc app' ->
  context app = Some tc.2
  /\ ctxs app' = <[tc.2 := true]> (ctxs app)
  /\ tableViews app !! currentPage app = Some tc.1
  /\ currentPage app' = currentPage app.
Proof.
  unfold bind, recv_switchPage, cancel, run_call.
  destruct (switchPage app) as [[|n]|]; try discriminate. simpl.
  destruct (context app) as [ctx|] eqn:Hc; [|discriminate]. simpl.
  rewrite Hc.
  destruct (tableViews app !! currentPage app) as [t|]; [|discriminate].
  intros [= <- <-]. simpl. auto.
Qed.

Lemma step_watch T ev sys sys' t ctx :
  step T ev sys = Some sys' ->
  sys_watch sys' = Running t ctx ->
  sys_watch sys = Running t ctx
  \/ (recv_switchPage ;;; cancel ;;; run_call) (sys_app sys) = Done (t, ctx) (sys_app sys').
Proof.
  assert (Hcall : forall m args, call m args sys = Some sys' ->
            sys_watch sys' = sys_watch sys).
  { intros m args. unfold call.
    destruct (m (sys_app sys)); try discriminate.
    - intros [= <-]. reflexivity.
    - destruct (lock (sys_app sys)); [discriminate|]. intros [= <-]. reflexivity. }
  assert (Hret : forall m, returned m sys = Some sys' ->
            sys_watch sys' = sys_watch sys).
  { intros m. unfold returned.
    destruct (m (sys_app sys)); try discriminate.
    intros [= <-]. reflexivity. }
  unfold step. destruct (crashed sys); [discriminate|].
  destruct ev as [page p| | |r|t0|t0 r c| | |pick]; simpl;
    try (intros H Hw; left; rewrite <- Hw; symmetry;
         first [eapply Hcall; exact H|eapply Hret; exact H]).
  - destruct (sys_parked sys) as [[page p]|]; [|discriminate].
    destruct (SwitchPage_resume page p (sys_app sys)); try discriminate.
    intros [= <-]. simpl. auto.
  - destruct (sys_watch sys); try discriminate.
    destruct ((recv_switchPage;;; cancel;;; run_call) (sys_app sys))
      as [[t1 c1] app'|app'|app']; try discriminate; intros [= <-]; simpl;
      [|discriminate].
    intros [= <- <-]. right. reflexivity.
  - destruct (sys_watch sys) as [|t1 c1|]; try discriminate.
    destruct (run_iter pick c1 t1 (sys_app sys)) as [[|] app'|app'|app'];
      try discriminate; intros [= <-]; simpl; try discriminate. auto.
Qed.

Lemma step_one_context T ev sys sys' :
  one_context sys -> step T ev sys = Some sys' -> one_context sys'.
Proof.
  intros [Hc Hn Hr] Hstep.
  pose proof (step_ctx_mono _ _ _ _ Hstep) as [Mc Mn Md].
  split; [congruence|congruence|].
  intros t ctx Hw.
  destruct (step_watch _ _ _ _ _ _ Hstep Hw) as [Hold|Hnew].
  - destruct (Hr t ctx Hold) as [-> Hd]. auto.
  - apply watch_call_Done in Hnew as (Hctx & Hcs & _). simpl in Hctx, Hcs.
    assert (ctx = 0) by congruence. subst ctx. split; [reflexivity|].
    unfold ctxDone. rewrite Hcs, list_lookup_insert_eq by lia. reflexivity.
Qed.

Lemma exec_one_context T evs : forall sys sys',
  one_context sys -> exec T evs sys = Some sys' -> one_context sys'.
Proof.
  induction evs as [|ev evs IH]; simpl; intros sys sys' Hi H.
  - injection H as <-. exact Hi.
  - destruct (step T ev sys) as [sys1|] eqn:E; [|discriminate].
    eapply IH; [eapply step_one_context; eauto|exact H].
Qed.

(** A loop whose context is cancelled and that finds no signal waiting
    leaves [run] at the turn it gets, whatever the scheduler picks. *)
Lemma cancelled_loop_returns T sys t ctx pick :
  sys_watch sys = Running t ctx ->
  ctxDone ctx (sys_app sys) = true ->
  waiting t (sys_app sys) = 0 ->
  exists sys', step T (EvTurn pick) sys = Some sys' /\ loops sys' = 0
               /\ sys_app sys' = sys_app sys.
Proof.
  intros Hw Hd Hz. unfold step, crashed. simpl. rewrite Hw.
  unfold run_iter, select, syncReady.
  unfold waiting in Hz. rewrite Hd.
  destruct (heap (sys_app sys) !! t) as [v|].
  - rewrite Hz. simpl. eexists. split; [reflexivity|]. split; reflexivity.
  - eexists. split; [reflexivity|]. split; reflexivity.
Qed.

(** A loop whose context is cancelled can leave [run] at any turn: the
    [select] may pick [<-ctx.Done()] even while signals wait. *)
Lemma cancelled_loop_may_return T sys t ctx :
  sys_watch sys = Running t ctx ->
  ctxDone ctx (sys_app sys) = true ->
  exists sys', step T (EvTurn caseDone) sys = Some sys' /\ loops sys' = 0.
Proof.
  intros Hw Hd. unfold step, crashed. simpl. rewrite Hw.
  unfold run_iter, select. rewrite Hd.
  destruct (heap (sys_app sys) !! t) as [v|].
  - destruct (syncReady t (sys_app sys)); eexists; split; reflexivity.
  - eexists. split; reflexivity.
Qed.

(** The same in one piece: a turn of [watch] on a page for which no signal
    waits starts the loop and sees it return at once, whatever the
    scheduler picks; the context it passed is the one it cancelled. *)
Lemma watch_iter_returns (app : AppView) (n ctx t : nat) (v : tableView)
    (pick : selectCase) (picks : list selectCase) :
  switchPage app = Some (S n) ->
  context app = Some ctx ->
  ctx < length (ctxs app) ->
  tableViews app !! currentPage app = Some t ->
  heap app !! t = Some v ->
  sync v = 0 ->
  watch_iter (pick :: picks) app
  = Done tt (set_ctxs (<[ctx := true]> (ctxs app)) (set_switchPage (Some n) app)).
Proof.
  intros Hs Hc Hlt Ht Hv Hz.
  unfold watch_iter, bind, recv_switchPage, cancel, run_call.
  rewrite Hs. simpl. rewrite Hc. simpl. rewrite Ht, Hc. simpl.
  unfold bind, run_iter, select, syncReady, ctxDone. simpl.
  rewrite Hv, Hz, list_lookup_insert_eq by exact Hlt. reflexivity.
Qed.

Example watch_iter_settle :
  watch_iter [caseDone] (state []) = Done tt (state settle).
Proof. vm_compute. reflexivity. Qed.

Example quick_succession :
  pointer (after (settle ++ [EvNavigate 1; EvNavigate 2; EvWatch;
                             EvResume; EvTurn caseDone; EvWatch; EvTurn caseDone]))
    = Some "deployments"
  /\ (loops <$> after (settle ++ [EvNavigate 1; EvNavigate 2; EvWatch;
                                  EvResume; EvTurn caseDone; EvWatch; EvTurn caseDone]))
     = Some 0.
Proof. vm_compute. split; reflexivity. Qed.

(** C1 does not hold of the code.  What holds instead, in every state the
    program reaches after [Init]: the application has the one context
    made in [Init] and no other is ever made, so page activations share
    it; no loop is watching, because a loop that is inside [run] was
    given that context already cancelled; such a loop may leave [run] at
    any turn, and when no signal waits for its page it does at its next
    turn, leaving no loop behind although its page is current. *)
Theorem watch_reuses_cancelled_context (T : Tables) (version : string) (sys : System) :
  reachable T version sys ->
  context (sys_app sys) = Some 0
  /\ length (ctxs (sys_app sys)) = 1
  /\ watching sys = 0
  /\ forall t ctx, sys_watch sys = Running t ctx ->
       ctx = 0
       /\ ctxDone ctx (sys_app sys) = true
       /\ (exists sys', step T (EvTurn caseDone) sys = Some sys' /\ loops sys' = 0)
       /\ (waiting t (sys_app sys) = 0 ->
           forall pick, exists sys',
             step T (EvTurn pick) sys = Some sys'
             /\ loops sys' = 0
             /\ currentPage (sys_app sys') = currentPage (sys_app sys)).
Proof.
  intros (sys0 & evs & Hb & He).
  pose proof (exec_one_context T evs sys0 sys (boot_one_context _ _ _ Hb) He)
    as [Hc Hn Hr].
  split; [exact Hc|]. split; [exact Hn|]. split.
  - unfold watching. destruct (sys_watch sys) as [|t ctx|] eqn:Hw; auto.
    destruct (Hr t ctx eq_refl) as [-> ->]. reflexivity.
  - intros t ctx Hw. destruct (Hr t ctx Hw) as [-> Hd].
    split; [reflexivity|]. split; [exact Hd|].
    split; [exact (cancelled_loop_may_return T sys t 0 Hw Hd)|].
    intros Hz pick.
    destruct (cancelled_loop_returns T sys t 0 pick Hw Hd Hz) as (sys' & E & Hl & Ha).
    exists sys'. rewrite Ha. auto.
Qed.

(** The program after root, "pods", "deployments": "deployments" is
    current and no refresh loop is left; the loop [watch] had started for
    "deployments" held the cancelled context of [Init] and returned at its
    first turn. *)
Lemma watch_reuses_cancelled_context_witness :
  pointer (after walk) = Some "deployments"
  /\ (loops <$> after walk) = Some 0
  /\ context (sys_app (system started)) = Some 0
  /\ length (ctxs (sys_app (system started))) = 1
  /\ watching (system started) = 0
  /\ sys_watch (system started) = Running 2 0
  /\ ctxDone 0 (sys_app (system started)) = true
  /\ exists sys', step demo (EvTurn caseSync) (system started) = Some sys'
                  /\ loops sys' = 0
                  /\ currentPage (sys_app sys') = "deployments".
Proof.
  split; [vm_compute; reflexivity|]. split; [vm_compute; reflexivity|].
  destruct (watch_reuses_cancelled_context demo "v1.14.1" (system started))
    as (H1 & H2 & H3 & H4).
  - exists (system []), started. split; vm_compute; reflexivity.
  - assert (Hw : sys_watch (system started) = Running 2 0)
      by (vm_compute; reflexivity).
    destruct (H4 2 0 Hw) as (_ & Hd & _ & Hturn).
    destruct (Hturn ltac:(vm_compute; reflexivity) caseSync)
      as (sys' & E & Hl & Hc).
    do 5 (split; [assumption|]).
    exists sys'. split; [exact E|]. split; [exact Hl|].
    rewrite Hc. vm_compute. reflexivity.
Defined.

(** * Further properties *)

(** ** What leaves the registry, the pointer and the signals alone *)

Lemma settled_refl app : settled app app.
Proof. split; auto. Qed.

Lemma settled_trans a b c : settled a b -> settled b c -> settled a c.
Proof. intros [H1 H2 H3] [K1 K2 K3]. split; congruence. Qed.

Lemma steady_refl app : steady app app.
Proof. split; auto using settled_refl. Qed.

Lemma steady_trans a b c : steady a b -> steady b c -> steady a c.
Proof.
  intros [H1 H2] [K1 K2]. split; [eapply settled_trans; eauto|].
  intros t. rewrite K2. apply H2.
Qed.

Lemma moved_refl page app : moved page app app.
Proof. split; auto. Qed.

Lemma moved_trans page a b c : moved page a b -> moved page b c -> moved page a c.
Proof.
  intros [H1 H2 H3 H4] [K1 K2 K3 K4]. split.
  - congruence.
  - destruct K2 as [K2|K2]; [rewrite K2; exact H2|auto].
  - congruence.
  - intros t. rewrite K4. apply H4.
Qed.

Lemma steady_settled a b : steady a b -> settled a b.
Proof. intros [H _]. exact H. Qed.

Lemma steady_moved page a b : steady a b -> moved page a b.
Proof. intros [[H1 H2 H3] H4]. split; auto. Qed.

Lemma keeps_steady_bind {A B : Type} (m : M A) (k : A -> M B) :
  keeps steady m -> (forall a, keeps steady (k a)) -> keeps steady (bind m k).
Proof. apply keeps_bind. apply steady_trans. Qed.

Lemma keeps_steady_ret {A : Type} (a : A) : keeps steady (ret a).
Proof. apply keeps_ret. apply steady_refl. Qed.

(** A state change that touches neither the registry, the pointer nor the
    heap. *)
Lemma steady_fields (f : AppView -> AppView) :
  (forall app, tableViews (f app) = tableViews app) ->
  (forall app, currentPage (f app) = currentPage app) ->
  (forall app, heap (f app) = heap app) ->
  keeps steady (modify f).
Proof.
  intros H1 H2 H3 app. simpl. repeat split; auto.
  - rewrite H3. reflexivity.
  - intros t. unfold waiting. rewrite H3. reflexivity.
Qed.

Ltac steady_modify := apply steady_fields; intros; reflexivity.

Lemma steady_Lock : keeps steady Lock.
Proof.
  intros app. unfold Lock. destruct (lock app); simpl; [apply steady_refl|].
  apply (steady_fields (set_lock true)); intros; reflexivity.
Qed.

Lemma steady_Unlock : keeps steady Unlock.
Proof. unfold Unlock. steady_modify. Qed.

Lemma steady_send_switchPage : keeps steady send_switchPage.
Proof.
  intros app. unfold send_switchPage.
  destruct (switchPage app) as [n|]; simpl; [|apply steady_refl].
  destruct (decide (n < switchPage_cap)); simpl; [|apply steady_refl].
  apply (steady_fields (set_switchPage (Some (S n)))); intros; reflexivity.
Qed.

Lemma steady_SwitchPage_show page p : keeps steady (SwitchPage_show page p).
Proof.
  unfold SwitchPage_show.
  repeat (apply keeps_steady_bind; [|intros ?]); steady_modify.
Qed.

Lemma steady_SwitchPage_resume page p : keeps steady (SwitchPage_resume page p).
Proof.
  unfold SwitchPage_resume.
  apply keeps_steady_bind; [apply steady_send_switchPage|intros _].
  apply keeps_steady_bind; [apply steady_Unlock|intros _].
  apply steady_SwitchPage_show.
Qed.

(** [SwitchPage] moves the pointer to its page or not at all. *)
Lemma moved_SwitchPage page p : keeps (moved page) (SwitchPage page p).
Proof.
  unfold SwitchPage.
  apply keeps_bind; [apply moved_trans| |intros _].
  { eapply keeps_weaken; [apply steady_moved|apply steady_Lock]. }
  apply keeps_bind; [apply moved_trans| |intros _].
  - intros app. destruct (decide (currentPage app ≠ page)); simpl;
      [|apply moved_refl].
    apply (keeps_bind (moved page) (moved_trans page)
             (modify (set_currentPage page)) (fun _ => send_switchPage)).
    + intros app0. simpl. split; simpl; auto.
    + intros _. eapply keeps_weaken; [apply steady_moved|apply steady_send_switchPage].
  - eapply keeps_weaken; [apply steady_moved|].
    apply keeps_steady_bind; [apply steady_Unlock|intros _].
    apply steady_SwitchPage_show.
Qed.

(** A [SwitchPage] to the page that is current. *)
Lemma steady_SwitchPage_same p :
  keeps steady (fun app => SwitchPage (currentPage app) p app).
Proof.
  intros app. destruct (moved_SwitchPage (currentPage app) p app) as [H1 H2 H3 H4].
  repeat split; auto. destruct H2; auto.
Qed.

Lemma steady_LastPage : keeps steady LastPage.
Proof.
  unfold LastPage.
  apply keeps_steady_bind; [steady_modify|intros _].
  apply keeps_steady_bind; [intros app; apply steady_refl|intros page].
  apply keeps_steady_bind; [|intros _]; steady_modify.
Qed.

Lemma steady_deref t : keeps steady (deref t).
Proof. intros app. unfold deref. destruct (heap app !! t); apply steady_refl. Qed.

Lemma waiting_insert t t' v w app :
  heap app !! t = Some v -> sync w = sync v ->
  waiting t' (set_heap (<[t := w]> (heap app)) app) = waiting t' app.
Proof.
  intros Hv Hs. unfold waiting. simpl.
  destruct (decide (t = t')) as [<-|Hne].
  - rewrite list_lookup_insert_eq by (eapply lookup_lt_Some; eauto).
    rewrite Hv. exact Hs.
  - rewrite list_lookup_insert_ne by exact Hne. reflexivity.
Qed.

(** An update in place that leaves the channel of the view alone. *)
Lemma steady_update t f :
  (forall v, sync (f v) = sync v) -> keeps steady (update t f).
Proof.
  intros Hf app. unfold update, bind, deref.
  destruct (heap app !! t) as [v|] eqn:Hv; simpl; [|apply steady_refl].
  repeat split; simpl; auto.
  - apply length_insert.
  - intros t'. eapply waiting_insert; eauto.
Qed.

(** Any update in place leaves the registry, the pointer and the size of
    the heap. *)
Lemma settled_update t f : keeps settled (update t f).
Proof.
  intros app. unfold update, bind, deref.
  destruct (heap app !! t) as [v|] eqn:Hv; simpl; [|apply settled_refl].
  split; simpl; auto. apply length_insert.
Qed.

Lemma steady_draw t : keeps steady (draw t).
Proof.
  unfold draw.
  apply keeps_steady_bind; [apply steady_deref|intros v].
  apply keeps_steady_bind; [apply steady_update; intros v0; reflexivity|intros _].
  steady_modify.
Qed.

Lemma steady_refresh t : keeps steady (refresh t).
Proof.
  unfold refresh.
  apply keeps_steady_bind; [apply steady_deref|intros v].
  destruct (DataSource_Refresh (dataSource v)) as [err ds].
  apply keeps_steady_bind; [apply steady_update; intros v0; reflexivity|intros _].
  destruct err; [apply keeps_steady_ret|].
  apply keeps_steady_bind; [apply steady_draw|intros _]. apply keeps_steady_ret.
Qed.

Lemma steady_UpdateStatus t status isError :
  keeps steady (UpdateStatus t status isError).
Proof.
  intros app. unfold UpdateStatus.
  apply (final_bind steady); [apply steady_trans| |intros pages].
  { destruct (tableViews app !! currentPage app);
      [apply keeps_AddPage|apply keeps_ret]; apply steady_refl. }
  apply keeps_steady_bind; [apply keeps_AddPage, steady_refl|intros pages'].
  apply keeps_steady_bind; [apply steady_SwitchPage_same|intros _].
  apply keeps_steady_bind; [steady_modify|intros _].
  apply keeps_steady_ret.
Qed.

Lemma steady_ShowMenu : keeps steady ShowMenu.
Proof.
  intros app. unfold ShowMenu. destruct (showMenu app); simpl; [apply steady_refl|].
  apply (keeps_steady_bind CurrentPage); [intros app0; apply steady_refl|intros cur].
  apply keeps_steady_bind; [apply keeps_AddPage, steady_refl|intros pages].
  apply keeps_steady_bind; [apply keeps_AddPage, steady_refl|intros pages'].
  apply keeps_steady_bind; [apply steady_SwitchPage_same|intros _].
  apply keeps_steady_bind; [|intros _]; steady_modify.
Qed.

Lemma steady_InsertDialog name page dialog :
  keeps steady (InsertDialog name page dialog).
Proof.
  unfold InsertDialog.
  apply keeps_steady_bind; [apply keeps_AddPage, steady_refl|intros pages].
  apply keeps_steady_bind; [apply keeps_AddPage, steady_refl|intros pages'].
  apply keeps_steady_bind; [apply steady_SwitchPage_same|intros _]. steady_modify.
Qed.

Lemma grown_steady a b c : grown a b -> steady b c -> grown a c.
Proof.
  intros [H1 H2 H3 H4] [[K1 K2 K3] K4]. split.
  - congruence.
  - congruence.
  - congruence.
  - intros t. rewrite K4. apply H4.
Qed.

(** Allocating a view: the views there were keep their channels, and the
    new one has nothing waiting. *)
Lemma grown_alloc (v : tableView) app :
  sync v = 0 -> grown app (set_heap (heap app ++ [v]) app).
Proof.
  intros Hv. split; simpl; auto.
  - rewrite length_app. simpl. lia.
  - intros t. unfold waiting. simpl.
    destruct (heap app !! t) as [w|] eqn:Hw.
    + rewrite lookup_app_l by (eapply lookup_lt_Some; eauto). rewrite Hw. reflexivity.
    + apply lookup_ge_None in Hw.
      destruct (decide (t = length (heap app))) as [->|Hne].
      * rewrite lookup_app_r by lia. rewrite Nat.sub_diag. simpl. apply Hv.
      * rewrite lookup_ge_None_2; [reflexivity|].
        rewrite length_app. simpl. lia.
Qed.

(** [NewTableViewWithArgs] allocates one view and, whatever the fetch
    answers, leaves the registry, the pointer and the signals alone. *)
Lemma grown_NewTableViewWithArgs kind feeder app :
  grown app (final (NewTableViewWithArgs kind (Some feeder) app)).
Proof.
  unfold NewTableViewWithArgs. rewrite final_bind_eq. unfold modify at 1.
  eapply grown_steady; [apply (grown_alloc (init kind feeder app)); reflexivity|].
  set (app1 := set_heap _ app).
  assert (K : keeps steady
            (err <~ refresh (length (heap app)) ;;
             match err with
             | Some e => UpdateStatus (length (heap app)) e true ;;; ret (length (heap app))
             | None => ret (length (heap app))
             end)).
  { apply keeps_steady_bind; [apply steady_refresh|intros err].
    destruct err; [|apply keeps_steady_ret].
    apply keeps_steady_bind; [apply steady_UpdateStatus|intros _].
    apply keeps_steady_ret. }
  apply (K app1).
Qed.

(** [NewTableView] is [NewTableViewWithArgs] at the entry of [ViewMap]. *)
Lemma NewTableView_WithArgs T kind app :
  NewTableView T kind app
  = NewTableViewWithArgs (View_Kind (default zeroView (ViewMap T !! kind)))
      (Feeder (default zeroView (ViewMap T !! kind))) app.
Proof. reflexivity. Qed.

Lemma steady_userSelect t r c : keeps steady (userSelect t r c).
Proof.
  unfold userSelect, selectionChanged.
  apply keeps_steady_bind; [apply steady_update; intros v; reflexivity|intros _].
  apply keeps_steady_bind; [apply steady_deref|intros v]. steady_modify.
Qed.

Lemma steady_UpdateWithSearch t srch : keeps steady (UpdateWithSearch t srch).
Proof. apply steady_update. intros v. reflexivity. Qed.

Lemma steady_recv_switchPage : keeps steady recv_switchPage.
Proof.
  intros app. unfold recv_switchPage.
  destruct (switchPage app) as [[|n]|]; simpl; try apply steady_refl.
  apply (steady_fields (set_switchPage (Some n))); intros; reflexivity.
Qed.

Lemma steady_cancel : keeps steady cancel.
Proof.
  intros app. unfold cancel.
  destruct (context app) as [ctx|]; simpl; [|apply steady_refl].
  apply (steady_fields (set_ctxs (<[ctx:=true]> (ctxs app)))); intros; reflexivity.
Qed.

Lemma steady_run_call : keeps steady run_call.
Proof.
  intros app. unfold run_call.
  destruct (tableViews app !! currentPage app), (context app); apply steady_refl.
Qed.

Lemma settled_Refresh t : keeps settled (Refresh t).
Proof. apply settled_update. Qed.

Lemma settled_run_sync t : keeps settled (run_sync t).
Proof.
  unfold run_sync.
  apply keeps_bind; [apply settled_trans|apply settled_update|intros _].
  eapply keeps_weaken; [apply steady_settled|].
  apply keeps_steady_bind; [apply steady_refresh|intros err].
  apply keeps_steady_bind; [|intros _; apply steady_SwitchPage_same].
  destruct err; [|apply keeps_steady_ret].
  apply keeps_steady_bind; [apply steady_UpdateStatus|intros _].
  apply keeps_steady_ret.
Qed.

Lemma settled_run_iter pick ctx t : keeps settled (run_iter pick ctx t).
Proof.
  intros app. unfold run_iter.
  destruct (heap app !! t); [|apply settled_refl].
  destruct (select pick ctx t app) as [[|]|]; try apply settled_refl.
  apply (final_bind settled); [apply settled_trans|apply settled_run_sync|].
  intros _. apply keeps_ret. apply settled_refl.
Qed.

(** ** Start-up *)

(** Without an entry for the root page in [ViewMap], or with a nil feeder
    in it, [Init] panics in the first [refresh]. *)
Lemma Init_panics_without_feeder (T : Tables) (version : string) :
  Feeder (default zeroView (ViewMap T !! RootPage)) = None ->
  exists app, Init T (inr version) NewAppView = Crash app.
Proof.
  intros Hf. unfold Init, bind, modify, NewTableView. simpl. rewrite Hf. eauto.
Qed.

(** [Init] with the server version in hand, and with a feeder for the
    root page in [ViewMap], always returns without error, whatever the
    root feed answers.  It leaves the root page current and registered to
    the one view there is, that view shown and focused, one switch signal
    buffered for [watch], the one context not cancelled and the mutex
    free; a failed first fetch of the root table started the status
    goroutine and drew nothing.  Without a server version it returns the
    error and leaves the state as it was. *)
Theorem Init_establishes (T : Tables) (version : string) (view : View)
    (feeder : DataSource) :
  ViewMap T !! RootPage = Some view ->
  Feeder view = Some feeder ->
  (exists app v,
     Init T (inr version) NewAppView = Done None app
     /\ currentPage app = RootPage
     /\ tableViews app = {[ RootPage := 0 ]}
     /\ heap app = [v]
     /\ resourceKind v = View_Kind view
     /\ sync v = 0
     /\ switchPage app = Some 1
     /\ context app = Some 0
     /\ ctxs app = [false]
     /\ lock app = false
     /\ showMenu app = false
     /\ frontPage app = Some (RootPage, TableP 0)
     /\ focus app = TableP 0
     /\ (draws app, sleepers app)
        = (if answers (script feeder) then (1, 0) else (0, 1)))
  /\ (forall err app, Init T (inl err) app = Done (Some err) app).
Proof.
  intros Hview Hfeeder. split; [|reflexivity].
  unfold Init, NewTableView. rewrite Hview. simpl default. rewrite Hfeeder.
  clear Hview Hfeeder. destruct view as [k f]. destruct feeder as [sc h d].
  destruct sc as [|[e|[h' d']] rest];
    eexists _, _; (split; [vm_compute; reflexivity|]);
    vm_compute; repeat split; reflexivity.
Qed.

Lemma Init_establishes_witness :
  exists app v,
    Init demo (inr "v1.14.1") NewAppView = Done None app
    /\ heap app = [v]
    /\ focus app = TableP 0
    /\ draws app = 1.
Proof.
  destruct (Init_establishes demo "v1.14.1"
              {| View_Kind := kindOf RootPage;
                 Feeder := Some (feed [["pods"]; ["deployments"]]) |}
              (feed [["pods"]; ["deployments"]]))
    as ((app & v & E & _ & _ & Hh & _ & _ & _ & _ & _ & _ & _ & _ & Hf & Hd) & _).
  - vm_compute. reflexivity.
  - reflexivity.
  - exists app, v. split; [exact E|]. split; [exact Hh|]. split; [exact Hf|].
    change (draws app) with (draws app, sleepers app).1. rewrite Hd. reflexivity.
Defined.

(** ** Panics of [watch] *)

Lemma SwitchPage_no_crash page p app app' : SwitchPage page p app <> Crash app'.
Proof.
  unfold SwitchPage, SwitchPage_show, Lock, Unlock, modify, bind, send_switchPage.
  destruct (lock app); [discriminate|]. simpl.
  destruct (decide (currentPage app ≠ page)) as [Hne|Heq]; simpl; [|discriminate].
  destruct (switchPage app) as [k|]; [|discriminate].
  destruct (decide (k < switchPage_cap)); discriminate.
Qed.

(** [refresh] of a live view returns. *)
Lemma refresh_returns t v app :
  heap app !! t = Some v -> exists err app1, refresh t app = Done err app1.
Proof.
  intros Hv. destruct (answers (script (dataSource v))) eqn:Ha.
  - destruct (refresh_ok app t v Hv Ha) as (app1 & v1 & E & _). eauto.
  - unfold answers in Ha.
    destruct (script (dataSource v)) as [|[e|x] rest] eqn:Hs; try discriminate.
    erewrite refresh_error by eauto. eauto.
Qed.

(** A turn of the loop of a live view whose fetch succeeds does not
    panic. *)
Lemma run_iter_no_crash pick ctx t v app app' :
  heap app !! t = Some v ->
  answers (script (dataSource v)) = true ->
  run_iter pick ctx t app <> Crash app'.
Proof.
  intros Hv Ha. unfold run_iter. rewrite Hv.
  destruct (select pick ctx t app) as [[|]|]; try discriminate.
  unfold bind at 1. unfold run_sync. unfold bind at 1.
  erewrite update_Done by eassumption.
  set (app1 := set_heap _ app).
  assert (Hv1 : heap app1 !! t = Some (set_sync (pred (sync v)) v)).
  { apply list_lookup_insert_eq. eapply lookup_lt_Some; eauto. }
  destruct (refresh_ok app1 t _ Hv1 Ha) as (app2 & v2 & E2 & _).
  unfold bind at 1. rewrite E2. unfold bind at 1. unfold ret at 1.
  destruct (SwitchPage (currentPage app2) (TableP t) app2) as [u' b|b|b] eqn:E4;
    try discriminate.
  exfalso. eapply SwitchPage_no_crash; eauto.
Qed.

(** With the current page not registered, the turn of [watch] panics on
    the nil receiver. *)
Lemma watch_call_Crash app n ctx :
  switchPage app = Some (S n) ->
  context app = Some ctx ->
  tableViews app !! currentPage app = None ->
  exists app', (recv_switchPage ;;; cancel ;;; run_call) app = Crash app'.
Proof.
  intros Hs Hc Ht. unfold bind, recv_switchPage, cancel, run_call.
  rewrite Hs. simpl. rewrite Hc. simpl. rewrite Ht. eauto.
Qed.

(** A call of [SwitchPage] with a page name that has no registered table
    view, made from another page while the signal buffer is empty,
    returns; the next turn of [watch] then dereferences the nil view of
    that name and panics, and the program is over. *)
Theorem SwitchPage_unregistered_kills_watch (T : Tables) (sys : System)
    (page : string) (p : tview_Primitive) :
  sys_watch sys = Waiting ->
  lock (sys_app sys) = false ->
  switchPage (sys_app sys) = Some 0 ->
  is_Some (context (sys_app sys)) ->
  currentPage (sys_app sys) <> page ->
  tableViews (sys_app sys) !! page = None ->
  exists sys1 sys2,
    step T (EvSwitchPage page p) sys = Some sys1
    /\ currentPage (sys_app sys1) = page
    /\ frontPage (sys_app sys1) = Some (page, p)
    /\ step T EvWatch sys1 = Some sys2
    /\ sys_watch sys2 = Dead
    /\ (forall picks, exists app', watch_iter picks (sys_app sys1) = Crash app')
    /\ (forall ev, step T ev sys2 = None).
Proof.
  intros Hw Hl Hs [ctx Hc] Hne Ht.
  destruct (SwitchPage_returns page p (sys_app sys) Hl (or_intror Hs)) as (app1 & E).
  pose proof (keeps_Done frame _ _ _ _ (keeps_SwitchPage page p) E) as [Hctx _ _].
  pose proof (SwitchPage_Done _ _ _ _ E)
    as (Hc1 & _ & Hf1 & _ & _ & _ & Htv & _ & _ & _ & _ & Hsw).
  destruct (decide (currentPage (sys_app sys) ≠ page)) as [_|Heq];
    [|contradiction].
  destruct Hsw as [_ Hs1].
  assert (Ht1 : tableViews app1 !! currentPage app1 = None)
    by (rewrite Hc1, Htv; exact Ht).
  assert (Hc1' : context app1 = Some ctx) by congruence.
  destruct (watch_call_Crash app1 0 ctx Hs1 Hc1' Ht1) as (app2 & E2).
  eexists _, _. split.
  { unfold step, crashed. rewrite Hw. simpl. unfold call. rewrite E. reflexivity. }
  simpl. split; [exact Hc1|]. split; [exact Hf1|]. split.
  { unfold step, crashed. simpl. rewrite Hw. rewrite E2. reflexivity. }
  simpl. split; [reflexivity|]. split.
  - intros picks. exists app2. unfold watch_iter.
    change ((recv_switchPage ;;; cancel ;;; tc <~ run_call ;; run picks tc.2 tc.1) app1)
      with (bind recv_switchPage (fun _ => bind cancel (fun _ =>
              bind run_call (fun tc => run picks tc.2 tc.1))) app1).
    revert E2. unfold bind.
    destruct (recv_switchPage app1) as [u a|a|a]; try discriminate;
      [|intros [= <-]; reflexivity].
    destruct (cancel a) as [u' b|b|b]; try discriminate;
      [|intros [= <-]; reflexivity].
    destruct (run_call b) as [tc c|c|c]; try discriminate.
    intros [= <-]. reflexivity.
  - intros ev. reflexivity.
Qed.

Lemma SwitchPage_unregistered_kills_watch_witness :
  exists sys1 sys2,
    step demo (EvSwitchPage "pod/web-0" detail) (system settle) = Some sys1
    /\ currentPage (sys_app sys1) = "pod/web-0"
    /\ step demo EvWatch sys1 = Some sys2
    /\ sys_watch sys2 = Dead
    /\ step demo (EvNavigate 0) sys2 = None.
Proof.
  destruct (SwitchPage_unregistered_kills_watch demo (system settle)
              "pod/web-0" detail)
    as (sys1 & sys2 & E1 & Hc & _ & E2 & Hd & _ & Hn).
  - vm_compute. reflexivity.
  - vm_compute. reflexivity.
  - vm_compute. reflexivity.
  - vm_compute. eauto.
  - vm_compute. discriminate.
  - vm_compute. reflexivity.
  - exists sys1, sys2. repeat split; auto.
Defined.

(** ** Switching pages through [Navigate] *)

Lemma registry_settled a b : settled a b -> registry_ok a -> registry_ok b.
Proof.
  intros [H1 H2 H3] [R1 R2]. split.
  - intros k t Hk. rewrite H1 in Hk. apply R1 in Hk. lia.
  - rewrite H1, H2. exact R2.
Qed.

Lemma registry_grown a b : grown a b -> registry_ok a -> registry_ok b.
Proof.
  intros [H1 H2 H3 _] [R1 R2]. split.
  - intros k t Hk. rewrite H1 in Hk. apply R1 in Hk. lia.
  - rewrite H1, H2. exact R2.
Qed.

Lemma registry_moved page a b :
  moved page a b -> registry_ok a -> is_Some (tableViews a !! page) ->
  registry_ok b.
Proof.
  intros [H1 H2 H3 _] [R1 R2] Hp. split.
  - intros k t Hk. rewrite H1 in Hk. apply R1 in Hk. lia.
  - rewrite H1. destruct H2 as [-> | ->]; assumption.
Qed.

(** The view [NewTableViewWithArgs] returns is the one it allocated, at
    the end of the heap as it was. *)
Lemma NewTableViewWithArgs_Done kind feeder app t app1 :
  NewTableViewWithArgs kind feeder app = Done t app1 ->
  t = length (heap app) /\ grown app app1.
Proof.
  intros E. destruct feeder as [feeder|]; [|discriminate].
  pose proof (grown_NewTableViewWithArgs kind feeder app) as K.
  rewrite E in K. simpl in K. split; [|exact K].
  revert E. unfold NewTableViewWithArgs, bind, modify, ret.
  destruct (refresh _ _) as [[e|] a|a|a]; try discriminate.
  - destruct (UpdateStatus _ _ _ _) as [u b|b|b]; try discriminate.
    intros [= <- _]. reflexivity.
  - intros [= <- _]. reflexivity.
Qed.

(** [Navigate] keeps the registry sound in whatever state it ends or
    parks. *)
Lemma Navigate_registry T r app :
  registry_ok app ->
  registry_ok (final (Navigate T r app))
  /\ length (heap app) <= length (heap (final (Navigate T r app))).
Proof.
  intros Hr. unfold Navigate.
  destruct (PageNav T !! r) as [kind|]; [|simpl; split; [assumption|lia]].
  rewrite final_bind_eq. cbv beta.
  destruct (tableViews app !! kind) as [t0|] eqn:Hk; cbv beta iota.
  - pose proof (moved_SwitchPage kind (registered kind app) app) as Hm.
    split; [|destruct Hm as [_ _ Hm _]; lia].
    eapply registry_moved; [exact Hm|exact Hr|rewrite Hk; eauto].
  - set (o := (t <~ NewTableView T kind ;;
               modify (fun app0 => set_tableViews (<[kind:=t]> (tableViews app0)) app0))
                app).
    assert (Ho : o = match NewTableViewWithArgs
                           (View_Kind (default zeroView (ViewMap T !! kind)))
                           (Feeder (default zeroView (ViewMap T !! kind))) app with
                     | Done t a1 =>
                         Done tt (set_tableViews (<[kind:=t]> (tableViews a1)) a1)
                     | Parked a => Parked a
                     | Crash a => Crash a
                     end) by reflexivity.
    rewrite Ho. clear o Ho.
    destruct (Feeder (default zeroView (ViewMap T !! kind))) as [feeder|];
      [|simpl; split; [exact Hr|lia]].
    pose proof (grown_NewTableViewWithArgs
                  (View_Kind (default zeroView (ViewMap T !! kind)))
                  feeder app) as Ks.
    destruct (NewTableViewWithArgs _ _ app) as [t a1|a1|a1] eqn:E; simpl in Ks.
    + apply NewTableViewWithArgs_Done in E as (-> & [Htv Hcp Hlen _]).
      set (a2 := set_tableViews _ a1).
      assert (Hr2 : registry_ok a2).
      { destruct Hr as [R1 R2]. split; simpl.
        - intros k t. rewrite Htv. rewrite lookup_insert.
          destruct (decide (kind = k)); [intros [= <-]; lia|].
          intros Hkt. apply R1 in Hkt. lia.
        - rewrite Htv, Hcp. rewrite lookup_insert.
          destruct (decide (kind = currentPage app)); [eauto|exact R2]. }
      pose proof (moved_SwitchPage kind (registered kind a2) a2) as Hm.
      split.
      * eapply registry_moved; [exact Hm|exact Hr2|].
        simpl. rewrite lookup_insert_eq. eauto.
      * destruct Hm as [_ _ Hm _]. change (heap a2) with (heap a1) in Hm. lia.
    + simpl. split; [eapply registry_grown; eauto|].
      destruct Ks as [_ _ Ks _]. lia.
    + simpl. split; [eapply registry_grown; eauto|].
      destruct Ks as [_ _ Ks _]. lia.
Qed.

(** ** Feeds that do not fail *)

Lemma hale_refl app : hale app app.
Proof. intros H. exact H. Qed.

Lemma hale_trans a b c : hale a b -> hale b c -> hale a c.
Proof. unfold hale. auto. Qed.

Lemma inert_refl app : inert app app.
Proof. reflexivity. Qed.

Lemma inert_trans a b c : inert a b -> inert b c -> inert a c.
Proof. unfold inert. congruence. Qed.

Lemma inert_hale a b : inert a b -> hale a b.
Proof. intros H Hh t v. rewrite H. apply Hh. Qed.

Lemma keeps_inert_bind {A B : Type} (m : M A) (k : A -> M B) :
  keeps inert m -> (forall a, keeps inert (k a)) -> keeps inert (bind m k).
Proof. apply keeps_bind. apply inert_trans. Qed.

Lemma keeps_hale_bind {A B : Type} (m : M A) (k : A -> M B) :
  keeps hale m -> (forall a, keeps hale (k a)) -> keeps hale (bind m k).
Proof. apply keeps_bind. apply hale_trans. Qed.

Lemma inert_fields (f : AppView -> AppView) :
  (forall app, heap (f app) = heap app) -> keeps inert (modify f).
Proof. intros H app. apply H. Qed.

Ltac inert_modify := apply inert_fields; intros; reflexivity.

Lemma inert_keeps_hale {A : Type} (m : M A) : keeps inert m -> keeps hale m.
Proof. apply keeps_weaken. apply inert_hale. Qed.

Lemma inert_Lock : keeps inert Lock.
Proof. intros app. unfold Lock. destruct (lock app); reflexivity. Qed.

Lemma inert_send_switchPage : keeps inert send_switchPage.
Proof.
  intros app. unfold send_switchPage.
  destruct (switchPage app) as [n|]; [|reflexivity].
  destruct (decide (n < switchPage_cap)); reflexivity.
Qed.

Lemma inert_SwitchPage_show page p : keeps inert (SwitchPage_show page p).
Proof.
  unfold SwitchPage_show.
  repeat (apply keeps_inert_bind; [|intros ?]); inert_modify.
Qed.

Lemma inert_SwitchPage page p : keeps inert (SwitchPage page p).
Proof.
  unfold SwitchPage.
  apply keeps_inert_bind; [apply inert_Lock|intros _].
  apply keeps_inert_bind; [|intros _].
  - intros app. destruct (decide (currentPage app ≠ page)); simpl; [|reflexivity].
    apply (keeps_inert_bind (modify (set_currentPage page)) (fun _ => send_switchPage));
      [inert_modify|intros _; apply inert_send_switchPage].
  - apply keeps_inert_bind; [unfold Unlock; inert_modify|intros _].
    apply inert_SwitchPage_show.
Qed.

Lemma inert_SwitchPage_resume page p : keeps inert (SwitchPage_resume page p).
Proof.
  unfold SwitchPage_resume.
  apply keeps_inert_bind; [apply inert_send_switchPage|intros _].
  apply keeps_inert_bind; [unfold Unlock; inert_modify|intros _].
  apply inert_SwitchPage_show.
Qed.

Lemma inert_LastPage : keeps inert LastPage.
Proof.
  unfold LastPage.
  apply keeps_inert_bind; [inert_modify|intros _].
  apply keeps_inert_bind; [intros app; reflexivity|intros page].
  apply keeps_inert_bind; [|intros _]; inert_modify.
Qed.

Lemma inert_UpdateStatus t status isError :
  keeps inert (UpdateStatus t status isError).
Proof.
  intros app. unfold UpdateStatus.
  apply (final_bind inert); [apply inert_trans| |intros pages].
  { destruct (tableViews app !! currentPage app);
      [apply keeps_AddPage|apply keeps_ret]; apply inert_refl. }
  apply keeps_inert_bind; [apply keeps_AddPage, inert_refl|intros pages'].
  apply keeps_inert_bind; [intros app0; apply inert_SwitchPage|intros _].
  apply keeps_inert_bind; [inert_modify|intros _].
  apply keeps_ret, inert_refl.
Qed.

Lemma inert_ShowMenu : keeps inert ShowMenu.
Proof.
  intros app. unfold ShowMenu. destruct (showMenu app); simpl; [reflexivity|].
  apply (keeps_inert_bind CurrentPage); [intros app0; reflexivity|intros cur].
  apply keeps_inert_bind; [apply keeps_AddPage, inert_refl|intros pages].
  apply keeps_inert_bind; [apply keeps_AddPage, inert_refl|intros pages'].
  apply keeps_inert_bind; [intros app0; apply inert_SwitchPage|intros _].
  apply keeps_inert_bind; [|intros _]; inert_modify.
Qed.

Lemma inert_watch_call : keeps inert (recv_switchPage ;;; cancel ;;; run_call).
Proof.
  apply keeps_inert_bind; [|intros _].
  { intros app. unfold recv_switchPage.
    destruct (switchPage app) as [[|n]|]; reflexivity. }
  apply keeps_inert_bind; [|intros _].
  { intros app. unfold cancel. destruct (context app); reflexivity. }
  intros app. unfold run_call.
  destruct (tableViews app !! currentPage app), (context app); reflexivity.
Qed.

Lemma reliable_answers s : reliable s = true -> answers s = true.
Proof. destruct s as [|[e|x] s]; simpl; intros H; try discriminate; reflexivity. Qed.

Lemma DataSource_Refresh_reliable ds :
  reliable (script ds) = true ->
  exists ds', DataSource_Refresh ds = (None, ds') /\ reliable (script ds') = true.
Proof.
  unfold DataSource_Refresh.
  destruct (script ds) as [|[e|[h d]] rest] eqn:Hs; simpl; intros H;
    try discriminate.
  - exists ds. rewrite Hs. auto.
  - eexists. split; [reflexivity|]. exact H.
Qed.

Lemma DataSource_Refresh_hale ds err ds' :
  DataSource_Refresh ds = (err, ds') ->
  reliable (script ds) = true -> reliable (script ds') = true.
Proof.
  intros E H. destruct (DataSource_Refresh_reliable ds H) as (ds2 & E2 & H2).
  congruence.
Qed.

(** An update in place that keeps the data source, or puts a reliable one. *)
Lemma hale_update t f :
  (forall v, reliable (script (dataSource v)) = true ->
             reliable (script (dataSource (f v))) = true) ->
  keeps hale (update t f).
Proof.
  intros Hf app. unfold update, bind, deref.
  destruct (heap app !! t) as [v|] eqn:Hv; simpl; [|apply hale_refl].
  intros Hh t' v'. simpl. destruct (decide (t = t')) as [<-|Hne].
  - rewrite list_lookup_insert_eq by (eapply lookup_lt_Some; eauto).
    intros [= <-]. apply Hf. eapply Hh; eauto.
  - rewrite list_lookup_insert_ne by exact Hne. apply Hh.
Qed.

Lemma hale_deref t : keeps hale (deref t).
Proof. intros app. unfold deref. destruct (heap app !! t); apply hale_refl. Qed.

Lemma hale_draw t : keeps hale (draw t).
Proof.
  unfold draw.
  apply keeps_hale_bind; [apply hale_deref|intros v].
  apply keeps_hale_bind; [apply hale_update; intros v0 H; exact H|intros _].
  apply inert_keeps_hale. inert_modify.
Qed.

Lemma hale_refresh t : keeps hale (refresh t).
Proof.
  intros app Hh. unfold refresh. rewrite final_bind_eq. unfold deref.
  destruct (heap app !! t) as [v|] eqn:Hv; [|exact Hh].
  pose proof (Hh t v Hv) as Hrel.
  destruct (DataSource_Refresh (dataSource v)) as [err ds] eqn:Hds.
  pose proof (DataSource_Refresh_hale _ _ _ Hds Hrel) as Hds'.
  assert (K : keeps hale
            (update t (set_dataSource ds) ;;;
             match err with
             | Some e => ret (Some e)
             | None => draw t ;;; ret None
             end)).
  { apply keeps_hale_bind; [apply hale_update; intros v0 _; exact Hds'|intros _].
    destruct err; [apply keeps_ret, hale_refl|].
    apply keeps_hale_bind; [apply hale_draw|intros _]. apply keeps_ret, hale_refl. }
  exact (K app Hh).
Qed.

Lemma hale_run_sync t : keeps hale (run_sync t).
Proof.
  unfold run_sync.
  apply keeps_hale_bind; [apply hale_update; intros v H; exact H|intros _].
  apply keeps_hale_bind; [apply hale_refresh|intros err].
  apply keeps_hale_bind;
    [|intros _; apply inert_keeps_hale; intros app; apply inert_SwitchPage].
  destruct err; [|apply keeps_ret, hale_refl].
  apply keeps_hale_bind; [apply inert_keeps_hale, inert_UpdateStatus|intros _].
  apply keeps_ret, hale_refl.
Qed.

Lemma hale_run_iter pick ctx t : keeps hale (run_iter pick ctx t).
Proof.
  intros app. unfold run_iter.
  destruct (heap app !! t); [|apply hale_refl].
  destruct (select pick ctx t app) as [[|]|]; try apply hale_refl.
  apply (final_bind hale); [apply hale_trans|apply hale_run_sync|].
  intros _. apply keeps_ret, hale_refl.
Qed.

Lemma hale_userSelect t r c : keeps hale (userSelect t r c).
Proof.
  unfold userSelect, selectionChanged.
  apply keeps_hale_bind; [apply hale_update; intros v H; exact H|intros _].
  apply keeps_hale_bind; [apply hale_deref|intros v].
  apply inert_keeps_hale. inert_modify.
Qed.

Lemma dependable_lookup T k view ds :
  dependable T = true ->
  ViewMap T !! k = Some view -> Feeder view = Some ds ->
  reliable (script ds) = true.
Proof.
  unfold dependable. rewrite forallb_forall. intros H Hk Hf.
  specialize (H (k, view)). simpl in H. rewrite Hf in H. apply H.
  apply list_elem_of_In, elem_of_map_to_list. exact Hk.
Qed.

Lemma hale_NewTableView T kind :
  dependable T = true -> keeps hale (NewTableView T kind).
Proof.
  intros HT app. unfold NewTableView.
  destruct (ViewMap T !! kind) as [view|] eqn:Hk; simpl default;
    [|apply hale_refl].
  destruct (Feeder view) as [feeder|] eqn:Hf; [|apply hale_refl].
  pose proof (dependable_lookup T kind view feeder HT Hk Hf) as Hrel.
  apply (final_bind hale); [apply hale_trans| |intros _].
  - simpl. intros Hh t v. simpl. intros Hv.
    destruct (decide (t < length (heap app))) as [Hlt|Hge].
    + rewrite lookup_app_l in Hv by exact Hlt. eapply Hh; eauto.
    + rewrite lookup_app_r in Hv by lia.
      destruct (t - length (heap app)) as [|n]; simpl in Hv; [|discriminate].
      injection Hv as <-. exact Hrel.
  - apply keeps_hale_bind; [apply hale_refresh|intros err].
    destruct err; [|apply keeps_ret, hale_refl].
    apply keeps_hale_bind; [apply inert_keeps_hale, inert_UpdateStatus|intros _].
    apply keeps_ret, hale_refl.
Qed.

Lemma hale_Navigate T r : dependable T = true -> keeps hale (Navigate T r).
Proof.
  intros HT. unfold Navigate.
  destruct (PageNav T !! r) as [kind|]; [|apply keeps_ret, hale_refl].
  apply keeps_hale_bind; [|intros _].
  - intros app. destruct (tableViews app !! kind); [apply hale_refl|].
    apply (keeps_hale_bind (NewTableView T kind)); [apply hale_NewTableView, HT|].
    intros t. apply inert_keeps_hale. inert_modify.
  - apply inert_keeps_hale. intros app. apply inert_SwitchPage.
Qed.

Lemma step_hale T ev sys sys' :
  dependable T = true ->
  step T ev sys = Some sys' -> hale (sys_app sys) (sys_app sys').
Proof.
  intros HT. unfold step. destruct (crashed sys); [discriminate|].
  destruct ev as [page p| | |r|t|t r c| | |pick]; simpl.
  - intros H. apply (call_keeps hale) in H; [exact (proj1 H)|].
    apply inert_keeps_hale, inert_SwitchPage.
  - intros H. apply (returned_keeps hale) in H; [exact (proj1 H)|].
    apply inert_keeps_hale, inert_LastPage.
  - intros H. apply (returned_keeps hale) in H; [exact (proj1 H)|].
    apply inert_keeps_hale, inert_ShowMenu.
  - intros H. apply (call_keeps hale) in H; [exact (proj1 H)|].
    apply hale_Navigate, HT.
  - intros H. apply (returned_keeps hale) in H; [exact (proj1 H)|].
    apply hale_update. intros v Hv. exact Hv.
  - intros H. apply (returned_keeps hale) in H; [exact (proj1 H)|].
    apply hale_userSelect.
  - destruct (sys_parked sys) as [[page p]|]; [|discriminate].
    pose proof (inert_SwitchPage_resume page p (sys_app sys)) as K.
    destruct (SwitchPage_resume page p (sys_app sys)); try discriminate.
    intros [= <-]. apply inert_hale, K.
  - destruct (sys_watch sys); try discriminate.
    pose proof (inert_watch_call (sys_app sys)) as K.
    destruct ((recv_switchPage;;; cancel;;; run_call) (sys_app sys));
      try discriminate; intros [= <-]; apply inert_hale, K.
  - destruct (sys_watch sys) as [|t ctx|]; try discriminate.
    pose proof (hale_run_iter pick ctx t (sys_app sys)) as K.
    destruct (run_iter pick ctx t (sys_app sys)) as [[|] app'|app'|app'];
      try discriminate; intros [= <-]; exact K.
Qed.

Lemma hale_Init T version :
  dependable T = true -> keeps hale (Init T (inr version)).
Proof.
  intros HT. unfold Init.
  apply keeps_hale_bind; [apply inert_keeps_hale; inert_modify|intros _].
  apply keeps_hale_bind; [apply inert_keeps_hale; inert_modify|intros _].
  apply keeps_hale_bind; [apply hale_NewTableView, HT|intros t].
  apply keeps_hale_bind; [apply inert_keeps_hale; inert_modify|intros _].
  apply keeps_hale_bind;
    [apply inert_keeps_hale; intros app; apply inert_SwitchPage|intros _].
  apply keeps_ret, hale_refl.
Qed.

Lemma boot_state T version sys0 :
  boot T version = Some sys0 ->
  tableViews (sys_app sys0) = {[ RootPage := 0 ]}
  /\ length (heap (sys_app sys0)) = 1
  /\ currentPage (sys_app sys0) = RootPage
  /\ context (sys_app sys0) = Some 0
  /\ sys_watch sys0 = Waiting.
Proof.
  unfold boot, Init, NewTableView.
  destruct (default zeroView (ViewMap T !! RootPage)) as [k [[sc h d]|]];
    [|vm_compute; discriminate].
  destruct sc as [|[e|[h' d']] rest]; vm_compute; intros [= <-];
    repeat split; reflexivity.
Qed.

Lemma boot_navigable T version sys0 :
  dependable T = true -> boot T version = Some sys0 -> navigable sys0.
Proof.
  intros HT Hb.
  assert (Hh : healthy (sys_app sys0)).
  { pose proof (hale_Init T version HT NewAppView) as K.
    unfold boot in Hb.
    destruct (Init T (inr version) NewAppView) as [[e|] a|a|a]; try discriminate.
    injection Hb as <-. apply K. intros t v Hv. discriminate. }
  apply boot_state in Hb as (Htv & Hlen & Hc & Hctx & Hw).
  split.
  - split.
    + intros k t. rewrite Htv. intros Hk.
      apply lookup_singleton_Some in Hk as [_ <-]. lia.
    + rewrite Htv, Hc, lookup_singleton_eq. eauto.
  - exact Hh.
  - rewrite Hctx. eauto.
  - unfold crashed. rewrite Hw. reflexivity.
  - intros t ctx. rewrite Hw. discriminate.
Qed.

Lemma navigable_settled sys sys' :
  navigable sys ->
  registry_ok (sys_app sys') ->
  healthy (sys_app sys') ->
  length (heap (sys_app sys)) <= length (heap (sys_app sys')) ->
  context (sys_app sys') = context (sys_app sys) ->
  sys_watch sys' = sys_watch sys ->
  navigable sys'.
Proof.
  intros [Hreg Hh Hctx Hlive Hrun] Hreg' Hh' Hlen Hc Hw. split.
  - exact Hreg'.
  - exact Hh'.
  - rewrite Hc. exact Hctx.
  - unfold crashed in *. rewrite Hw. exact Hlive.
  - intros t ctx. rewrite Hw. intros H. apply Hrun in H. lia.
Qed.

Lemma call_final m args sys sys' :
  call m args sys = Some sys' ->
  sys_app sys' = final (m (sys_app sys)) /\ sys_watch sys' = sys_watch sys.
Proof.
  unfold call. destruct (m (sys_app sys)); try discriminate.
  - intros [= <-]. auto.
  - destruct (lock (sys_app sys)); [discriminate|]. intros [= <-]. auto.
Qed.

Lemma watch_call_not_Crash app app' :
  is_Some (context app) ->
  is_Some (tableViews app !! currentPage app) ->
  (recv_switchPage ;;; cancel ;;; run_call) app <> Crash app'.
Proof.
  intros [ctx Hc] [t Ht]. unfold bind, recv_switchPage, cancel, run_call.
  destruct (switchPage app) as [[|n]|]; try discriminate. simpl.
  rewrite Hc. simpl. rewrite Ht, Hc. discriminate.
Qed.

Lemma steady_watch_call : keeps steady (recv_switchPage ;;; cancel ;;; run_call).
Proof.
  apply keeps_steady_bind; [apply steady_recv_switchPage|intros _].
  apply keeps_steady_bind; [apply steady_cancel|intros _].
  apply steady_run_call.
Qed.

(** With feeds that do not fail, a step that is not a [SwitchPage] with a
    name of the caller's choice keeps the program running. *)
Lemma step_navigable T ev sys sys' :
  dependable T = true ->
  rawSwitch ev = false -> navigable sys -> step T ev sys = Some sys' ->
  navigable sys'.
Proof.
  intros HT Hraw Hnav Hstep.
  pose proof (step_ctx_mono _ _ _ _ Hstep) as [Hctx _ _].
  pose proof Hnav as [Hreg Hh Hc Hlive Hrun].
  pose proof (step_hale T ev sys sys' HT Hstep Hh) as Hh'.
  unfold step in Hstep. rewrite Hlive in Hstep.
  assert (Hret : forall m, keeps settled m -> returned m sys = Some sys' ->
            navigable sys').
  { intros m Km H. apply (returned_keeps settled) in H as [Hs Hw]; [|exact Km].
    eapply navigable_settled; eauto.
    - eapply registry_settled; eauto.
    - destruct Hs as [_ _ Hs]. lia. }
  destruct ev as [page p| | |r|t|t r c| | |pick]; simpl in Hstep;
    try discriminate Hraw.
  - apply (Hret LastPage); [|exact Hstep].
    eapply keeps_weaken; [apply steady_settled|apply steady_LastPage].
  - apply (Hret ShowMenu); [|exact Hstep].
    eapply keeps_weaken; [apply steady_settled|apply steady_ShowMenu].
  - apply call_final in Hstep as [Ha Hw].
    destruct (Navigate_registry T r (sys_app sys) Hreg) as [Hr' Hl'].
    rewrite <- Ha in Hr', Hl'. eapply navigable_settled; eauto.
  - apply (Hret (Refresh t)); [apply settled_Refresh|exact Hstep].
  - apply (Hret (userSelect t r c)); [|exact Hstep].
    eapply keeps_weaken; [apply steady_settled|apply steady_userSelect].
  - destruct (sys_parked sys) as [[page p]|]; [|discriminate].
    pose proof (steady_SwitchPage_resume page p (sys_app sys)) as K.
    destruct (SwitchPage_resume page p (sys_app sys)); try discriminate.
    injection Hstep as <-. simpl in *. apply steady_settled in K.
    eapply navigable_settled; eauto; simpl.
    + eapply registry_settled; eauto.
    + destruct K as [_ _ K]. lia.
  - destruct (sys_watch sys) eqn:Hw; try discriminate.
    pose proof (steady_watch_call (sys_app sys)) as K.
    destruct ((recv_switchPage;;; cancel;;; run_call) (sys_app sys))
      as [tc app'|app'|app'] eqn:E; try discriminate.
    + injection Hstep as <-. simpl in *. apply steady_settled in K.
      apply watch_call_Done in E as (_ & _ & Ht & _).
      split; simpl.
      * eapply registry_settled; eauto.
      * exact Hh'.
      * rewrite Hctx. exact Hc.
      * reflexivity.
      * intros t ctx [= <- _]. destruct Hreg as [R1 _].
        apply R1 in Ht. destruct K as [_ _ K]. lia.
    + exfalso. eapply watch_call_not_Crash; [| |exact E]; [exact Hc|apply Hreg].
  - destruct (sys_watch sys) as [|t ctx|] eqn:Hw; try discriminate.
    pose proof (settled_run_iter pick ctx t (sys_app sys)) as K.
    assert (Ht : t < length (heap (sys_app sys))) by (eapply Hrun; eauto).
    apply lookup_lt_is_Some in Ht as [v Hv].
    destruct (run_iter pick ctx t (sys_app sys)) as [[|] app'|app'|app'] eqn:E;
      try discriminate.
    + injection Hstep as <-. simpl in *. split; simpl.
      * eapply registry_settled; eauto.
      * exact Hh'.
      * rewrite Hctx. exact Hc.
      * reflexivity.
      * intros t' ctx' [= <- _]. apply lookup_lt_Some in Hv.
        destruct K as [_ _ K]. lia.
    + injection Hstep as <-. simpl in *. split; simpl.
      * eapply registry_settled; eauto.
      * exact Hh'.
      * rewrite Hctx. exact Hc.
      * reflexivity.
      * discriminate.
    + exfalso. eapply run_iter_no_crash; [exact Hv| |exact E].
      apply reliable_answers. eapply Hh; eauto.
Qed.

(** As long as no fetch fails (no feeder of [ViewMap] ever answers with an
    error) and pages are switched through [Navigate] (never by a
    [SwitchPage] with a name of the caller's choice), [watch] does not
    panic: in every state the program reaches from start-up, the current
    page is registered to a view that is allocated, the view of a running
    loop is allocated, and the goroutine of [watch] is alive.  (A call
    that panics in its caller is no step of the program: the run ends
    before it.) *)
Theorem navigation_keeps_watch_alive (T : Tables) (version : string)
    (evs : list event) (sys0 sys : System) :
  dependable T = true ->
  boot T version = Some sys0 ->
  forallb (fun ev => negb (rawSwitch ev)) evs = true ->
  exec T evs sys0 = Some sys ->
  crashed sys = false
  /\ (exists t v, tableViews (sys_app sys) !! currentPage (sys_app sys) = Some t
                  /\ heap (sys_app sys) !! t = Some v)
  /\ (forall t ctx, sys_watch sys = Running t ctx ->
        is_Some (heap (sys_app sys) !! t)).
Proof.
  intros HT Hb Hev Hex.
  assert (Hnav : navigable sys).
  { apply (boot_navigable T version sys0 HT) in Hb. clear version.
    revert sys0 Hb Hev Hex.
    induction evs as [|ev evs IH]; simpl; intros sys0 Hb Hev Hex.
    - injection Hex as <-. exact Hb.
    - apply andb_prop in Hev as [H1 H2].
      destruct (step T ev sys0) as [sys1|] eqn:E; [|discriminate].
      apply (IH sys1); auto.
      eapply step_navigable; eauto.
      destruct (rawSwitch ev); [discriminate|reflexivity]. }
  destruct Hnav as [[R1 [t Ht]] _ _ Hlive Hrun].
  split; [exact Hlive|]. split.
  - pose proof (R1 _ _ Ht) as Hlt. apply lookup_lt_is_Some in Hlt as [v Hv].
    eauto.
  - intros t' ctx Hw. apply lookup_lt_is_Some. eapply Hrun; eauto.
Qed.

Lemma navigation_keeps_watch_alive_witness :
  crashed (system (walk ++ [EvRefresh 2; EvNavigate 1; EvWatch])) = false
  /\ (exists t v,
        tableViews (sys_app (system (walk ++ [EvRefresh 2; EvNavigate 1; EvWatch])))
          !! currentPage (sys_app (system (walk ++ [EvRefresh 2; EvNavigate 1; EvWatch]))) = Some t
        /\ heap (sys_app (system (walk ++ [EvRefresh 2; EvNavigate 1; EvWatch]))) !! t = Some v).
Proof.
  destruct (navigation_keeps_watch_alive demo "v1.14.1"
              (walk ++ [EvRefresh 2; EvNavigate 1; EvWatch]) (system [])
              (system (walk ++ [EvRefresh 2; EvNavigate 1; EvWatch])))
    as (H1 & H2 & _).
  - vm_compute. reflexivity.
  - vm_compute. reflexivity.
  - vm_compute. reflexivity.
  - vm_compute. reflexivity.
  - split; assumption.
Defined.

Lemma Navigate_known T r kind t0 app :
  PageNav T !! r = Some kind ->
  tableViews app !! kind = Some t0 ->
  Navigate T r app = SwitchPage kind (TableP t0) app.
Proof.
  intros Hr Hk. unfold Navigate. rewrite Hr. unfold bind at 1. cbv beta.
  rewrite Hk. cbv beta iota. unfold registered. rewrite Hk. reflexivity.
Qed.

Lemma Navigate_new T r kind app :
  PageNav T !! r = Some kind ->
  tableViews app !! kind = None ->
  Navigate T r app
  = match NewTableViewWithArgs
            (View_Kind (default zeroView (ViewMap T !! kind)))
            (Feeder (default zeroView (ViewMap T !! kind))) app with
    | Done t a1 =>
        SwitchPage kind (TableP t)
          (set_tableViews (<[kind:=t]> (tableViews a1)) a1)
    | Parked a => Parked a
    | Crash a => Crash a
    end.
Proof.
  intros Hr Hk. unfold Navigate. rewrite Hr. unfold bind at 1. cbv beta.
  rewrite Hk. cbv beta iota. unfold bind at 1. rewrite NewTableView_WithArgs.
  destruct (NewTableViewWithArgs _ _ app) as [t a1|a|a]; try reflexivity.
  unfold modify. cbv beta iota. unfold registered. simpl.
  rewrite lookup_insert_eq. reflexivity.
Qed.

(** [Navigate] makes the view of a page on the first visit and reuses it
    afterwards.  When a call for the key of [kind] returns, [kind] is
    current and registered to the view shown and focused; that view is
    the one registered before, or else one new view at the end of the
    heap, and no other registration changed.  A second call then returns
    without allocating, registering or signalling anything. *)
Theorem Navigate_registers_once (T : Tables) (r : nat) (kind : string)
    (app app1 : AppView) :
  PageNav T !! r = Some kind ->
  Navigate T r app = Done tt app1 ->
  exists t,
    t = default (length (heap app)) (tableViews app !! kind)
    /\ tableViews app1 = <[kind := t]> (tableViews app)
    /\ length (heap app1)
       = match tableViews app !! kind with
         | Some _ => length (heap app)
         | None => S (length (heap app))
         end
    /\ currentPage app1 = kind
    /\ frontPage app1 = Some (kind, TableP t)
    /\ focus app1 = TableP t
    /\ exists app2,
         Navigate T r app1 = Done tt app2
         /\ tableViews app2 = tableViews app1
         /\ heap app2 = heap app1
         /\ switchPage app2 = switchPage app1
         /\ currentPage app2 = kind.
Proof.
  intros Hr E.
  assert (Hsecond : forall t,
            tableViews app1 !! kind = Some t -> currentPage app1 = kind ->
            lock app1 = false ->
            exists app2,
              Navigate T r app1 = Done tt app2
              /\ tableViews app2 = tableViews app1
              /\ heap app2 = heap app1
              /\ switchPage app2 = switchPage app1
              /\ currentPage app2 = kind).
  { intros t Ht Hc Hl. rewrite (Navigate_known T r kind t app1 Hr Ht).
    destruct (SwitchPage_returns kind (TableP t) app1 Hl (or_introl Hc))
      as (app2 & E2).
    exists app2. split; [exact E2|].
    apply SwitchPage_Done in E2
      as (Hc2 & _ & _ & _ & _ & _ & Htv & _ & _ & _ & Hh & Hs).
    destruct (decide (currentPage app1 ≠ kind)); [contradiction|]. auto. }
  destruct (tableViews app !! kind) as [t0|] eqn:Hk.
  - rewrite (Navigate_known T r kind t0 app Hr Hk) in E.
    apply SwitchPage_Done in E
      as (Hc & _ & Hf & Hfo & _ & Hl & Htv & _ & _ & _ & Hh & _).
    assert (Hk1 : tableViews app1 !! kind = Some t0) by (rewrite Htv; exact Hk).
    specialize (Hsecond t0 Hk1 Hc Hl).
    exists t0. simpl. rewrite (insert_id _ _ _ Hk).
    split; [reflexivity|]. split; [exact Htv|].
    split; [rewrite Hh; reflexivity|].
    do 3 (split; [assumption|]). exact Hsecond.
  - rewrite (Navigate_new T r kind app Hr Hk) in E.
    destruct (NewTableViewWithArgs _ _ app) as [t a1|a|a] eqn:EN;
      try discriminate.
    apply NewTableViewWithArgs_Done in EN as [Ht [Gtv _ Gh _]].
    apply SwitchPage_Done in E
      as (Hc & _ & Hf & Hfo & _ & Hl & Htv & _ & _ & _ & Hh & _).
    simpl in Htv, Hh.
    assert (Hk1 : tableViews app1 !! kind = Some t)
      by (rewrite Htv; apply lookup_insert_eq).
    specialize (Hsecond t Hk1 Hc Hl).
    exists t. simpl.
    split; [exact Ht|]. split; [rewrite Htv, Gtv; reflexivity|].
    split; [rewrite Hh; exact Gh|].
    do 3 (split; [assumption|]). exact Hsecond.
Qed.

Lemma Navigate_registers_once_witness :
  exists app1 t,
    Navigate demo 1 (state settle) = Done tt app1
    /\ tableViews app1 = <["pods" := t]> (tableViews (state settle))
    /\ length (heap app1) = S (length (heap (state settle)))
    /\ exists app2,
         Navigate demo 1 app1 = Done tt app2
         /\ heap app2 = heap app1.
Proof.
  destruct (Navigate demo 1 (state settle)) as [[] app1|a|a] eqn:E.
  2,3: exfalso; vm_compute in E; discriminate.
  destruct (Navigate_registers_once demo 1 "pods" (state settle) app1)
    as (t & _ & Htv & Hh & _ & _ & _ & app2 & E2 & _ & Hh2 & _).
  - reflexivity.
  - exact E.
  - exists app1, t. split; [reflexivity|]. split; [exact Htv|].
    split; [exact Hh|]. exists app2. split; [exact E2|exact Hh2].
Defined.

(** ** Refresh signals *)

Lemma quiet_refl app : quiet app app.
Proof. intros t. reflexivity. Qed.

Lemma quiet_trans a b c : quiet a b -> quiet b c -> quiet a c.
Proof. intros H K t. rewrite K. apply H. Qed.

Lemma steady_quiet a b : steady a b -> quiet a b.
Proof. intros [_ H]. exact H. Qed.

Lemma moved_quiet page a b : moved page a b -> quiet a b.
Proof. intros [_ _ _ H]. exact H. Qed.

Lemma grown_quiet a b : grown a b -> quiet a b.
Proof. intros [_ _ _ H]. exact H. Qed.

Lemma quiet_Navigate T r : keeps quiet (Navigate T r).
Proof.
  unfold Navigate. destruct (PageNav T !! r) as [kind|];
    [|apply keeps_ret, quiet_refl].
  apply keeps_bind; [apply quiet_trans| |intros _].
  - intros app. destruct (tableViews app !! kind); simpl; [apply quiet_refl|].
    rewrite final_bind_eq, NewTableView_WithArgs.
    destruct (Feeder (default zeroView (ViewMap T !! kind))) as [feeder|];
      [|apply quiet_refl].
    pose proof (grown_NewTableViewWithArgs
                  (View_Kind (default zeroView (ViewMap T !! kind)))
                  feeder app) as G.
    destruct (NewTableViewWithArgs _ _ app) as [t a|a|a]; simpl in *;
      apply grown_quiet in G; exact G.
  - intros app. eapply moved_quiet. apply moved_SwitchPage.
Qed.

Lemma Refresh_waiting t t' app app' :
  Refresh t' app = Done tt app' ->
  waiting t app' = waiting t app + (if decide (t' = t) then 1 else 0).
Proof.
  unfold Refresh, update, bind, deref, modify.
  destruct (heap app !! t') as [v|] eqn:Hv; [|discriminate].
  intros [= <-]. unfold waiting. simpl.
  destruct (decide (t' = t)) as [<-|Hne].
  - rewrite list_lookup_insert_eq by (eapply lookup_lt_Some; eauto).
    rewrite Hv. simpl. lia.
  - rewrite list_lookup_insert_ne by exact Hne. lia.
Qed.

(** The body of the sync case takes one signal from the channel of its
    view, however far it gets. *)
Lemma run_sync_waiting t t' v app :
  heap app !! t' = Some v ->
  waiting t (final (run_sync t' app))
  = if decide (t' = t) then pred (sync v) else waiting t app.
Proof.
  intros Hv. unfold run_sync. rewrite final_bind_eq.
  rewrite (update_Done app t' v (fun v => set_sync (pred (sync v)) v) Hv).
  set (app1 := set_heap _ app).
  assert (K : keeps steady
            (err <~ refresh t' ;;
             (match err with
              | Some e => UpdateStatus t' e true ;;; ret tt
              | None => ret tt
              end) ;;;
             (fun app => SwitchPage (currentPage app) (TableP t') app))).
  { apply keeps_steady_bind; [apply steady_refresh|intros err].
    apply keeps_steady_bind; [|intros _; apply steady_SwitchPage_same].
    destruct err; [|apply keeps_steady_ret].
    apply keeps_steady_bind; [apply steady_UpdateStatus|intros _].
    apply keeps_steady_ret. }
  destruct (K app1) as [_ W]. rewrite W. unfold app1, waiting. simpl.
  destruct (decide (t' = t)) as [<-|Hne].
  - rewrite list_lookup_insert_eq by (eapply lookup_lt_Some; eauto). reflexivity.
  - rewrite list_lookup_insert_ne by exact Hne. reflexivity.
Qed.

Lemma select_sync_inv pick ctx t app :
  select pick ctx t app = Some caseSync ->
  exists v, heap app !! t = Some v /\ sync v <> 0.
Proof.
  unfold select, syncReady.
  destruct (heap app !! t) as [v|]; [|destruct (ctxDone ctx app); discriminate].
  destruct (Nat.eqb (sync v) 0) eqn:E; simpl.
  - destruct (ctxDone ctx app); discriminate.
  - intros _. exists v. split; [reflexivity|]. apply Nat.eqb_neq. exact E.
Qed.

Lemma step_signals T ev sys sys' t :
  step T ev sys = Some sys' ->
  waiting t (sys_app sys') + served t ev sys
  = waiting t (sys_app sys) + arrived t ev.
Proof.
  unfold step. destruct (crashed sys); [discriminate|].
  destruct ev as [page p| | |r|t'|t' r c| | |pick]; simpl.
  - intros E. apply call_final in E as [-> _].
    rewrite (moved_quiet _ _ _ (moved_SwitchPage page p (sys_app sys)) t). lia.
  - intros E. apply (returned_keeps steady) in E as [[_ W] _];
      [|apply steady_LastPage]. rewrite W. lia.
  - intros E. apply (returned_keeps steady) in E as [[_ W] _];
      [|apply steady_ShowMenu]. rewrite W. lia.
  - intros E. apply call_final in E as [-> _].
    rewrite (quiet_Navigate T r (sys_app sys) t). lia.
  - unfold returned. destruct (Refresh t' (sys_app sys)) as [[] a|a|a] eqn:E;
      try discriminate.
    intros [= <-]. simpl. rewrite (Refresh_waiting t t' _ _ E). lia.
  - intros E. apply (returned_keeps steady) in E as [[_ W] _];
      [|apply steady_userSelect]. rewrite W. lia.
  - destruct (sys_parked sys) as [[page p]|]; [|discriminate].
    pose proof (steady_SwitchPage_resume page p (sys_app sys)) as [_ W].
    destruct (SwitchPage_resume page p (sys_app sys)) as [u a|a|a];
      try discriminate.
    intros [= <-]. simpl in *. rewrite W. lia.
  - destruct (sys_watch sys); try discriminate.
    pose proof (steady_watch_call (sys_app sys)) as [_ W].
    destruct ((recv_switchPage ;;; cancel ;;; run_call) (sys_app sys))
      as [tc a|a|a]; try discriminate; intros [= <-]; simpl in *;
      rewrite W; lia.
  - unfold served. destruct (sys_watch sys) as [|t' ctx|]; try discriminate.
    unfold run_iter.
    destruct (heap (sys_app sys) !! t') as [v|] eqn:Hv.
    + destruct (select pick ctx t' (sys_app sys)) as [[|]|] eqn:Hsel;
        try discriminate.
      * destruct (select_sync_inv _ _ _ _ Hsel) as (v0 & Hv0 & Hs).
        rewrite Hv in Hv0. injection Hv0 as <-.
        pose proof (run_sync_waiting t t' v (sys_app sys) Hv) as W.
        assert (F : final ((run_sync t' ;;; ret Continue) (sys_app sys))
                    = final (run_sync t' (sys_app sys))).
        { rewrite final_bind_eq. destruct (run_sync t' (sys_app sys)); reflexivity. }
        rewrite <- F in W.
        destruct ((run_sync t' ;;; ret Continue) (sys_app sys)) as [[|] a|a|a];
          try discriminate; intros [= <-]; simpl in *; rewrite W;
          destruct (decide (t' = t)) as [<-|Hne]; try lia;
          unfold waiting; rewrite Hv; lia.
      * intros [= <-]. simpl. destruct (decide (t' = t)); lia.
    + assert (Hsel : select pick ctx t' (sys_app sys) <> Some caseSync).
      { intros Hsel. apply select_sync_inv in Hsel as (v & Hv' & _). congruence. }
      intros [= <-]. simpl.
      destruct (decide (t' = t)); [|lia].
      destruct (select pick ctx t' (sys_app sys)) as [[|]|]; try lia.
      contradiction.
Qed.

(** No refresh signal is lost or made up.  Over any run of the program,
    for every view, the signals waiting on its channel at the end and the
    loop turns that took one add up to the signals waiting at the start
    and the [Refresh] calls of the run. *)
Theorem signals_conserved (T : Tables) (evs : list event) (sys sys' : System)
    (t : nat) :
  exec T evs sys = Some sys' ->
  waiting t (sys_app sys') + services T t evs sys
  = waiting t (sys_app sys) + arrivals t evs.
Proof.
  revert sys. induction evs as [|ev evs IH]; intros sys; simpl.
  - intros [= <-]. lia.
  - destruct (step T ev sys) as [sys1|] eqn:E; [|discriminate].
    intros E'. pose proof (step_signals T ev sys sys1 t E) as S1.
    specialize (IH sys1 E'). lia.
Qed.

Lemma signals_conserved_witness :
  waiting 1 (sys_app (system (settle ++ [EvNavigate 1; EvWatch] ++ burst)))
  + services demo 1 burst (system (settle ++ [EvNavigate 1; EvWatch]))
  = waiting 1 (sys_app (system (settle ++ [EvNavigate 1; EvWatch])))
    + arrivals 1 burst.
Proof. apply signals_conserved. vm_compute. reflexivity. Defined.

(** ** A switch parked on the full channel *)

Lemma untouched_refl app : untouched app app.
Proof. split; reflexivity. Qed.

Lemma untouched_trans a b c : untouched a b -> untouched b c -> untouched a c.
Proof. intros [] []. split; congruence. Qed.

Lemma untouched_update t f : keeps untouched (update t f).
Proof.
  intros app. unfold update, bind, deref.
  destruct (heap app !! t); simpl; [split; reflexivity|apply untouched_refl].
Qed.

Lemma untouched_draw t : keeps untouched (draw t).
Proof.
  unfold draw.
  apply keeps_bind; [apply untouched_trans| |intros v].
  { intros app. unfold deref. destruct (heap app !! t); apply untouched_refl. }
  apply keeps_bind; [apply untouched_trans|apply untouched_update|intros _].
  intros app. split; reflexivity.
Qed.

Lemma untouched_refresh t : keeps untouched (refresh t).
Proof.
  unfold refresh.
  apply keeps_bind; [apply untouched_trans| |intros v].
  { intros app. unfold deref. destruct (heap app !! t); apply untouched_refl. }
  destruct (DataSource_Refresh (dataSource v)) as [err ds].
  apply keeps_bind; [apply untouched_trans|apply untouched_update|intros _].
  destruct err; [apply keeps_ret, untouched_refl|].
  apply keeps_bind; [apply untouched_trans|apply untouched_draw|intros _].
  apply keeps_ret, untouched_refl.
Qed.

(** With the mutex taken, [SwitchPage] parks at once. *)
Lemma SwitchPage_locked page p app :
  lock app = true -> SwitchPage page p app = Parked app.
Proof. intros Hl. unfold SwitchPage, bind, Lock. rewrite Hl. reflexivity. Qed.

(** With the mutex taken, the sync case of the loop fetches, redraws and
    parks at the mutex. *)
Lemma run_sync_locked t v app :
  lock app = true -> heap app !! t = Some v ->
  answers (script (dataSource v)) = true ->
  exists app', run_sync t app = Parked app' /\ untouched app app'.
Proof.
  intros Hl Hv Ha. unfold run_sync. unfold bind at 1.
  rewrite (update_Done app t v (fun v => set_sync (pred (sync v)) v) Hv).
  set (app1 := set_heap _ app).
  assert (H1 : heap app1 !! t = Some (set_sync (pred (sync v)) v)).
  { unfold app1. simpl. apply list_lookup_insert_eq.
    eapply lookup_lt_Some; eauto. }
  destruct (refresh_ok app1 t _ H1 Ha) as (app2 & v2 & E & _).
  pose proof (untouched_refresh t app1) as U. rewrite E in U. simpl in U.
  assert (U' : untouched app app2).
  { eapply untouched_trans; [|exact U]. split; reflexivity. }
  assert (Hl2 : lock app2 = true) by (destruct U' as [L]; congruence).
  exists app2. split; [|exact U'].
  unfold bind at 1. rewrite E. unfold bind at 1. unfold ret.
  apply SwitchPage_locked. exact Hl2.
Qed.

(** A [SwitchPage] to another page while the switch channel is full parks
    on the send with the mutex held, the pointer already moved and
    nothing shown yet.  Until [watch] receives, every [SwitchPage] by
    anyone parks in turn and changes nothing.  Once [watch] has received,
    the parked call goes through: the page is shown, the focus is where
    the page passes it (on the page itself when it is a table), the mutex
    is released, and its own signal is in the channel. *)
Theorem SwitchPage_parks_on_full_channel (page : string) (p : tview_Primitive)
    (app : AppView) :
  lock app = false ->
  currentPage app <> page ->
  switchPage app = Some switchPage_cap ->
  exists app',
    SwitchPage page p app = Parked app'
    /\ lock app' = true
    /\ currentPage app' = page
    /\ switchPage app' = Some switchPage_cap
    /\ content app' = content app
    /\ drawQueue app' = drawQueue app
    /\ focus app' = focus app
    /\ (forall page2 p2, SwitchPage page2 p2 app' = Parked app')
    /\ exists app2 app3,
         recv_switchPage app' = Done tt app2
         /\ SwitchPage_resume page p app2 = Done tt app3
         /\ lock app3 = false
         /\ switchPage app3 = Some switchPage_cap
         /\ currentPage app3 = page
         /\ frontPage app3 = Some (page, p)
         /\ focus app3 = focusTarget p
         /\ (forall t, p = TableP t -> focus app3 = TableP t).
Proof.
  intros Hl Hne Hs.
  exists (set_currentPage page (set_lock true app)).
  split.
  { unfold SwitchPage, bind, Lock, modify, send_switchPage. rewrite Hl. simpl.
    destruct (decide (currentPage app ≠ page)) as [_|Heq]; [|contradiction].
    simpl. rewrite Hs. reflexivity. }
  do 6 (split; [first [reflexivity|exact Hs]|]).
  split; [intros page2 p2; apply SwitchPage_locked; reflexivity|].
  eexists _, _. split.
  { unfold recv_switchPage. simpl. rewrite Hs. reflexivity. }
  split; [reflexivity|]. simpl.
  do 3 (split; [reflexivity|]). split; [|split; [reflexivity|]].
  - unfold frontPage. simpl. apply last_snoc.
  - intros t ->. reflexivity.
Qed.

Lemma SwitchPage_parks_on_full_channel_witness :
  exists app',
    SwitchPage "deployments" (TableP 0) (state (settle ++ [EvNavigate 1]))
    = Parked app'
    /\ lock app' = true
    /\ currentPage app' = "deployments".
Proof.
  destruct (SwitchPage_parks_on_full_channel "deployments" (TableP 0)
              (state (settle ++ [EvNavigate 1])))
    as (app' & E & Hl & Hc & _).
  - vm_compute. reflexivity.
  - vm_compute. discriminate.
  - vm_compute. reflexivity.
  - exists app'. split; [exact E|]. split; assumption.
Defined.

(** A loop turn that takes a refresh signal while a [SwitchPage] is parked
    holding the mutex does not finish, when its fetch succeeds.  Whatever
    the later choices of the loop, [run] has taken the signal, fetched and
    redrawn, and is parked at the mutex, inside the call of [watch]; the
    mutex is still held, the switch channel as full as before, so that the
    parked send cannot go on either. *)
Theorem refresh_turn_parks_behind_switch (pick : selectCase)
    (picks : list selectCase) (ctx t : nat) (v : tableView) (app : AppView) :
  lock app = true ->
  heap app !! t = Some v ->
  sync v <> 0 ->
  answers (script (dataSource v)) = true ->
  pick = caseSync \/ ctxDone ctx app = false ->
  exists app',
    run (pick :: picks) ctx t app = Parked app'
    /\ untouched app app'
    /\ draws app' = S (draws app)
    /\ waiting t app' = pred (sync v)
    /\ (switchPage app = Some switchPage_cap ->
        send_switchPage app' = Parked app'
        /\ forall page p, SwitchPage_resume page p app' = Parked app').
Proof.
  intros Hl Hv Hs Ha Hp.
  destruct (run_sync_locked t v app Hl Hv Ha) as (app' & E & U).
  exists app'.
  assert (Hsel : select pick ctx t app = Some caseSync).
  { unfold select, syncReady. rewrite Hv.
    destruct (Nat.eqb (sync v) 0) eqn:E0;
      [apply Nat.eqb_eq in E0; contradiction|]. simpl.
    destruct Hp as [-> | ->]; [destruct (ctxDone ctx app)|]; reflexivity. }
  split.
  { simpl. unfold bind at 1. unfold run_iter. rewrite Hv, Hsel.
    unfold bind at 1. rewrite E. reflexivity. }
  split; [exact U|]. split.
  { revert E. unfold run_sync. unfold bind at 1.
    rewrite (update_Done app t v (fun v => set_sync (pred (sync v)) v) Hv).
    set (app1 := set_heap _ app).
    assert (H1 : heap app1 !! t = Some (set_sync (pred (sync v)) v)).
    { unfold app1. simpl. apply list_lookup_insert_eq.
      eapply lookup_lt_Some; eauto. }
    destruct (refresh_ok app1 t _ H1 Ha)
      as (app2 & v2 & E2 & _ & _ & _ & Hd & Hl2 & _).
    unfold bind at 1. rewrite E2. unfold bind at 1. unfold ret.
    rewrite SwitchPage_locked by (rewrite Hl2; exact Hl).
    intros [= <-]. exact Hd. }
  split.
  { pose proof (run_sync_waiting t t v app Hv) as W. rewrite E in W.
    simpl in W. destruct (decide (t = t)); [exact W|contradiction]. }
  intros Hfull.
  assert (Hp' : send_switchPage app' = Parked app').
  { unfold send_switchPage. destruct U as [_ Us]. rewrite Us, Hfull.
    destruct (decide (switchPage_cap < switchPage_cap)); [lia|reflexivity]. }
  split; [exact Hp'|].
  intros page p. unfold SwitchPage_resume, bind. rewrite Hp'. reflexivity.
Qed.

Lemma refresh_turn_parks_behind_switch_witness :
  exists app',
    run [caseSync] 0 0 (state jam) = Parked app'
    /\ lock app' = true
    /\ waiting 0 app' = 0.
Proof.
  destruct (refresh_turn_parks_behind_switch caseSync [] 0 0
              (default (init (kindOf RootPage) (feed []) NewAppView)
                 (heap (state jam) !! 0))
              (state jam))
    as (app' & E & [Ul _] & _ & W & _).
  - vm_compute. reflexivity.
  - vm_compute. reflexivity.
  - vm_compute. discriminate.
  - vm_compute. reflexivity.
  - left. reflexivity.
  - exists app'. split; [exact E|]. split.
    + rewrite Ul. vm_compute. reflexivity.
    + rewrite W. vm_compute. reflexivity.
Defined.

(** ** Drawing and searching *)

Lemma skipped_visible srch r : skipped srch r = false <-> visible srch r.
Proof.
  unfold skipped, visible. rewrite orb_false_iff, andb_false_iff.
  rewrite !negb_false_iff. split.
  - intros [H1 H2]. split.
    + destruct r as [|first rest]; [discriminate|]. simpl.
      destruct (decide (first = "")); [discriminate|congruence].
    + intros Hs. destruct (decide (srch = "")); [contradiction|].
      destruct H2 as [H2|H2]; [discriminate|exact H2].
  - intros [H1 H2]. split.
    + destruct r as [|first rest]; [reflexivity|]. simpl in H1.
      destruct (decide (first = "")); [subst; contradiction|reflexivity].
    + destruct (decide (srch = "")); [left; reflexivity|right; auto].
Qed.

Lemma In_shown srch data r :
  In r (List.filter (fun r => negb (skipped srch r)) data)
  <-> In r data /\ visible srch r.
Proof.
  rewrite filter_In, negb_true_iff, skipped_visible. reflexivity.
Qed.

Lemma filter_sublist_imp {A : Type} (f g : A -> bool) (l : list A) :
  (forall x, f x = true -> g x = true) ->
  sublist (List.filter f l) (List.filter g l).
Proof.
  intros H. induction l as [|x l IH]; simpl; [constructor|].
  destruct (f x) eqn:Ef.
  - rewrite (H x Ef). constructor. exact IH.
  - destruct (g x); [constructor|]; exact IH.
Qed.

Lemma filter_sublist_self {A : Type} (f : A -> bool) (l : list A) :
  sublist (List.filter f l) l.
Proof.
  induction l as [|x l IH]; simpl; [constructor|].
  destruct (f x); constructor; exact IH.
Qed.

Lemma visible_any srch r : visible srch r -> visible "" r.
Proof. intros [H _]. split; [exact H|]. intros Hne. contradiction. Qed.

(** The rows [draw] keeps are the visible rows of the data: each as often
    as the data has it, in the order of the data. *)
Lemma shown_filter srch data :
  List.filter (fun r => negb (skipped srch r)) data = filter (visible srch) data.
Proof.
  induction data as [|r data IH]; [reflexivity|].
  rewrite filter_cons. simpl. rewrite IH.
  destruct (skipped srch r) eqn:E; simpl.
  - rewrite decide_False; [reflexivity|].
    intros H. apply skipped_visible in H. congruence.
  - rewrite decide_True; [reflexivity|]. apply skipped_visible. exact E.
Qed.

(** A search applies to one draw.  After [UpdateWithSearch], the next
    [draw] of the view shows, under the header, exactly the rows of the
    data that contain the search and whose first value is not empty: the
    body of the table is the data with the other rows left out, so every
    matching row is there as often as in the data and in the order of the
    data.  The draw after that shows every row whose first value is not
    empty again, in the same way.  Both draws redraw the application. *)
Theorem search_filters_one_draw (t : nat) (v : tableView) (srch : string)
    (app : AppView) :
  heap app !! t = Some v ->
  exists app1 v1 app2 v2 body1 body2,
    (UpdateWithSearch t srch ;;; draw t) app = Done tt app1
    /\ heap app1 !! t = Some v1
    /\ draw t app1 = Done tt app2
    /\ heap app2 !! t = Some v2
    /\ cells v1 = headerRow (dataSource v) :: body1
    /\ cells v2 = headerRow (dataSource v) :: body2
    /\ body1 = filter (visible srch) (Data (dataSource v))
    /\ body2 = filter (visible "") (Data (dataSource v))
    /\ (forall r, In r body1 <-> In r (Data (dataSource v)) /\ visible srch r)
    /\ (forall r, In r body2 <-> In r (Data (dataSource v)) /\ visible "" r)
    /\ sublist body1 body2
    /\ sublist body2 (Data (dataSource v))
    /\ search v1 = "" /\ search v2 = ""
    /\ draws app2 = S (S (draws app)).
Proof.
  intros Hv.
  assert (Hlt : t < length (heap app)) by (eapply lookup_lt_Some; eauto).
  eexists _, _, _, _, _, _. split.
  { unfold UpdateWithSearch, draw, update, bind, deref, modify. rewrite Hv.
    simpl. rewrite list_lookup_insert_eq by exact Hlt. simpl.
    rewrite list_lookup_insert_eq by exact Hlt. reflexivity. }
  split.
  { simpl. apply list_lookup_insert_eq. rewrite length_insert. exact Hlt. }
  split.
  { unfold draw, update, bind, deref, modify. simpl.
    rewrite list_lookup_insert_eq by (rewrite length_insert; exact Hlt). simpl.
    rewrite list_lookup_insert_eq by (rewrite length_insert; exact Hlt).
    reflexivity. }
  split.
  { simpl. apply list_lookup_insert_eq. rewrite !length_insert. exact Hlt. }
  simpl. do 2 (split; [reflexivity|]).
  do 2 (split; [apply shown_filter|]).
  split; [intros r; apply In_shown|].
  split; [intros r; apply In_shown|].
  split.
  { apply filter_sublist_imp. intros r. rewrite !negb_true_iff, !skipped_visible.
    apply visible_any. }
  split; [apply filter_sublist_self|].
  repeat split; reflexivity.
Qed.

Lemma search_filters_one_draw_witness :
  exists app1 v1,
    (UpdateWithSearch 0 "pods" ;;; draw 0) (state settle) = Done tt app1
    /\ heap app1 !! 0 = Some v1
    /\ exists body1,
         cells v1 = ["[white]NAME"] :: body1
         /\ body1
            = filter (visible "pods")
                (Data (dataSource
                         (default (init (kindOf RootPage) (feed []) NewAppView)
                            (heap (state settle) !! 0))))
         /\ forall r, In r body1 -> visible "pods" r.
Proof.
  destruct (search_filters_one_draw 0
              (default (init (kindOf RootPage) (feed []) NewAppView)
                 (heap (state settle) !! 0))
              "pods" (state settle))
    as (app1 & v1 & _ & _ & body1 & _ & E & Hv1 & _ & _ & Hc & _ & He & _ & Hb & _).
  - vm_compute. reflexivity.
  - exists app1, v1. split; [exact E|]. split; [exact Hv1|].
    exists body1. split; [exact Hc|]. split; [exact He|].
    intros r Hr. apply Hb in Hr. tauto.
Defined.

(** ** A first fetch that fails *)



(** ** Making a view *)

Lemma alloc_lookup {A : Type} (l : list A) (x : A) :
  (l ++ [x])%list !! length l = Some x.
Proof. apply list_lookup_middle. reflexivity. Qed.

Lemma alloc_insert {A : Type} (l : list A) (x y : A) :
  <[length l := y]> (l ++ [x])%list = (l ++ [y])%list.
Proof.
  rewrite insert_app_r_alt by lia. rewrite Nat.sub_diag. reflexivity.
Qed.

(** [refresh] on the view just allocated. *)
Lemma refresh_alloc (l : list tableView) (x : tableView) (app : AppView) :
  heap app = (l ++ [x])%list ->
  refresh (length l) app
  = match DataSource_Refresh (dataSource x) with
    | (Some e, ds) =>
        Done (Some e) (set_heap (l ++ [set_dataSource ds x])%list app)
    | (None, ds) =>
        Done None
          (set_draws (S (draws app))
             (set_heap
                (l ++ [set_search ""
                         (set_cells (drawn (set_dataSource ds x))
                            (set_dataSource ds x))])%list app))
    end.
Proof.
  intros Hh. unfold refresh. unfold bind at 1. unfold deref.
  rewrite Hh, alloc_lookup.
  destruct (DataSource_Refresh (dataSource x)) as [[e|] ds].
  - unfold bind at 1. rewrite (update_Done app (length l) x (set_dataSource ds))
      by (rewrite Hh; apply alloc_lookup).
    rewrite Hh, alloc_insert. reflexivity.
  - unfold bind at 1. rewrite (update_Done app (length l) x (set_dataSource ds))
      by (rewrite Hh; apply alloc_lookup).
    rewrite Hh, alloc_insert. unfold bind at 1. unfold draw. unfold bind at 1.
    unfold deref. simpl heap. rewrite alloc_lookup. unfold bind at 1.
    match goal with
    | |- context [update (length l) ?f ?a] =>
        rewrite (update_Done a (length l) (set_dataSource ds x) f)
          by (simpl; apply alloc_lookup)
    end.
    simpl heap. rewrite alloc_insert. reflexivity.
Qed.

(** [NewTableViewWithArgs] with a feeder returns a view at a fresh address
    and changes no view that was there, when the first fetch answers, or
    when it fails while the mutex is free and the current page is not
    registered.  The new view has the kind asked for, its cursor where
    the page was left, no signal waiting and no search; the registry and
    the pointer are as before.  If the first fetch answers, the table is
    drawn from the answer and the application redrawn once; if it fails,
    the table stays empty, the error status page, which then holds the
    dialog alone, is shown and its goroutine started. *)
Theorem NewTableViewWithArgs_fresh (kind : ResourceKind) (feeder : DataSource)
    (app : AppView) :
  answers (script feeder) = true
  \/ (lock app = false /\ tableViews app !! currentPage app = None) ->
  exists app1 v1,
    NewTableViewWithArgs kind (Some feeder) app = Done (length (heap app)) app1
    /\ heap app1 = (heap app ++ [v1])%list
    /\ resourceKind v1 = kind
    /\ selection v1 = default (pos 0 0) (pageRows app !! Kind kind)
    /\ sync v1 = 0
    /\ search v1 = ""
    /\ tableViews app1 = tableViews app
    /\ currentPage app1 = currentPage app
    /\ match DataSource_Refresh feeder with
       | (None, ds) =>
           dataSource v1 = ds
           /\ cells v1
              = headerRow ds
                :: List.filter (fun r => negb (skipped "" r)) (Data ds)
           /\ draws app1 = S (draws app)
           /\ sleepers app1 = sleepers app
           /\ content app1 = content app
       | (Some e, ds) =>
           dataSource v1 = ds
           /\ cells v1 = []
           /\ draws app1 = draws app
           /\ sleepers app1 = S (sleepers app)
           /\ frontPage app1
              = Some (currentPage app,
                      PagesP [("dialog", center (TextViewP "Error" e) 100 5)])
       end.
Proof.
  intros Hl.
  pose proof (grown_NewTableViewWithArgs kind feeder app) as G.
  set (v0 := init kind feeder app).
  set (app0 := set_heap (heap app ++ [v0])%list app).
  pose proof (refresh_alloc (heap app) v0 app0 eq_refl) as ER.
  assert (Hsel : selection v0 = default (pos 0 0) (pageRows app !! Kind kind)).
  { unfold v0, init. simpl. destruct (pageRows app !! Kind kind) as [[r c]|];
      reflexivity. }
  assert (Hans : answers (script feeder) = true ->
                 exists ds, DataSource_Refresh feeder = (None, ds)).
  { unfold answers, DataSource_Refresh.
    destruct (script feeder) as [|[e|[h d]] rest]; intros H;
      try discriminate; eauto. }
  change (dataSource v0) with feeder in ER.
  destruct (DataSource_Refresh feeder) as [[e|] ds] eqn:ED.
  - assert (Hl' : lock app = false /\ tableViews app !! currentPage app = None).
    { destruct Hl as [Hl|Hl]; [|exact Hl].
      destruct (Hans Hl) as (ds' & Hds). discriminate. }
    destruct Hl' as [Hl' Hu].
    set (appE := set_heap (heap app ++ [set_dataSource ds v0])%list app0) in ER.
    destruct (UpdateStatus_Done appE (length (heap app)) e true Hl' Hu)
      as (app' & EU & _ & Hf & Hsl & Hcur & _ & Hh' & Hd' & _).
    assert (Hp : statusPage e true appE
                 = PagesP [("dialog", center (TextViewP "Error" e) 100 5)]).
    { unfold statusPage. simpl. rewrite Hu. reflexivity. }
    rewrite Hp in Hf.
    assert (EN : NewTableViewWithArgs kind (Some feeder) app
                 = Done (length (heap app)) app').
    { unfold NewTableViewWithArgs. unfold bind at 1. unfold modify at 1.
      fold v0 app0. unfold bind at 1. rewrite ER. unfold bind at 1.
      rewrite EU. reflexivity. }
    rewrite EN in G. simpl in G. destruct G as [Gtv Gc _ _].
    exists app', (set_dataSource ds v0).
    split; [exact EN|]. split; [exact Hh'|].
    split; [reflexivity|]. split; [exact Hsel|].
    do 2 (split; [reflexivity|]).
    split; [exact Gtv|]. split; [exact Gc|].
    split; [reflexivity|]. split; [reflexivity|].
    split; [exact Hd'|]. split; [exact Hsl|]. exact Hf.
  - assert (EN : NewTableViewWithArgs kind (Some feeder) app
                 = Done (length (heap app))
                     (set_draws (S (draws app0))
                        (set_heap
                           (heap app
                            ++ [set_search ""
                                  (set_cells (drawn (set_dataSource ds v0))
                                     (set_dataSource ds v0))])%list app0))).
    { unfold NewTableViewWithArgs. unfold bind at 1. unfold modify at 1.
      fold v0 app0. unfold bind at 1. rewrite ER. reflexivity. }
    eexists _, _. split; [exact EN|]. simpl.
    split; [reflexivity|]. split; [reflexivity|]. split; [exact Hsel|].
    repeat split; reflexivity.
Qed.

Lemma NewTableViewWithArgs_fresh_witness :
  exists app1 v1,
    NewTableViewWithArgs (kindOf "nodes") (Some (feed [["node-1"]; [""; "x"]]))
      (state settle) = Done 1 app1
    /\ heap app1 = (heap (state settle) ++ [v1])%list
    /\ resourceKind v1 = kindOf "nodes".
Proof.
  destruct (NewTableViewWithArgs_fresh (kindOf "nodes")
              (feed [["node-1"]; [""; "x"]]) (state settle))
    as (app1 & v1 & E & Hh & Hk & _).
  - left. vm_compute. reflexivity.
  - exists app1, v1. split; [exact E|]. split; [exact Hh|exact Hk].
Defined.

(** ** The name under the cursor *)

Lemma firstField_split s :
  exists tail,
    s = firstField s ++ tail
    /\ (tail = "" \/ exists tail', tail = String Ascii.Space tail').
Proof.
  induction s as [|c s IH]; simpl.
  - exists "". split; [reflexivity|left; reflexivity].
  - destruct (Ascii.eqb c Ascii.Space) eqn:E.
    + apply Ascii.eqb_eq in E. subst c. exists (String Ascii.Space s).
      split; [reflexivity|right; eauto].
    + destruct IH as (tail & H1 & H2). exists tail. split; [|exact H2].
      change (String c s = String c (firstField s ++ tail)).
      f_equal. exact H1.
Qed.

Lemma firstField_no_space s :
  ~ In Ascii.Space (String.list_ascii_of_string (firstField s)).
Proof.
  induction s as [|c s IH]; simpl; [tauto|].
  destruct (Ascii.eqb c Ascii.Space) eqn:E; simpl; [tauto|].
  intros [H|H]; [|exact (IH H)].
  subst c. rewrite Ascii.eqb_refl in E. discriminate.
Qed.

Lemma GetCell_body hdr body i first rest :
  body !! i = Some (first :: rest) ->
  GetCell (hdr :: body) (Z.of_nat (S i)) 0 = Some first.
Proof.
  intros Hb. unfold GetCell.
  assert (Hlt : i < length body) by (eapply lookup_lt_Some; eauto).
  destruct (decide (Z.of_nat (length (hdr :: body)) <= Z.of_nat (S i))%Z)
    as [Hle|_]; [simpl in Hle; lia|].
  destruct (decide (Z.of_nat (S i) < 0)%Z) as [Hneg|_]; [lia|].
  rewrite Nat2Z.id. simpl. rewrite Hb. simpl.
  destruct (decide (Z.of_nat (S (length rest)) <= 0)%Z) as [Hle|_]; [lia|].
  reflexivity.
Qed.

(** The name [GetSelectionName] gives for a drawn table.  With the cursor
    in row [i + 1], under the header, it is the first word of the first
    value of the [i]-th row that [draw] showed: that value up to its first
    space, which is never empty at its start since [draw] skips the rows
    that have an empty first value. *)
Theorem GetSelectionName_after_draw (t : nat) (v : tableView) (i : nat)
    (first : string) (rest : list string) (app : AppView) :
  heap app !! t = Some v ->
  List.filter (fun r => negb (skipped (search v) r)) (Data (dataSource v)) !! i
  = Some (first :: rest) ->
  row (selection v) = Z.of_nat (S i) ->
  exists app1 tail,
    draw t app = Done tt app1
    /\ GetSelectionName t app1 = Done (firstField first) app1
    /\ first = firstField first ++ tail
    /\ (tail = "" \/ exists tail', tail = String Ascii.Space tail')
    /\ ~ In Ascii.Space (String.list_ascii_of_string (firstField first))
    /\ first <> "".
Proof.
  intros Hv Hb Hr.
  assert (Hlt : t < length (heap app)) by (eapply lookup_lt_Some; eauto).
  destruct (firstField_split first) as (tail & H1 & H2).
  eexists _, tail. split.
  { unfold draw, update, bind, deref, modify. rewrite Hv. simpl.
    rewrite Hv. reflexivity. }
  split.
  { unfold GetSelectionName, cellText, bind, deref, ret. simpl.
    rewrite list_lookup_insert_eq by exact Hlt. simpl.
    rewrite list_lookup_insert_eq by exact Hlt. simpl.
    rewrite Hr, (GetCell_body _ _ i first rest Hb). reflexivity. }
  split; [exact H1|]. split; [exact H2|].
  split; [apply firstField_no_space|].
  intros ->. apply list_elem_of_lookup_2 in Hb. apply list_elem_of_In in Hb.
  apply In_shown in Hb as [_ [Hhd _]]. apply Hhd. reflexivity.
Qed.

Lemma GetSelectionName_after_draw_witness :
  exists app1 app2,
    userSelect 1 2 0 (state onPods) = Done tt app1
    /\ draw 1 app1 = Done tt app2
    /\ GetSelectionName 1 app2 = Done "web-1" app2.
Proof.
  destruct (userSelect 1 2 0 (state onPods)) as [[] app1|a|a] eqn:E.
  2,3: exfalso; vm_compute in E; discriminate.
  assert (Hv : exists v, heap app1 !! 1 = Some v
                         /\ Data (dataSource v) = [["web-0"]; ["web-1"]]
                         /\ search v = ""
                         /\ row (selection v) = 2%Z).
  { vm_compute in E. injection E as <-. eexists. split; [reflexivity|].
    repeat split; reflexivity. }
  destruct Hv as (v & Hv & Hd & Hs & Hr).
  destruct (GetSelectionName_after_draw 1 v 1 "web-1" [] app1 Hv)
    as (app2 & _ & E1 & E2 & _).
  - rewrite Hd, Hs. reflexivity.
  - exact Hr.
  - exists app1, app2. split; [reflexivity|]. split; [exact E1|exact E2].
Defined.

(** ** A dialog and back *)

(** [InsertDialog] with a page that can be asked for the focus puts the
    dialog over that page, under the name of the current page (the page
    itself is dropped when its name is "dialog" too), and hands the focus
    to the dialog, which keeps it unless it is a container that passes it
    on; the pointer does not move and no switch signal is sent.
    [BackPage] after it shows what was on top of the history before the
    dialog, hands the focus to it in the same way, and leaves the history
    as it was. *)
Theorem InsertDialog_then_BackPage (name : string)
    (page dialog : tview_Primitive) (top : PageTrack) (b : bool)
    (app : AppView) :
  lock app = false ->
  last (drawQueue app) = Some top ->
  HasFocus (focus app) page = Some b ->
  exists app1 app2,
    InsertDialog name page dialog app = Done tt app1
    /\ frontPage app1
       = Some (currentPage app,
               PagesP ((if decide (name = "dialog") then [] else [(name, page)])
                       ++ [("dialog", center dialog 40 15)]))
    /\ focus app1 = focusTarget dialog
    /\ (forall title text, dialog = TextViewP title text -> focus app1 = dialog)
    /\ currentPage app1 = currentPage app
    /\ switchPage app1 = switchPage app
    /\ BackPage app1 = Done tt app2
    /\ frontPage app2 = Some (PageName top, Primitive top)
    /\ focus app2 = focusTarget (Primitive top)
    /\ (forall t, Primitive top = TableP t -> focus app2 = TableP t)
    /\ drawQueue app2 = drawQueue app
    /\ currentPage app2 = currentPage app
    /\ switchPage app2 = switchPage app.
Proof.
  intros Hl Htop Hb.
  set (pages := ((if decide (name = "dialog") then [] else [(name, page)])
                 ++ [("dialog", center dialog 40 15)])%list).
  set (newpage := PagesP pages).
  assert (EA : AddPage "dialog" (center dialog 40 15) [(name, page)] app
               = Done pages app).
  { rewrite (AddPage_second _ _ _ _ _ b Hb). unfold pages.
    rewrite filter_cons. simpl.
    destruct (decide (name ≠ "dialog")) as [H|H],
             (decide (name = "dialog")) as [H'|H'];
      first [reflexivity|contradiction]. }
  destruct (SwitchPage_returns (currentPage app) newpage app Hl
              (or_introl eq_refl)) as (a1 & E1).
  pose proof E1 as F1.
  apply SwitchPage_Done in F1
    as (Hc1 & Hq1 & Hf1 & _ & _ & _ & _ & _ & _ & _ & _ & Hs1).
  destruct (decide (currentPage app ≠ currentPage app)) as [Hne|_];
    [contradiction|].
  set (app1 := SetFocus dialog a1).
  destruct (LastPage_Done app1) as (app2 & E2 & Hq2 & Hf2 & Hfo2 & Hc2 & _ & Hs2 & _).
  assert (Hq : drawQueue app2 = drawQueue app).
  { rewrite Hq2. unfold app1. simpl. rewrite Hq1. apply removelast_last. }
  assert (HL : PrimitiveQueue.Last app2 = top).
  { unfold PrimitiveQueue.Last. rewrite Hq, Htop. reflexivity. }
  exists app1, app2. split.
  { unfold InsertDialog. unfold bind at 1. rewrite AddPage_first.
    unfold bind at 1. rewrite EA. fold newpage. unfold bind. rewrite E1.
    reflexivity. }
  split; [exact Hf1|]. split; [reflexivity|].
  split; [intros title text ->; reflexivity|]. split; [exact Hc1|].
  split; [exact Hs1|]. split; [exact E2|].
  rewrite HL in Hf2, Hfo2.
  split; [exact Hf2|]. split; [exact Hfo2|].
  split; [intros t Ht; rewrite Hfo2, Ht; reflexivity|]. split; [exact Hq|].
  split; [rewrite Hc2; exact Hc1|rewrite Hs2; exact Hs1].
Qed.

Lemma InsertDialog_then_BackPage_witness :
  exists app1 app2,
    InsertDialog "delete" (TableP 0) (TextViewP "modal" "delete pods web-0?")
      (state settle) = Done tt app1
    /\ focus app1 = TextViewP "modal" "delete pods web-0?"
    /\ BackPage app1 = Done tt app2
    /\ frontPage app2 = Some (RootPage, TableP 0)
    /\ focus app2 = TableP 0.
Proof.
  destruct (InsertDialog_then_BackPage "delete" (TableP 0)
              (TextViewP "modal" "delete pods web-0?")
              (track RootPage (TableP 0)) true (state settle))
    as (app1 & app2 & E1 & _ & Hd & _ & _ & _ & E2 & Hf & Hfo & _).
  - vm_compute. reflexivity.
  - vm_compute. reflexivity.
  - vm_compute. reflexivity.
  - exists app1, app2. split; [exact E1|]. split; [exact Hd|].
    split; [exact E2|]. split; [exact Hf|exact Hfo].
Defined.

(** ** Resource actions *)

Lemma GetCell_corner cs : exists corner, GetCell cs 0 0 = Some corner.
Proof.
  unfold GetCell.
  destruct (decide (Z.of_nat (length cs) <= 0)%Z); [eauto|].
  destruct (decide (0 < 0)%Z); [lia|].
  destruct (decide (Z.of_nat (length (default [] (cs !! Z.to_nat 0))) <= 0)%Z);
    eauto.
Qed.

Lemma GetCell_total cs r c :
  (0 <= r)%Z -> (0 <= c)%Z -> exists text, GetCell cs r c = Some text.
Proof.
  intros Hr Hc. unfold GetCell.
  destruct (decide (Z.of_nat (length cs) <= r)%Z); [eauto|].
  destruct (decide (r < 0)%Z); [lia|].
  destruct (decide (Z.of_nat (length (default [] (cs !! Z.to_nat r))) <= c)%Z);
    [eauto|].
  destruct (decide (c < 0)%Z); [lia|eauto].
Qed.

Lemma GetCell_beyond cs r c :
  (Z.of_nat (length cs) <= r)%Z -> GetCell cs r c = Some "".
Proof.
  intros Hr. unfold GetCell.
  destruct (decide (Z.of_nat (length cs) <= r)%Z); [reflexivity|contradiction].
Qed.

(** [get] and [logs] with the cursor at or below the top of the table
    never panic on reading it.  With the cursor beyond the last row, as
    on an empty table, the name they read is empty whatever the header
    says: [get] asks for the resource of the empty name without a
    namespace, and [logs] on "pods" passes an empty namespace and an
    empty name. *)
Theorem get_beyond_table (kind : string) (cs : list (list string)) (r : Z) :
  (0 <= r)%Z ->
  (exists args, get_command kind cs r = Some args)
  /\ (exists cmd, logs_command kind cs r = Some cmd)
  /\ ((Z.of_nat (length cs) <= r)%Z ->
      getNamespaceAndName cs r = Some ("", "")
      /\ get_command kind cs r = Some ["get"; kind; ""; "-o"; "yaml"]
      /\ logs_command "pods" cs r
         = Some (Some ["logs"; "-f"; "-n"; ""; ""; "--all-containers"])).
Proof.
  intros Hr.
  assert (Hnn : exists nn, getNamespaceAndName cs r = Some nn).
  { unfold getNamespaceAndName.
    destruct (GetCell_corner cs) as (corner & ->).
    destruct (GetCell_total cs r 0 Hr ltac:(lia)) as (a & ->).
    destruct (GetCell_total cs r 1 Hr ltac:(lia)) as (b & ->).
    destruct (Contains corner "NAMESPACE"); eauto. }
  split; [|split].
  - unfold get_command. destruct Hnn as ([ns name] & ->). eauto.
  - unfold logs_command. destruct (decide (kind ≠ "pods")); [eauto|].
    destruct Hnn as ([ns name] & ->). eauto.
  - intros Hb.
    assert (E : getNamespaceAndName cs r = Some ("", "")).
    { unfold getNamespaceAndName.
      destruct (GetCell_corner cs) as (corner & ->).
      rewrite !(GetCell_beyond cs r) by exact Hb.
      destruct (Contains corner "NAMESPACE"); reflexivity. }
    split; [exact E|]. split.
    + unfold get_command. rewrite E. reflexivity.
    + unfold logs_command. rewrite E. reflexivity.
Qed.

Lemma get_beyond_table_witness :
  get_command "pods" [] 0 = Some ["get"; "pods"; ""; "-o"; "yaml"].
Proof.
  destruct (get_beyond_table "pods" [] 0) as (_ & _ & H).
  - lia.
  - destruct H as (_ & H & _); [simpl; lia|exact H].
Defined.
